(** * DocInsight (App.jsx): markup parsing and session state

    A shallow embedding of the pure parsers ([parseMarkdownBold],
    [parseMarkdownLists], the complex-word scanner of [renderSummary]) and of
    the event handlers of the [App] component, followed by the properties of
    the specification that concern them. *)

From Stdlib Require Import String Ascii DecimalString.
From Stdlib Require Import List NArith ZArith QArith Lia Bool Arith.
Import ListNotations.
Open Scope nat_scope.

#[local] Abbreviation length := Datatypes.length (only parsing).

(* ------------------------------------------------------------------ *)
(** ** JavaScript strings

    A JavaScript string is a sequence of UTF-16 code units.  Regular
    expressions without the [u] flag, [trim], [split], [substring] and
    [length] all work on code units, so a string is a list of numbers. *)

Module JS.

Definition char := N.
Definition jsstring := list char.

(** String literals of the source, written as Rocq strings. *)
Definition str (s : string) : jsstring :=
  List.map N_of_ascii (list_ascii_of_string s).

Definition LF : char := 10%N.

Definition char_eqb (a b : char) : bool := N.eqb a b.

Fixpoint eqb (a b : jsstring) : bool :=
  match a, b with
  | [], [] => true
  | x :: a', y :: b' => char_eqb x y && eqb a' b'
  | _, _ => false
  end.

(** [s] is falsy exactly when it is the empty string. *)
Definition truthy (s : jsstring) : bool :=
  match s with [] => false | _ :: _ => true end.

(** [a || b] on strings. *)
Definition or_else (a b : jsstring) : jsstring :=
  if truthy a then a else b.

(** ECMAScript LineTerminator: LF, CR, LS, PS. *)
Definition isLineTerminator (c : char) : bool :=
  (N.eqb c 10 || N.eqb c 13 || N.eqb c 8232 || N.eqb c 8233)%N.

(** ECMAScript WhiteSpace and LineTerminator: the class [\s] and the
    characters removed by [String.prototype.trim]. *)
Definition isSpace (c : char) : bool :=
  (N.eqb c 9 || N.eqb c 10 || N.eqb c 11 || N.eqb c 12 || N.eqb c 13
   || N.eqb c 32 || N.eqb c 160 || N.eqb c 5760
   || (N.leb 8192 c && N.leb c 8202)
   || N.eqb c 8232 || N.eqb c 8233 || N.eqb c 8239 || N.eqb c 8287
   || N.eqb c 12288 || N.eqb c 65279)%N.

Fixpoint dropWhile (p : char -> bool) (s : jsstring) : jsstring :=
  match s with
  | [] => []
  | c :: s' => if p c then dropWhile p s' else s
  end.

Fixpoint takeWhile (p : char -> bool) (s : jsstring) : jsstring :=
  match s with
  | [] => []
  | c :: s' => if p c then c :: takeWhile p s' else []
  end.

(** [s.trim()] *)
Definition trim (s : jsstring) : jsstring :=
  rev (dropWhile isSpace (rev (dropWhile isSpace s))).

(** [s.substring(a, b)]: the arguments are clamped to the length and swapped
    when [a > b]. *)
Definition substring (s : jsstring) (a b : nat) : jsstring :=
  let lo := Nat.min a b in
  let hi := Nat.max a b in
  firstn (hi - lo) (skipn lo s).

(** [s.substring(a)] *)
Definition substring_from (s : jsstring) (a : nat) : jsstring := skipn a s.

Fixpoint startsWith (p s : jsstring) : bool :=
  match p, s with
  | [], _ => true
  | x :: p', y :: s' => char_eqb x y && startsWith p' s'
  | _ :: _, [] => false
  end.

(** [s.endsWith(p)] *)
Definition endsWith (s p : jsstring) : bool :=
  startsWith (rev p) (rev s).

(** [s.split("\n")]: never empty, the empty string gives [[""]]. *)
Fixpoint split_acc (cur : jsstring) (s : jsstring) : list jsstring :=
  match s with
  | [] => [rev cur]
  | c :: s' =>
      if char_eqb c LF then rev cur :: split_acc [] s'
      else split_acc (c :: cur) s'
  end.

Definition split_lines (s : jsstring) : list jsstring := split_acc [] s.

(** [a.join("\n")] *)
Fixpoint join_lines (a : list jsstring) : jsstring :=
  match a with
  | [] => []
  | [x] => x
  | x :: rest => x ++ LF :: join_lines rest
  end.

End JS.

(* ------------------------------------------------------------------ *)
(** ** The two global regular expressions and the scanning loop *)

Module Markup.
Import JS.

(** Both [/\*\*([^*]+)\*\*/g] and [/\[COMPLEX:([^\]]+)\]/g] have the shape
    "opening literal, one or more characters outside a one-character class
    (captured), closing literal". *)
Record Regex := {
  re_open : jsstring;
  re_excluded : char;
  re_close : jsstring
}.

Definition boldRegex : Regex :=
  {| re_open := str "**"; re_excluded := 42%N; re_close := str "**" |}.

Definition complexWordRegex : Regex :=
  {| re_open := str "[COMPLEX:"; re_excluded := 93%N; re_close := str "]" |}.

(** A match: [match.index], [match[1]] and [match[0].length]. *)
Record Match := {
  m_index : nat;
  m_group : jsstring;
  m_length : nat
}.

(** The greedy quantifier [+] first takes [k] characters, the longest run
    outside the class, then gives characters back one at a time until the
    closing literal follows; at least one character stays. *)
Fixpoint backtrack (re : Regex) (k : nat) (s : jsstring) : option nat :=
  match k with
  | 0 => None
  | S k' =>
      if startsWith (re_close re) (skipn k s) then Some k
      else backtrack re k' s
  end.

(** Try to match the regular expression at the very start of [s]; the result
    is the captured group and the length of the whole match. *)
Definition match_here (re : Regex) (s : jsstring) : option (jsstring * nat) :=
  if startsWith (re_open re) s then
    let body := skipn (length (re_open re)) s in
    let run := takeWhile (fun c => negb (char_eqb c (re_excluded re))) body in
    match backtrack re (length run) body with
    | Some k =>
        Some (firstn k body, length (re_open re) + k + length (re_close re))
    | None => None
    end
  else None.

(** Leftmost match in [s], which starts at offset [i] of the subject. *)
Fixpoint search (re : Regex) (s : jsstring) (i : nat) : option Match :=
  match match_here re s with
  | Some (g, len) => Some {| m_index := i; m_group := g; m_length := len |}
  | None =>
      match s with
      | [] => None
      | _ :: s' => search re s' (S i)
      end
  end.

(** [re.exec(text)] for a global regular expression whose [lastIndex]
    property is [lastIndex].  In every loop of the source the property is
    in step with the local variable of the same name: both are 0 at first
    and both are [match.index + match[0].length] after a match. *)
Definition exec (re : Regex) (text : jsstring) (lastIndex : nat) : option Match :=
  if length text <? lastIndex then None
  else search re (skipn lastIndex text) lastIndex.

Inductive PartType := text | bold | complex.

Record Part := { type : PartType; content : jsstring }.

(** The [while ((match = re.exec(text)) !== null)] loop shared by
    [parseMarkdownBold] and the two complex-word scanners of
    [renderSummary]; [special] is the type pushed for a match.  [fuel]
    bounds the number of iterations; [None] means it ran out. *)
Fixpoint scan_loop (re : Regex) (special : PartType) (fuel : nat)
    (text_ : jsstring) (lastIndex : nat) (parts : list Part)
  : option (list Part * nat) :=
  match exec re text_ lastIndex with
  | None => Some (parts, lastIndex)
  | Some m =>
      match fuel with
      | 0 => None
      | S fuel' =>
          let parts1 :=
            if lastIndex <? m_index m
            then parts ++ [{| type := text;
                              content := substring text_ lastIndex (m_index m) |}]
            else parts in
          let parts2 := parts1 ++ [{| type := special; content := m_group m |}] in
          scan_loop re special fuel' text_ (m_index m + m_length m) parts2
      end
  end.

(** The whole scanner: the loop, the remaining text, and the fallback to a
    single text part when nothing was pushed. *)
Definition scan (re : Regex) (special : PartType) (text_ : jsstring)
  : option (list Part) :=
  match scan_loop re special (length text_) text_ 0 [] with
  | None => None
  | Some (parts, lastIndex) =>
      let parts' :=
        if lastIndex <? length text_
        then parts ++ [{| type := text; content := substring_from text_ lastIndex |}]
        else parts in
      Some (if 0 <? length parts' then parts'
            else [{| type := text; content := text_ |}])
  end.

Definition parseMarkdownBold (text_ : jsstring) : option (list Part) :=
  scan boldRegex bold text_.

(** The complex-word scan written out twice in [renderSummary], once for
    list items and once for paragraphs; it yields [finalItemParts],
    respectively [finalParts]. *)
Definition parseComplexWords (text_ : jsstring) : option (list Part) :=
  scan complexWordRegex complex text_.

(** Writing a part back with the marker syntax of its type. *)
Definition unparse_part (p : Part) : jsstring :=
  match type p with
  | text => content p
  | bold => str "**" ++ content p ++ str "**"
  | complex => str "[COMPLEX:" ++ content p ++ str "]"
  end.

Definition unparse (parts : list Part) : jsstring :=
  flat_map unparse_part parts.


(** The loop invariant of the scanner: the parts pushed so far, written
    back, are the subject up to [lastIndex]. *)
Definition scanned (text_ : jsstring) (parts : list Part) (lastIndex : nat)
  : Prop :=
  unparse parts ++ skipn lastIndex text_ = text_ /\ lastIndex <= length text_.

(** Every part is a text part or a match: a non-empty group without the
    excluded character. *)
Definition plain_or_special (re : Regex) (special : PartType) (p : Part)
  : Prop :=
  type p = text
  \/ (type p = special /\ content p <> []
      /\ ~ In (re_excluded re) (content p)).

End Markup.

(* ------------------------------------------------------------------ *)
(** ** The block parser [parseMarkdownLists] and [renderSummary] *)

Module Blocks.
Import JS Markup.

(** [{ type: "paragraph", content }] and [{ type: "list", items }] *)
Inductive Block :=
| paragraph (content : jsstring)
| list_block (items : list jsstring).

(** ['-'] or ['*'] *)
Definition isBulletMarker (c : char) : bool :=
  (N.eqb c 45 || N.eqb c 42)%N.

(** [.] without the [s] flag: any code unit that is no line terminator. *)
Definition isDot (c : char) : bool := negb (isLineTerminator c).

(** The tail [\s+(.+)$] of the bullet pattern on [s]: [\s+] first takes the
    [k] leading white-space characters and gives them back one at a time,
    keeping at least one, until [(.+)$] matches what is left: a non-empty
    rest up to the end of the line without a line terminator.  The result
    is the captured group. *)
Fixpoint bullet_backtrack (k : nat) (s : jsstring) : option jsstring :=
  match k with
  | 0 => None
  | S k' =>
      let rest := skipn k s in
      if truthy rest && forallb isDot rest then Some rest
      else bullet_backtrack k' s
  end.

(** [line.match(/^[\s]*[-*]\s+(.+)$/)]: the captured group of a bullet line.
    The leading [[\s]*] takes all leading white space; giving some of it
    back cannot help, because a marker is no white-space character. *)
Definition bulletMatch (line : jsstring) : option jsstring :=
  match dropWhile isSpace line with
  | c :: after =>
      if isBulletMarker c
      then bullet_backtrack (length (takeWhile isSpace after)) after
      else None
  | [] => None
  end.

(** The three variables of the loop. *)
Record Acc := {
  result : list Block;
  currentList : list jsstring;
  currentParagraph : list jsstring
}.

Definition flushParagraph (a : Acc) : Acc :=
  if 0 <? length (currentParagraph a) then
    {| result := result a ++ [paragraph (join_lines (currentParagraph a))];
       currentList := currentList a;
       currentParagraph := [] |}
  else a.

Definition flushList (a : Acc) : Acc :=
  if 0 <? length (currentList a) then
    {| result := result a ++ [list_block (currentList a)];
       currentList := [];
       currentParagraph := currentParagraph a |}
  else a.

(** The body of [for (const line of lines)]. *)
Definition loop_body (a : Acc) (line : jsstring) : Acc :=
  match bulletMatch line with
  | Some item =>
      let a1 := flushParagraph a in
      {| result := result a1;
         currentList := currentList a1 ++ [trim item];
         currentParagraph := currentParagraph a1 |}
  | None =>
      let a1 := flushList a in
      if truthy (trim line) || (0 <? length (currentParagraph a1)) then
        {| result := result a1;
           currentList := currentList a1;
           currentParagraph := currentParagraph a1 ++ [line] |}
      else a1
  end.

Definition start : Acc :=
  {| result := []; currentList := []; currentParagraph := [] |}.

Definition run_lines (lines : list jsstring) : Acc :=
  fold_left loop_body lines start.

Definition parseMarkdownLists (text_ : jsstring) : list Block :=
  let lines := split_lines text_ in
  let a := flushList (flushParagraph (run_lines lines)) in
  if 0 <? length (result a) then result a
  else [paragraph text_].

(** [!line.trim()] *)
Definition is_blank (line : jsstring) : bool := negb (truthy (trim line)).

Definition is_bullet (line : jsstring) : bool :=
  match bulletMatch line with Some _ => true | None => false end.

(** [bulletMatch[1].trim()] of a bullet line. *)
Definition bullet_item (line : jsstring) : jsstring :=
  match bulletMatch line with Some item => trim item | None => [] end.

Fixpoint take_while {A : Type} (p : A -> bool) (l : list A) : list A :=
  match l with
  | [] => []
  | a :: l' => if p a then a :: take_while p l' else []
  end.

Fixpoint drop_while {A : Type} (p : A -> bool) (l : list A) : list A :=
  match l with
  | [] => []
  | a :: l' => if p a then drop_while p l' else l
  end.

(** The lines that follow the last bullet line, or all lines when there is
    no bullet line. *)
Definition since_last_bullet (lines : list jsstring) : list jsstring :=
  rev (take_while (fun l => negb (is_bullet l)) (rev lines)).

(** The text of the bullet-grouping example, and a list followed by a blank
    line. *)
Definition bullet_example : jsstring :=
  str "para one" ++ [LF] ++ str "- item A" ++ [LF] ++ str "- item B"
  ++ [LF] ++ str "paras two".

Definition list_then_blank : jsstring :=
  str "- a" ++ [LF] ++ [LF] ++ str "foo".

Definition two_bullets : jsstring :=
  str "- a" ++ [LF] ++ str "  * b".

(** What [renderSummary] puts on the screen. *)
Inductive InlineSpan :=
| Plain (t : jsstring)        (* <span> *)
| Bold (t : jsstring)         (* <strong> *)
| ComplexTerm (t : jsstring). (* <span className="complex-word" onClick> *)

Inductive RenderedBlock :=
| RParagraph (spans : list InlineSpan)         (* <div> *)
| RList (items : list (list InlineSpan)).      (* <ul> of <li> *)

Fixpoint traverse {A B : Type} (f : A -> option B) (l : list A)
  : option (list B) :=
  match l with
  | [] => Some []
  | x :: l' =>
      match f x, traverse f l' with
      | Some y, Some ys => Some (y :: ys)
      | _, _ => None
      end
  end.

Definition renderTextWithMarkdown (text_ : jsstring) : option (list InlineSpan) :=
  option_map
    (map (fun part =>
            match type part with
            | bold => Bold (content part)
            | _ => Plain (content part)
            end))
    (parseMarkdownBold text_).

(** The segments of one paragraph or list item: complex words become
    clickable spans, the text between them goes through
    [renderTextWithMarkdown]. *)
Definition renderSegments (text_ : jsstring) : option (list InlineSpan) :=
  match parseComplexWords text_ with
  | None => None
  | Some finalParts =>
      option_map (@concat InlineSpan)
        (traverse
           (fun segment =>
              match type segment with
              | complex => Some [ComplexTerm (content segment)]
              | _ => renderTextWithMarkdown (content segment)
              end)
           finalParts)
  end.

Definition renderSummary (text_ : jsstring) : option (list RenderedBlock) :=
  if negb (truthy text_) then Some []
  else
    traverse
      (fun part =>
         match part with
         | list_block items => option_map RList (traverse renderSegments items)
         | paragraph c => option_map RParagraph (renderSegments c)
         end)
      (parseMarkdownLists text_).

(** Writing a span back with the marker syntax of its kind. *)
Definition unparse_span (s : InlineSpan) : jsstring :=
  match s with
  | Plain t => t
  | Bold t => str "**" ++ t ++ str "**"
  | ComplexTerm t => str "[COMPLEX:" ++ t ++ str "]"
  end.


Definition unparse_spans (spans : list InlineSpan) : jsstring :=
  flat_map unparse_span spans.


(** [strips_to s s']: [s'] is [s] with the marker syntax deleted around
    some bold bodies (no [*] inside) and some complex terms (no []]
    inside), and nothing else changed. *)
Inductive strips_to : jsstring -> jsstring -> Prop :=
| strips_nil : strips_to [] []
| strips_plain (t s s' : jsstring) :
    strips_to s s' -> strips_to (t ++ s) (t ++ s')
| strips_bold (g s s' : jsstring) :
    g <> [] -> ~ In 42%N g -> strips_to s s' ->
    strips_to (str "**" ++ g ++ str "**" ++ s) (g ++ s')
| strips_complex (g s s' : jsstring) :
    g <> [] -> ~ In 93%N g -> strips_to s s' ->
    strips_to (str "[COMPLEX:" ++ g ++ str "]" ++ s) (g ++ s').

(** A bold span holds a non-empty body without [*], a complex term a
    non-empty term without []]. *)
Definition well_formed_span (s : InlineSpan) : Prop :=
  match s with
  | Plain _ => True
  | Bold t => t <> [] /\ ~ In 42%N t
  | ComplexTerm t => t <> [] /\ ~ In 93%N t
  end.

End Blocks.

(* ------------------------------------------------------------------ *)
(** ** The [App] component: state, handlers, outstanding calls *)

Module File.
(** The two properties of a [File] object that the handlers read. *)
Record t := { name : JS.jsstring; type : JS.jsstring }.
End File.

Module ChatMessage.
Inductive Role := user | assistant.
(** [{ type, content, id }] *)
Record t := { type : Role; content : JS.jsstring; id : Z }.
End ChatMessage.

Module Session.
Import JS.

(** [{ x, y }]; screen coordinates are taken as exact rationals, and no
    handler ever reads them back. *)
Record Position := { x : Q; y : Q }.

(** [event.currentTarget.getBoundingClientRect()] *)
Record Rect := { left : Q; top : Q; width : Q }.

(** The fourteen [useState] cells of [App]. *)
Record State := mkState {
  inputText : jsstring;
  summary : jsstring;
  question : jsstring;
  chatMessages : list ChatMessage.t;
  isGeneratingSummary : bool;
  isAnswering : bool;
  error : jsstring;
  selectedFile : option File.t;
  isDragging : bool;
  isProcessingFile : bool;
  clickedWord : option jsstring;
  wordDefinition : jsstring;
  isLoadingDefinition : bool;
  definitionPosition : Position
}.

(** The state of the first render. *)
Definition initial : State :=
  mkState [] [] [] [] false false [] None false false None [] false
          {| x := 0; y := 0 |}.

Definition setInputText (v : jsstring) (s : State) : State :=
  mkState v (summary s) (question s) (chatMessages s) (isGeneratingSummary s)
    (isAnswering s) (error s) (selectedFile s) (isDragging s)
    (isProcessingFile s) (clickedWord s) (wordDefinition s)
    (isLoadingDefinition s) (definitionPosition s).

Definition setSummary (v : jsstring) (s : State) : State :=
  mkState (inputText s) v (question s) (chatMessages s) (isGeneratingSummary s)
    (isAnswering s) (error s) (selectedFile s) (isDragging s)
    (isProcessingFile s) (clickedWord s) (wordDefinition s)
    (isLoadingDefinition s) (definitionPosition s).

Definition setQuestion (v : jsstring) (s : State) : State :=
  mkState (inputText s) (summary s) v (chatMessages s) (isGeneratingSummary s)
    (isAnswering s) (error s) (selectedFile s) (isDragging s)
    (isProcessingFile s) (clickedWord s) (wordDefinition s)
    (isLoadingDefinition s) (definitionPosition s).

(** [setChatMessages] is called with a value or with an updater
    [(prev) => ...]; a value is the constant updater. *)
Definition setChatMessages (f : list ChatMessage.t -> list ChatMessage.t)
    (s : State) : State :=
  mkState (inputText s) (summary s) (question s) (f (chatMessages s))
    (isGeneratingSummary s) (isAnswering s) (error s) (selectedFile s)
    (isDragging s) (isProcessingFile s) (clickedWord s) (wordDefinition s)
    (isLoadingDefinition s) (definitionPosition s).

Definition setIsGeneratingSummary (v : bool) (s : State) : State :=
  mkState (inputText s) (summary s) (question s) (chatMessages s) v
    (isAnswering s) (error s) (selectedFile s) (isDragging s)
    (isProcessingFile s) (clickedWord s) (wordDefinition s)
    (isLoadingDefinition s) (definitionPosition s).

Definition setIsAnswering (v : bool) (s : State) : State :=
  mkState (inputText s) (summary s) (question s) (chatMessages s)
    (isGeneratingSummary s) v (error s) (selectedFile s) (isDragging s)
    (isProcessingFile s) (clickedWord s) (wordDefinition s)
    (isLoadingDefinition s) (definitionPosition s).

Definition setError (v : jsstring) (s : State) : State :=
  mkState (inputText s) (summary s) (question s) (chatMessages s)
    (isGeneratingSummary s) (isAnswering s) v (selectedFile s) (isDragging s)
    (isProcessingFile s) (clickedWord s) (wordDefinition s)
    (isLoadingDefinition s) (definitionPosition s).

Definition setSelectedFile (v : option File.t) (s : State) : State :=
  mkState (inputText s) (summary s) (question s) (chatMessages s)
    (isGeneratingSummary s) (isAnswering s) (error s) v (isDragging s)
    (isProcessingFile s) (clickedWord s) (wordDefinition s)
    (isLoadingDefinition s) (definitionPosition s).

Definition setIsDragging (v : bool) (s : State) : State :=
  mkState (inputText s) (summary s) (question s) (chatMessages s)
    (isGeneratingSummary s) (isAnswering s) (error s) (selectedFile s) v
    (isProcessingFile s) (clickedWord s) (wordDefinition s)
    (isLoadingDefinition s) (definitionPosition s).

Definition setIsProcessingFile (v : bool) (s : State) : State :=
  mkState (inputText s) (summary s) (question s) (chatMessages s)
    (isGeneratingSummary s) (isAnswering s) (error s) (selectedFile s)
    (isDragging s) v (clickedWord s) (wordDefinition s)
    (isLoadingDefinition s) (definitionPosition s).

Definition setClickedWord (v : option jsstring) (s : State) : State :=
  mkState (inputText s) (summary s) (question s) (chatMessages s)
    (isGeneratingSummary s) (isAnswering s) (error s) (selectedFile s)
    (isDragging s) (isProcessingFile s) v (wordDefinition s)
    (isLoadingDefinition s) (definitionPosition s).

Definition setWordDefinition (v : jsstring) (s : State) : State :=
  mkState (inputText s) (summary s) (question s) (chatMessages s)
    (isGeneratingSummary s) (isAnswering s) (error s) (selectedFile s)
    (isDragging s) (isProcessingFile s) (clickedWord s) v
    (isLoadingDefinition s) (definitionPosition s).

Definition setIsLoadingDefinition (v : bool) (s : State) : State :=
  mkState (inputText s) (summary s) (question s) (chatMessages s)
    (isGeneratingSummary s) (isAnswering s) (error s) (selectedFile s)
    (isDragging s) (isProcessingFile s) (clickedWord s) (wordDefinition s)
    v (definitionPosition s).

Definition setDefinitionPosition (v : Position) (s : State) : State :=
  mkState (inputText s) (summary s) (question s) (chatMessages s)
    (isGeneratingSummary s) (isAnswering s) (error s) (selectedFile s)
    (isDragging s) (isProcessingFile s) (clickedWord s) (wordDefinition s)
    (isLoadingDefinition s) v.

(** The asynchronous operations a handler can start: the three functions
    imported from [./gemini] and [FileReader.readAsText]. *)
Inductive Call :=
| generateSummary (text_ : option jsstring) (file : option File.t)
    (mimeType : option jsstring)
| answerQuestion (summary_ : jsstring) (question_ : jsstring)
| getWordDefinition (word : jsstring)
| readAsText (file : File.t).

(** How an operation settles: the promise resolves with a string
    ([reader.onload] with the content), or it rejects with an error whose
    [message] is given ([reader.onerror]). *)
Inductive Outcome :=
| resolved (value : jsstring)
| rejected (message : jsstring).

(** A handler is a sequence of state updates that may end in one awaited
    call, after which it goes on with the outcome.  A handler reads the
    state only through the variables of the render it was created in;
    after an [await] it only writes. *)
Inductive Async :=
| done
| set_state (f : State -> State) (k : Async)
| date_now (k : Z -> Async)
| await (c : Call) (k : Outcome -> Async).

(** The component between two events: the current state, the calls not yet
    settled with what each does next, and the log of all calls made, each
    with the state as updated up to the call. *)
Record World := {
  state : State;
  pending : list (Call * (Outcome -> Async));
  calls : list (Call * State)
}.

Definition boot : World :=
  {| state := initial; pending := []; calls := [] |}.

(** Run a handler until it returns or awaits; [now] is the clock. *)
Fixpoint run (now : Z) (a : Async) (w : World) : World :=
  match a with
  | done => w
  | set_state f k =>
      run now k {| state := f (state w); pending := pending w; calls := calls w |}
  | date_now k => run now (k now) w
  | await c k =>
      {| state := state w;
         pending := pending w ++ [(c, k)];
         calls := calls w ++ [(c, state w)] |}
  end.

Fixpoint remove_nth {A : Type} (i : nat) (l : list A) : list A :=
  match i, l with
  | _, [] => []
  | 0, _ :: l' => l'
  | S i', a :: l' => a :: remove_nth i' l'
  end.

Definition includes (l : list jsstring) (v : jsstring) : bool :=
  existsb (fun e => eqb e v) l.

(** What each handler does once its call has settled: the rest of the
    [try] block, or the [catch] block, and then the [finally] block.  None
    of them reads a variable of the handler. *)

(** [handleGenerateSummary] after [await generateSummary(...)] *)
Definition afterSummary (o : Outcome) : Async :=
  match o with
  | resolved result =>
      set_state (setSummary result)
      (set_state (setIsGeneratingSummary false) done)
  | rejected message =>
      set_state
        (setError
           (or_else message
              (str "Failed to generate summary. Please check your API key.")))
      (set_state (setIsGeneratingSummary false) done)
  end.

(** [handleAskQuestion] after [await answerQuestion(summary, userQuestion)] *)
Definition afterAnswer (o : Outcome) : Async :=
  match o with
  | resolved result =>
      date_now (fun t =>
      set_state
        (setChatMessages (fun prev =>
           prev ++ [{| ChatMessage.type := ChatMessage.assistant;
                       ChatMessage.content := result;
                       ChatMessage.id := t + 1 |}]))
      (set_state (setIsAnswering false) done))
  | rejected message =>
      set_state
        (setError
           (or_else message
              (str "Failed to answer question. Please check your API key.")))
      (date_now (fun t =>
      set_state
        (setChatMessages (fun prev =>
           prev ++ [{| ChatMessage.type := ChatMessage.assistant;
                       ChatMessage.content :=
                         str "Sorry, I encountered an error. Please try again.";
                       ChatMessage.id := t + 1 |}]))
      (set_state (setIsAnswering false) done)))
  end.

(** [reader.onload] and [reader.onerror] of [handleFileSelect] *)
Definition afterRead (o : Outcome) : Async :=
  match o with
  | resolved content_ =>
      set_state (setInputText content_)
      (set_state (setIsProcessingFile false) done)
  | rejected _ =>
      set_state (setError (str "Failed to read file. Please try again."))
      (set_state (setIsProcessingFile false) done)
  end.

(** [handleWordClick] after [await getWordDefinition(word)] *)
Definition afterDefinition (o : Outcome) : Async :=
  match o with
  | resolved definition =>
      set_state (setWordDefinition definition)
      (set_state (setIsLoadingDefinition false) done)
  | rejected _ =>
      set_state
        (setWordDefinition (str "Failed to load definition. Please try again."))
      (set_state (setIsLoadingDefinition false) done)
  end.

(** The continuation each kind of call is awaited with. *)
Definition expected (c : Call) : Outcome -> Async :=
  match c with
  | generateSummary _ _ _ => afterSummary
  | answerQuestion _ _ => afterAnswer
  | getWordDefinition _ => afterDefinition
  | readAsText _ => afterRead
  end.

(** Every outstanding call resumes in the handler that made it. *)
Definition consistent (l : list (Call * (Outcome -> Async))) : Prop :=
  Forall (fun p => snd p = expected (fst p)) l.

(** A program whose awaits all resume as [expected]. *)
Inductive tidy : Async -> Prop :=
| tidy_done : tidy done
| tidy_set (f : State -> State) (k : Async) : tidy k -> tidy (set_state f k)
| tidy_now (k : Z -> Async) : (forall t, tidy (k t)) -> tidy (date_now k)
| tidy_await (c : Call) : tidy (await c (expected c)).

(** The fixed texts of the two failure paths. *)
Definition definitionFailed : jsstring :=
  str "Failed to load definition. Please try again.".

Definition answerFailed : jsstring :=
  str "Sorry, I encountered an error. Please try again.".

Section Handlers.

(** [String.prototype.toLowerCase], left open. *)
Variable toLowerCase : jsstring -> jsstring.

(** The test written out in [handleGenerateSummary], in [handleFileSelect]
    and in the [disabled] attribute of the button. *)
Definition isPDFFile (f : File.t) : bool :=
  eqb (File.type f) (str "application/pdf")
  || endsWith (toLowerCase (File.name f)) (str ".pdf").

(** [selectedFile && (...)], as a truth value. *)
Definition isPDF (s : State) : bool :=
  match selectedFile s with
  | Some f => isPDFFile f
  | None => false
  end.

Definition handleGenerateSummary (s : State) : Async :=
  if negb (truthy (trim (inputText s))) && negb (isPDF s) then
    set_state
      (setError (str "Please enter some text or upload a file to summarize."))
      done
  else
    set_state (setIsGeneratingSummary true)
    (set_state (setError [])
    (set_state (setSummary [])
    (set_state (setChatMessages (fun _ => []))
    (await
       (if isPDF s
        then generateSummary None (selectedFile s) (Some (str "application/pdf"))
        else generateSummary (Some (inputText s)) None None)
       afterSummary)))).

Definition handleAskQuestion (s : State) : Async :=
  if negb (truthy (trim (question s))) then
    set_state (setError (str "Please enter a question.")) done
  else if negb (truthy (summary s)) then
    set_state (setError (str "Please generate a summary first.")) done
  else
    let userQuestion := trim (question s) in
    date_now (fun t =>
    set_state
      (setChatMessages (fun prev =>
         prev ++ [{| ChatMessage.type := ChatMessage.user;
                     ChatMessage.content := userQuestion;
                     ChatMessage.id := t |}]))
    (set_state (setQuestion [])
    (set_state (setIsAnswering true)
    (set_state (setError [])
    (await (answerQuestion (summary s) userQuestion) afterAnswer))))).

Definition validTypes : list jsstring :=
  [str "text/plain"; str "text/markdown"; str "text/html";
   str "application/json"; str "text/csv"; str "application/pdf"].

Definition validExtensions : list jsstring :=
  [str ".txt"; str ".md"; str ".json"; str ".csv"; str ".html"; str ".pdf"].

(** The file is accepted by the type and extension check. *)
Definition accepted (f : File.t) : bool :=
  includes validTypes (File.type f)
  || existsb (fun ext => endsWith (toLowerCase (File.name f)) ext)
       validExtensions.

(** [handleFileSelect]; the [catch] around the reader is left out, since
    neither [new FileReader()] nor [readAsText] throws on a [File]. *)
Definition handleFileSelect (file : option File.t) (s : State) : Async :=
  match file with
  | None => done
  | Some f =>
      if negb (accepted f) then
        set_state
          (setError
             (str "Please select a text file (.txt, .md, .json, .csv, .html) or PDF file (.pdf) or paste your text directly."))
          done
      else
        set_state (setSelectedFile (Some f))
        (set_state (setError [])
        (set_state (setInputText [])
        (set_state (setIsProcessingFile true)
        (if isPDFFile f then
           set_state (setIsProcessingFile false) done
         else
           await (readAsText f) afterRead))))
  end.

Definition handleClearFile (s : State) : Async :=
  set_state (setSelectedFile None) (set_state (setInputText []) done).

(** [clickedWord === word] *)
Definition same_word (c : option jsstring) (word : jsstring) : bool :=
  match c with
  | Some w => eqb w word
  | None => false
  end.

(** [{ x: rect.left + rect.width / 2, y: rect.top - 10 }] *)
Definition anchor (rect : Rect) : Position :=
  {| x := left rect + width rect / 2; y := top rect - 10 |}.

Definition handleWordClick (word : jsstring) (rect : Rect) (s : State) : Async :=
  set_state (setDefinitionPosition (anchor rect))
  (if same_word (clickedWord s) word && truthy (wordDefinition s) then
     set_state (setClickedWord None) (set_state (setWordDefinition []) done)
   else
     set_state (setClickedWord (Some word))
     (set_state (setWordDefinition [])
     (set_state (setIsLoadingDefinition true)
     (await (getWordDefinition word) afterDefinition)))).

Definition closeDefinition (s : State) : Async :=
  set_state (setClickedWord None) (set_state (setWordDefinition []) done).

(** [handleClickOutside] of the effect, for a click outside the popup and
    outside every complex word.  The test [clickedWord && ...] is one of
    truthiness: the empty word closes nothing (and the effect registers no
    listener for it). *)
Definition handleClickOutside (s : State) : Async :=
  match clickedWord s with
  | Some w =>
      if truthy w then
        set_state (setClickedWord None) (set_state (setWordDefinition []) done)
      else done
  | None => done
  end.

(** What can happen to the component. *)
Inductive Event :=
| GenerateSummaryClick                    (* onClick={handleGenerateSummary} *)
| AskClick                                (* onClick={handleAskQuestion} *)
| TextareaChange (value : jsstring)       (* setInputText(e.target.value) *)
| QuestionChange (value : jsstring)       (* setQuestion(e.target.value) *)
| FileSelect (file : option File.t)       (* handleFileSelect(file) *)
| ClearFileClick                          (* onClick={handleClearFile} *)
| WordClick (word : jsstring) (rect : Rect)
| CloseDefinitionClick
| OutsideClick
| DragOver
| DragLeave
| Settle (i : nat) (o : Outcome).         (* the [i]-th outstanding call settles *)

Definition handler (e : Event) (s : State) : Async :=
  match e with
  | GenerateSummaryClick => handleGenerateSummary s
  | AskClick => handleAskQuestion s
  | TextareaChange v => set_state (setInputText v) done
  | QuestionChange v => set_state (setQuestion v) done
  | FileSelect f => handleFileSelect f s
  | ClearFileClick => handleClearFile s
  | WordClick w r => handleWordClick w r s
  | CloseDefinitionClick => closeDefinition s
  | OutsideClick => handleClickOutside s
  | DragOver => set_state (setIsDragging true) done
  | DragLeave => set_state (setIsDragging false) done
  | Settle _ _ => done
  end.

(** One event at clock reading [now].  A user event runs the handler of
    the current render; [Settle i o] resumes the [i]-th outstanding call. *)
Definition step (now : Z) (e : Event) (w : World) : World :=
  match e with
  | Settle i o =>
      match nth_error (pending w) i with
      | Some (_, k) =>
          run now (k o)
            {| state := state w;
               pending := remove_nth i (pending w);
               calls := calls w |}
      | None => w
      end
  | _ => run now (handler e (state w)) w
  end.

(** A sequence of events, each with its clock reading. *)
Definition steps (es : list (Z * Event)) (w : World) : World :=
  fold_left (fun w te => step (fst te) (snd te) w) es w.

(** The worlds the component can be in. *)
Inductive reachable : World -> Prop :=
| reachable_boot : reachable boot
| reachable_step (now : Z) (e : Event) (w : World) :
    reachable w -> reachable (step now e w).

End Handlers.

(** Lower-casing of the letters A to Z, which is [toLowerCase] on strings
    of ASCII characters. *)
Definition asciiLower (s : jsstring) : jsstring :=
  map (fun c => if (N.leb 65 c && N.leb c 90)%N then (c + 32)%N else c) s.

(** A PDF and a text file, and the words of the examples. *)
Definition paper_pdf : File.t :=
  {| File.name := str "paper.pdf"; File.type := str "application/pdf" |}.

Definition notes_txt : File.t :=
  {| File.name := str "notes.txt"; File.type := str "text/plain" |}.

Definition span_rect : Rect := {| left := 100; top := 50; width := 40 |}.

(** A PDF is selected, then text is typed into the textarea. *)
Definition text_and_pdf : World :=
  steps asciiLower
    [(1%Z, FileSelect (Some paper_pdf)); (2%Z, TextareaChange (str "abc"))]
    boot.

(** Term [alpha] is clicked, then term [beta] while the first lookup is
    outstanding. *)
Definition two_lookups : World :=
  steps asciiLower
    [(1%Z, WordClick (str "alpha") span_rect);
     (2%Z, WordClick (str "beta") span_rect)]
    boot.

(** A summary is there and a question is typed. *)
Definition ready_to_ask : World :=
  steps asciiLower
    [(1%Z, TextareaChange (str "Photosynthesis is complex."));
     (2%Z, GenerateSummaryClick);
     (3%Z, Settle 0 (resolved (str "Plants use [COMPLEX:photosynthesis] to make food.")));
     (4%Z, QuestionChange (str " What is it? "))]
    boot.

End Session.

(* ------------------------------------------------------------------ *)
(** ** Shapes of parser results *)

Module Shapes.
Import JS Markup Blocks.

(** The first character of the opening literal: [*] for bold, [[] for
    complex words. *)
Definition re_first (re : Regex) : char := hd 0%N (re_open re).

(** A list of parts in which every text part is non-empty, holds no first
    character of the opening literal and is followed by a match if by
    anything, and every match holds a non-empty group without the excluded
    character. *)
Fixpoint canonical (re : Regex) (special : PartType) (parts : list Part)
  : Prop :=
  match parts with
  | [] => True
  | p :: rest =>
      ((type p = text /\ content p <> [] /\ ~ In (re_first re) (content p)
        /\ match rest with
           | [] => True
           | q :: _ => type q = special
           end)
       \/ (type p = special /\ content p <> []
           /\ ~ In (re_excluded re) (content p)))
      /\ canonical re special rest
  end.

(** The part of [scan] after the loop. *)
Definition finish (text_ : jsstring) (r : list Part * nat) : list Part :=
  let parts' :=
    if snd r <? length text_
    then fst r ++ [{| type := text; content := substring_from text_ (snd r) |}]
    else fst r in
  if 0 <? length parts' then parts'
  else [{| type := text; content := text_ |}].

(** A list block has an item, a paragraph has a visible character. *)
Definition well_formed_block (b : Block) : Prop :=
  match b with
  | paragraph c => is_blank c = false
  | list_block items => items <> []
  end.

(** The rendered block shows the block: the spans of a paragraph, written
    back with their markers, are its content, and so are the spans of each
    item of a list. *)
Definition rendered_as (b : Block) (r : RenderedBlock) : Prop :=
  match b, r with
  | paragraph c, RParagraph spans => unparse_spans spans = c
  | list_block items, RList rendered =>
      Forall2 (fun item spans => unparse_spans spans = item) items rendered
  | _, _ => False
  end.

(** The spans of a rendered block. *)
Definition spans_of (r : RenderedBlock) : list InlineSpan :=
  match r with
  | RParagraph spans => spans
  | RList items => concat items
  end.

(** The lines a block holds: the lines of a paragraph, the items of a
    list. *)
Definition lines_of (b : Block) : list jsstring :=
  match b with
  | paragraph c => split_lines c
  | list_block items => items
  end.

(** What is kept of the lines, in order: of a bullet line its trimmed item;
    of any other line the line itself, unless it is blank and no paragraph
    is open ([open] says whether one is). *)
Fixpoint kept (open : bool) (lines : list jsstring) : list jsstring :=
  match lines with
  | [] => []
  | l :: rest =>
      if is_bullet l then bullet_item l :: kept false rest
      else if is_blank l && negb open then kept false rest
      else l :: kept true rest
  end.

(** The items of a list block have no white space at either end. *)
Definition items_trimmed (b : Block) : Prop :=
  match b with
  | paragraph _ => True
  | list_block items => Forall (fun item => trim item = item) items
  end.

(** A line without line feed. *)
Definition no_LF (l : jsstring) : Prop := ~ In LF l.

(** What the loop holds at a moment, in order. *)
Definition held (a : Acc) : list jsstring :=
  flat_map lines_of (result a) ++ currentList a ++ currentParagraph a.







Definition CR : char := 13%N.

(** The text of the bullet-grouping example with lines ending in CR LF. *)
Definition bullet_example_crlf : jsstring :=
  str "para one" ++ [CR; LF] ++ str "- item A" ++ [CR; LF] ++ str "- item B"
  ++ [CR; LF] ++ str "paras two".

End Shapes.

(* ------------------------------------------------------------------ *)
(** ** The client module: [callGeminiAPI] and the three exported functions *)

Module Gemini.
Import JS.

(** The value of [errorData.error?.message] as [||] and [new Error] see
    it: falsy ([undefined], [null], [false], [0], the empty string; also
    when the body is no JSON, or JSON without the field), or truthy, with
    the string [new Error] converts it to.  A string is truthy when it is
    not empty and converts to itself; an array is truthy and may convert to
    the empty string. *)
Inductive Field :=
| falsy
| truthy_value (as_string : jsstring).

(** What [fetch] and the reading of the response come to.  A body that is
    the JSON value [null] makes the property access on it throw a
    [TypeError], whose message the engine words.  The field [text] of the
    first part of the first candidate is taken to be a string when it is
    there, as the [@returns {Promise<string>}] of the function has it. *)
Inductive Fetched :=
| network_error (message : jsstring)
    (* [fetch] rejects *)
| not_ok (status : N) (errorMessage : Field)
    (* [!response.ok]; [errorData.error?.message] *)
| not_ok_null (message : jsstring)
    (* [!response.ok] and the body is [null]: [errorData.error] throws *)
| ok_unreadable (message : jsstring)
    (* [response.json()] rejects *)
| ok_null (message : jsstring)
    (* the body is [null]: [data.candidates] throws *)
| ok_json (text_ : option jsstring).
    (* [data.candidates?.[0]?.content?.parts?.[0]?.text] *)

(** What the outside answers to one call: whether [fileToBase64] resolves
    (it rejects with the event of the reader, which has no [message]), and
    what the request comes to. *)
Record Reply := { encoded : bool; fetched : Fetched }.

(** A call returns a string or throws a value whose [message] is a string
    or [undefined]. *)
Inductive Completion :=
| returned (value : jsstring)
| thrown (message : option jsstring).

(** [{ contents: [{ parts }] }]: the prompt and, before it, the inline data
    of a file with its MIME type. *)
Record Request := {
  prompt : jsstring;
  inline_data : option (jsstring * File.t)
}.

(** [file && mimeType] *)
Definition with_file (file : option File.t) (mimeType : option jsstring)
  : option (jsstring * File.t) :=
  match file, mimeType with
  | Some f, Some m => if truthy m then Some (m, f) else None
  | _, _ => None
  end.

(** The number of a template literal, in decimal. *)
Definition decimal (n : N) : jsstring :=
  str (NilZero.string_of_uint (N.to_uint n)).

(** The body sent by [callGeminiAPI]. *)
Definition request (prompt_ : jsstring) (file : option File.t)
    (mimeType : option jsstring) : Request :=
  {| prompt := prompt_; inline_data := with_file file mimeType |}.

Definition callGeminiAPI (prompt_ : jsstring) (file : option File.t)
    (mimeType : option jsstring) (r : Reply) : Completion :=
  match with_file file mimeType, encoded r with
  | Some _, false => thrown None
  | _, _ =>
      match fetched r with
      | network_error message => thrown (Some message)
      | not_ok status errorMessage =>
          thrown
            (Some
               (match errorMessage with
                | truthy_value as_string => as_string
                | falsy =>
                    str "API request failed with status " ++ decimal status
                end))
      | not_ok_null message => thrown (Some message)
      | ok_unreadable message => thrown (Some message)
      | ok_null message => thrown (Some message)
      | ok_json text_ =>
          let generatedText :=
            or_else (match text_ with Some t => t | None => [] end) [] in
          if negb (truthy generatedText)
          then thrown (Some (str "No text generated in the API response"))
          else returned generatedText
      end
  end.

(** [error.message || fallback] in the [catch] blocks. *)
Definition message_or (message : option jsstring) (fallback : jsstring)
  : jsstring :=
  match message with
  | Some m => or_else m fallback
  | None => fallback
  end.

(** The [catch] of each exported function throws a new error. *)
Definition rethrow (c : Completion) (fallback : jsstring) : Session.Outcome :=
  match c with
  | returned value => Session.resolved value
  | thrown message => Session.rejected (message_or message fallback)
  end.

Definition QUOTE : char := 34%N.

Definition markInstruction : jsstring :=
  str "For any complicated or technical words that might be difficult for readers, mark them with the format [COMPLEX:word] where "
  ++ [QUOTE] ++ str "word" ++ [QUOTE] ++ str " is the complicated word.".

Definition documentPrompt : jsstring :=
  str "Summarize the following document in simple English. Make sure to keep the summary clear and easy to understand."
  ++ [LF; LF] ++ markInstruction ++ [LF; LF] ++ str "Summary:".

Definition textPrompt (text_ : jsstring) : jsstring :=
  str "Summarize the following text in simple English. Make sure to keep the summary clear and easy to understand."
  ++ [LF; LF] ++ markInstruction ++ [LF; LF] ++ str "Text:" ++ [LF] ++ text_
  ++ [LF; LF] ++ str "Summary:".

(** The prompt of [generateSummary], or none when it throws before any
    request. *)
Definition summaryPrompt (text_ : option jsstring) (file : option File.t)
    (mimeType : option jsstring) : option jsstring :=
  match with_file file mimeType with
  | Some _ => Some documentPrompt
  | None =>
      match text_ with
      | Some t => if truthy t then Some (textPrompt t) else None
      | None => None
      end
  end.

Definition generateSummary (text_ : option jsstring) (file : option File.t)
    (mimeType : option jsstring) (r : Reply) : Session.Outcome :=
  rethrow
    (match summaryPrompt text_ file mimeType with
     | Some p => callGeminiAPI p file mimeType r
     | None => thrown (Some (str "Either text or file must be provided"))
     end)
    (str "Failed to generate summary. Please check your API key and try again.").

Definition definitionPrompt (word : jsstring) : jsstring :=
  str "Provide a clear, simple definition for the word " ++ [QUOTE] ++ word
  ++ [QUOTE]
  ++ str ". Explain what it means in easy-to-understand language. Keep it concise (1-2 sentences)."
  ++ [LF; LF] ++ str "Definition:".

Definition getWordDefinition (word : jsstring) (r : Reply) : Session.Outcome :=
  rethrow (callGeminiAPI (definitionPrompt word) None None r)
    (str "Failed to get word definition. Please try again.").

Definition answerPrompt (summary_ question_ : jsstring) : jsstring :=
  str "Based on the following summary, answer the user's question clearly and concisely."
  ++ [LF; LF] ++ str "Summary:" ++ [LF] ++ summary_ ++ [LF; LF]
  ++ str "User's Question: " ++ question_ ++ [LF; LF] ++ str "Answer:".

Definition answerQuestion (summary_ question_ : jsstring) (r : Reply)
  : Session.Outcome :=
  rethrow (callGeminiAPI (answerPrompt summary_ question_) None None r)
    (str "Failed to answer question. Please check your API key and try again.").

(** What the promise awaited by the component settles to; reading a file
    is no call of this module. *)
Definition outcome (c : Session.Call) (r : Reply) : option Session.Outcome :=
  match c with
  | Session.generateSummary t f m => Some (generateSummary t f m r)
  | Session.answerQuestion s q => Some (answerQuestion s q r)
  | Session.getWordDefinition w => Some (getWordDefinition w r)
  | Session.readAsText _ => None
  end.

(** The body [callGeminiAPI] passes to [fetch], if it comes to [fetch]:
    with a file to attach it does not when [fileToBase64] rejects. *)
Definition fetch_body (prompt_ : jsstring) (file : option File.t)
    (mimeType : option jsstring) (r : Reply) : option Request :=
  match with_file file mimeType, encoded r with
  | Some _, false => None
  | _, _ => Some (request prompt_ file mimeType)
  end.

(** The request a call of the component sends, if it sends one. *)
Definition sent (c : Session.Call) (r : Reply) : option Request :=
  match c with
  | Session.generateSummary t f m =>
      match summaryPrompt t f m with
      | Some p => fetch_body p f m r
      | None => None
      end
  | Session.answerQuestion s q => fetch_body (answerPrompt s q) None None r
  | Session.getWordDefinition w => fetch_body (definitionPrompt w) None None r
  | Session.readAsText _ => None
  end.

End Gemini.

(* ------------------------------------------------------------------ *)
(** ** What the page offers: the [disabled] attributes and the sections
    rendered only on a condition *)

Module Gating.
Import JS Session.

Section Gates.
Variable toLowerCase : jsstring -> jsstring.

(** [disabled] of the "Generate Summary" button *)
Definition generateDisabled (s : State) : bool :=
  isGeneratingSummary s
  || (negb (truthy (trim (inputText s))) && negb (isPDF toLowerCase s)).

(** [disabled] of the ask button, and the test of the Enter key *)
Definition askDisabled (s : State) : bool :=
  isAnswering s || negb (truthy (trim (question s))).

(** [{summary && (...)}]: the summary with its popup, and the chat *)
Definition summaryVisible (s : State) : bool := truthy (summary s).

Definition is_some {A : Type} (o : option A) : bool :=
  match o with Some _ => true | None => false end.

(** Whether the page lets the user cause the event.  A word can be clicked
    only inside a rendered summary. *)
Definition offered (e : Event) (s : State) : bool :=
  match e with
  | GenerateSummaryClick => negb (generateDisabled s)
  | AskClick => summaryVisible s && negb (askDisabled s)
  | QuestionChange _ => summaryVisible s
  | ClearFileClick => is_some (selectedFile s) && negb (isProcessingFile s)
  | WordClick _ _ => summaryVisible s
  | CloseDefinitionClick => summaryVisible s && is_some (clickedWord s)
  | _ => true
  end.

(** The calls the handlers make: a summarize call carries either a PDF,
    declared as [application/pdf], and no text, or a non-blank text and no
    file; an ask call carries a non-empty summary and a non-empty
    question without surrounding white space. *)
Definition call_shape (c : Call) : Prop :=
  match c with
  | generateSummary t f m =>
      (exists file,
         t = None /\ f = Some file /\ isPDFFile toLowerCase file = true
         /\ m = Some (str "application/pdf"))
      \/ (exists text_,
            t = Some text_ /\ truthy (trim text_) = true /\ f = None
            /\ m = None)
  | answerQuestion summary_ question_ =>
      truthy summary_ = true /\ truthy question_ = true
      /\ trim question_ = question_
  | _ => True
  end.

(** The worlds reached through the page. *)
Inductive ui_reachable : World -> Prop :=
| ui_boot : ui_reachable boot
| ui_step (now : Z) (e : Event) (w : World) :
    ui_reachable w -> offered e (state w) = true ->
    ui_reachable (step toLowerCase now e w).

End Gates.

Definition is_summarize (p : Call * (Outcome -> Async)) : bool :=
  match fst p with generateSummary _ _ _ => true | _ => false end.

Definition is_ask (p : Call * (Outcome -> Async)) : bool :=
  match fst p with answerQuestion _ _ => true | _ => false end.

(** The number of outstanding calls of a kind. *)
Definition outstanding (kind : Call * (Outcome -> Async) -> bool) (w : World)
  : nat :=
  length (filter kind (pending w)).

(** Every await a program can reach before it returns is a call that
    satisfies [P]. *)
Inductive awaits (P : Call -> Prop) : Async -> Prop :=
| awaits_done : awaits P done
| awaits_set (f : State -> State) (k : Async) :
    awaits P k -> awaits P (set_state f k)
| awaits_now (k : Z -> Async) :
    (forall t, awaits P (k t)) -> awaits P (date_now k)
| awaits_await (c : Call) (k : Outcome -> Async) :
    P c -> awaits P (await c k).

(** [b] is [a] with at most one element added at the end. *)
Definition grows_by_one {A : Type} (a b : list A) : Prop :=
  b = a \/ exists x, b = a ++ [x].

(** Sample worlds: a summary being generated from typed text, a question
    being answered, a text file being read, a word being looked up; and
    sample replies of the service. *)
Definition summarizing : World :=
  step asciiLower 2 GenerateSummaryClick
    (step asciiLower 1 (TextareaChange (str "Photosynthesis is complex.")) boot).

Definition answering : World := step asciiLower 5 AskClick ready_to_ask.

Definition reading : World :=
  step asciiLower 1 (FileSelect (Some notes_txt)) boot.

Definition looking_up : World :=
  step asciiLower 1 (WordClick (str "alpha") span_rect) boot.

Definition summarizing_pdf : World :=
  step asciiLower 3 GenerateSummaryClick text_and_pdf.

Definition quota_reply : Gemini.Reply :=
  {| Gemini.encoded := true;
     Gemini.fetched :=
       Gemini.not_ok 429 (Gemini.truthy_value (str "Quota exceeded")) |}.

Definition empty_reply : Gemini.Reply :=
  {| Gemini.encoded := true; Gemini.fetched := Gemini.ok_json (Some []) |}.

Definition null_reply : Gemini.Reply :=
  {| Gemini.encoded := true;
     Gemini.fetched :=
       Gemini.ok_null
         (str "Cannot read properties of null (reading 'candidates')") |}.

Definition unencoded_reply : Gemini.Reply :=
  {| Gemini.encoded := false; Gemini.fetched := Gemini.ok_json None |}.

(** A question is asked, "Generate Summary" is clicked while the answer
    is outstanding, and then the answer fails. *)
Definition question_lost : World :=
  steps asciiLower
    [(5%Z, AskClick);
     (6%Z, GenerateSummaryClick);
     (7%Z, Settle 0 (rejected (str "HTTP 500")))]
    ready_to_ask.


(** A world with the definition of a word shown in the popup. *)
Definition definition_shown : World :=
  step asciiLower 2 (Settle 0 (resolved (str "The first letter.")))
    (step asciiLower 1 (WordClick (str "alpha") span_rect) boot).

End Gating.

(* ------------------------------------------------------------------ *)
(** ** Facts about the string primitives *)

Module JSFacts.
Import JS.

Lemma char_eqb_eq (a b : char) : char_eqb a b = true <-> a = b.
Proof. apply N.eqb_eq. Qed.

Lemma char_eqb_refl (a : char) : char_eqb a a = true.
Proof. apply N.eqb_refl. Qed.

Lemma eqb_eq (a b : jsstring) : eqb a b = true <-> a = b.
Proof.
  revert b; induction a as [|x a IH]; intros [|y b]; simpl;
    try (split; [discriminate | discriminate]); try tauto.
  rewrite andb_true_iff, char_eqb_eq, IH. split.
  - intros [-> ->]; reflexivity.
  - intros E; injection E; auto.
Qed.

Lemma startsWith_split (p s : jsstring) :
  startsWith p s = true -> s = p ++ skipn (length p) s.
Proof.
  revert s; induction p as [|x p IH]; intros s H; simpl in *.
  - reflexivity.
  - destruct s as [|y s]; [discriminate|].
    apply andb_true_iff in H as [Hxy Hp].
    apply char_eqb_eq in Hxy; subst y.
    simpl. f_equal. now apply IH.
Qed.

Lemma startsWith_app (p s : jsstring) : startsWith p (p ++ s) = true.
Proof.
  induction p as [|x p IH]; simpl; [reflexivity|].
  now rewrite char_eqb_refl, IH.
Qed.

Lemma takeWhile_length (p : char -> bool) (s : jsstring) :
  length (takeWhile p s) <= length s.
Proof.
  induction s as [|c s IH]; simpl; [lia|].
  destruct (p c); simpl; lia.
Qed.

Lemma takeWhile_dropWhile (p : char -> bool) (s : jsstring) :
  takeWhile p s ++ dropWhile p s = s.
Proof.
  induction s as [|c s IH]; simpl; [reflexivity|].
  destruct (p c); simpl; [now rewrite IH | reflexivity].
Qed.

Lemma substring_le (s : jsstring) (a b : nat) :
  a <= b -> substring s a b = firstn (b - a) (skipn a s).
Proof.
  intros H. unfold substring.
  rewrite Nat.min_l, Nat.max_r by lia. reflexivity.
Qed.

End JSFacts.

(* ------------------------------------------------------------------ *)
(** ** Facts about matching and scanning *)

Module MarkupFacts.
Import JS JSFacts Markup.

Section Matching.
Variable re : Regex.

Lemma backtrack_spec (k : nat) (s : jsstring) (j : nat) :
  backtrack re k s = Some j ->
  1 <= j <= k /\ startsWith (re_close re) (skipn j s) = true.
Proof.
  induction k as [|k IH]; [discriminate|].
  cbn [backtrack].
  destruct (startsWith (re_close re) (skipn (S k) s)) eqn:E.
  - intros [= <-]. split; [lia | exact E].
  - intros H. destruct (IH H) as [Hj Hs]. split; [lia | exact Hs].
Qed.

Lemma match_here_spec (s g : jsstring) (len : nat) :
  match_here re s = Some (g, len) ->
  s = re_open re ++ g ++ re_close re ++ skipn len s
  /\ len = length (re_open re) + length g + length (re_close re)
  /\ 1 <= length g.
Proof.
  unfold match_here.
  destruct (startsWith (re_open re) s) eqn:Ho; [|discriminate].
  set (body := skipn (length (re_open re)) s).
  set (run := takeWhile _ body).
  destruct (backtrack re (length run) body) as [k|] eqn:Hb; [|discriminate].
  intros [= <- <-].
  apply backtrack_spec in Hb as [Hk Hc].
  assert (Hrun : length run <= length body) by apply takeWhile_length.
  assert (Hlen : length (firstn k body) = k)
    by (rewrite length_firstn; lia).
  rewrite Hlen. repeat split; try lia.
  apply startsWith_split in Ho. apply startsWith_split in Hc.
  rewrite Ho at 1. f_equal. fold body.
  rewrite <- (firstn_skipn k body) at 1. f_equal.
  rewrite Hc at 1. f_equal.
  unfold body. rewrite !skipn_skipn. f_equal. lia.
Qed.

Lemma search_spec (s : jsstring) (i : nat) (m : Match) :
  search re s i = Some m ->
  exists pre,
    m_index m = i + length pre
    /\ s = pre ++ re_open re ++ m_group m ++ re_close re
             ++ skipn (length pre + m_length m) s
    /\ m_length m = length (re_open re) + length (m_group m)
                    + length (re_close re)
    /\ 1 <= length (m_group m).
Proof.
  revert i; induction s as [|c s IH]; intros i; simpl.
  - destruct (match_here re []) as [[g len]|] eqn:E; [|discriminate].
    intros [= <-]; simpl. exists []. simpl.
    apply match_here_spec in E as (E1 & E2 & E3).
    repeat split; try lia; assumption.
  - destruct (match_here re (c :: s)) as [[g len]|] eqn:E.
    + intros [= <-]; simpl. exists []. simpl.
      apply match_here_spec in E as (E1 & E2 & E3).
      repeat split; try lia; assumption.
    + intros H. destruct (IH _ H) as (pre & H1 & H2 & H3 & H4).
      exists (c :: pre). simpl. repeat split; try lia.
      f_equal. exact H2.
Qed.

Lemma search_none_here (s : jsstring) (i : nat) :
  search re s i = None -> match_here re s = None.
Proof.
  destruct s; simpl; destruct (match_here re _) as [[g len]|];
    intros; try discriminate; reflexivity.
Qed.

(** What a successful [exec] says about the subject. *)
Lemma exec_spec (text_ : jsstring) (lastIndex : nat) (m : Match) :
  exec re text_ lastIndex = Some m ->
  lastIndex <= m_index m
  /\ m_index m + m_length m <= length text_
  /\ 1 <= length (m_group m)
  /\ m_length m = length (re_open re) + length (m_group m)
                  + length (re_close re)
  /\ skipn lastIndex text_ =
       substring text_ lastIndex (m_index m)
       ++ re_open re ++ m_group m ++ re_close re
       ++ skipn (m_index m + m_length m) text_.
Proof.
  unfold exec. destruct (length text_ <? lastIndex) eqn:L; [discriminate|].
  apply Nat.ltb_ge in L. intros H.
  apply search_spec in H as (pre & H1 & H2 & H3 & H4).
  assert (Hlen : length (skipn lastIndex text_) = length text_ - lastIndex)
    by apply length_skipn.
  assert (Hlen2 : length pre + m_length m <= length text_ - lastIndex).
  { rewrite <- Hlen. rewrite H2 at 1. rewrite !length_app. lia. }
  assert (Hpre : substring text_ lastIndex (m_index m) = pre).
  { rewrite substring_le by lia.
    replace (m_index m - lastIndex) with (length pre) by lia.
    rewrite H2. rewrite firstn_app, firstn_all, Nat.sub_diag. simpl.
    apply app_nil_r. }
  repeat split; try lia.
  rewrite Hpre. rewrite H2 at 1. do 4 f_equal.
  rewrite skipn_skipn. f_equal. lia.
Qed.

Lemma takeWhile_firstn (p : char -> bool) (s : jsstring) (k : nat) :
  k <= length (takeWhile p s) -> Forall (fun c => p c = true) (firstn k s).
Proof.
  revert k; induction s as [|c s IH]; intros k; simpl.
  - rewrite firstn_nil. constructor.
  - destruct k as [|k]; [constructor|].
    destruct (p c) eqn:E; simpl; [|lia].
    intros H. constructor; [exact E | apply IH; lia].
Qed.

(** The captured group is made of characters outside the class. *)
Lemma match_here_group (s g : jsstring) (len : nat) :
  match_here re s = Some (g, len) -> ~ In (re_excluded re) g.
Proof.
  unfold match_here.
  destruct (startsWith (re_open re) s); [|discriminate].
  set (body := skipn (length (re_open re)) s).
  destruct (backtrack re _ body) as [k|] eqn:Hb; [|discriminate].
  intros [= <- _] Hin.
  apply backtrack_spec in Hb as [Hk _].
  assert (F := takeWhile_firstn
                 (fun c => negb (char_eqb c (re_excluded re))) body k
                 (proj2 Hk)).
  rewrite Forall_forall in F. specialize (F _ Hin). simpl in F.
  now rewrite char_eqb_refl in F.
Qed.

Lemma search_group (s : jsstring) (i : nat) (m : Match) :
  search re s i = Some m -> ~ In (re_excluded re) (m_group m).
Proof.
  revert i; induction s as [|c s IH]; intros i; cbn [search];
    destruct (match_here re _) as [[g len]|] eqn:E;
    try discriminate;
    try (intros [= <-]; simpl; now apply match_here_group in E).
  apply IH.
Qed.

Lemma exec_group (text_ : jsstring) (lastIndex : nat) (m : Match) :
  exec re text_ lastIndex = Some m -> ~ In (re_excluded re) (m_group m).
Proof.
  unfold exec. destruct (length text_ <? lastIndex); [discriminate|].
  apply search_group.
Qed.

End Matching.

Section Scanning.
Variable re : Regex.
Variable special : PartType.
Hypothesis special_markers : forall g,
  unparse_part {| type := special; content := g |}
  = re_open re ++ g ++ re_close re.
Variable text_ : jsstring.

Lemma unparse_app (a b : list Part) : unparse (a ++ b) = unparse a ++ unparse b.
Proof. apply flat_map_app. Qed.

Lemma unparse_text (t : jsstring) :
  unparse [{| type := text; content := t |}] = t.
Proof. unfold unparse; simpl. apply app_nil_r. Qed.

Lemma scan_loop_spec (fuel : nat) :
  forall lastIndex parts,
    scanned text_ parts lastIndex ->
    length text_ - lastIndex <= fuel ->
    exists parts' lastIndex',
      scan_loop re special fuel text_ lastIndex parts = Some (parts', lastIndex')
      /\ scanned text_ parts' lastIndex'.
Proof.
  induction fuel as [|fuel IH]; intros li parts [Hinv Hli] Hfuel; simpl.
  - destruct (exec re text_ li) as [m|] eqn:E.
    + apply exec_spec in E as (E1 & E2 & E3 & E4 & _). lia.
    + exists parts, li. repeat split; assumption.
  - destruct (exec re text_ li) as [m|] eqn:E.
    + apply exec_spec in E as (E1 & E2 & E3 & E4 & E5).
      apply IH; [|lia]. split; [|lia].
      rewrite unparse_app. unfold unparse at 2. simpl flat_map.
      rewrite special_markers, app_nil_r.
      etransitivity; [|exact Hinv]. rewrite E5.
      destruct (li <? m_index m) eqn:L.
      * rewrite unparse_app, unparse_text. now rewrite <- !app_assoc.
      * apply Nat.ltb_ge in L. assert (m_index m = li) by lia.
        rewrite substring_le by lia. replace (m_index m - li) with 0 by lia.
        simpl. now rewrite <- !app_assoc.
    + exists parts, li. repeat split; assumption.
Qed.

(** The scanner returns with the fuel it is given, and its result written
    back with the markers is the subject. *)
Lemma scan_unparse :
  exists parts, scan re special text_ = Some parts /\ unparse parts = text_.
Proof.
  unfold scan.
  destruct (scan_loop_spec (length text_) 0 []) as (parts & li & E & Hinv & Hli).
  - split; [reflexivity | lia].
  - lia.
  - rewrite E. eexists; split; [reflexivity|].
    destruct (li <? length text_) eqn:L.
    + rewrite length_app. simpl length.
      replace (0 <? length parts + 1) with true
        by (symmetry; apply Nat.ltb_lt; lia).
      rewrite unparse_app, unparse_text. exact Hinv.
    + apply Nat.ltb_ge in L.
      destruct (0 <? length parts) eqn:P.
      * etransitivity; [|exact Hinv].
        rewrite skipn_all2 by lia. now rewrite app_nil_r.
      * apply unparse_text.
Qed.

Lemma scan_loop_types (fuel : nat) :
  forall lastIndex parts parts' lastIndex',
    Forall (plain_or_special re special) parts ->
    scan_loop re special fuel text_ lastIndex parts = Some (parts', lastIndex') ->
    Forall (plain_or_special re special) parts'.
Proof.
  induction fuel as [|fuel IH]; intros li parts parts' li' Hall; simpl;
    destruct (exec re text_ li) as [m|] eqn:E; try discriminate;
    try (intros [= <- <-]; exact Hall).
  apply IH. apply Forall_app; split.
  - destruct (li <? m_index m); [|exact Hall].
    apply Forall_app; split; [exact Hall|].
    constructor; [now left | constructor].
  - constructor; [|constructor]. right. simpl.
    pose proof (exec_group _ _ _ _ E) as G.
    apply exec_spec in E as (_ & _ & E3 & _).
    repeat split; [|exact G].
    destruct (m_group m); [simpl in E3; lia | discriminate].
Qed.

Lemma scan_types (parts : list Part) :
  scan re special text_ = Some parts -> Forall (plain_or_special re special) parts.
Proof.
  unfold scan.
  destruct (scan_loop re special (length text_) text_ 0 []) as [[ps li]|] eqn:E;
    [|discriminate].
  apply scan_loop_types in E; [|constructor].
  intros [= <-].
  destruct (0 <? length _).
  - destruct (li <? length text_); [|exact E].
    apply Forall_app; split; [exact E|].
    constructor; [now left | constructor].
  - constructor; [now left | constructor].
Qed.

(** With no match anywhere the scanner gives the subject back as a single
    text part, whatever the subject is. *)
Lemma scan_no_match :
  exec re text_ 0 = None ->
  scan re special text_ = Some [{| type := text; content := text_ |}].
Proof.
  intros H. unfold scan.
  assert (E : scan_loop re special (length text_) text_ 0 [] = Some ([], 0))
    by (destruct (length text_); simpl; rewrite H; reflexivity).
  rewrite E. destruct text_; reflexivity.
Qed.

End Scanning.

End MarkupFacts.

(* ------------------------------------------------------------------ *)
(** ** Properties of the markup parser *)

Module MarkupProps.
Import JS JSFacts Markup MarkupFacts Blocks.

Lemma bold_markers (g : jsstring) :
  unparse_part {| type := bold; content := g |}
  = re_open boldRegex ++ g ++ re_close boldRegex.
Proof. reflexivity. Qed.

Lemma complex_markers (g : jsstring) :
  unparse_part {| type := complex; content := g |}
  = re_open complexWordRegex ++ g ++ re_close complexWordRegex.
Proof. reflexivity. Qed.

(** A subject in which the opening literal never occurs has no match. *)
Lemma search_without_star (s : jsstring) (i : nat) :
  ~ In 42%N s -> search boldRegex s i = None.
Proof.
  assert (Hhere : forall s', ~ In 42%N s' -> match_here boldRegex s' = None).
  { intros s' H. destruct (match_here boldRegex s') as [[g len]|] eqn:E;
      [|reflexivity].
    apply match_here_spec in E as (E & _). exfalso. apply H.
    rewrite E. now left. }
  revert i; induction s as [|c s IH]; intros i H; cbn [search];
    rewrite (Hhere _ H); [reflexivity|].
  apply IH. intros Hin. apply H. now right.
Qed.

Lemma exec_without_star (input : jsstring) :
  ~ In 42%N input -> exec boldRegex input 0 = None.
Proof.
  intros H. unfold exec. simpl. now apply search_without_star.
Qed.

Lemma traverse_total {A B : Type} (f : A -> option B) (l : list A) :
  (forall a, In a l -> exists b, f a = Some b) ->
  exists bs, traverse f l = Some bs.
Proof.
  induction l as [|a l IH]; intros H; simpl; [now eexists|].
  destruct (H a (or_introl eq_refl)) as [b ->].
  destruct IH as [bs ->]; [intros; apply H; now right|].
  now eexists.
Qed.

Lemma strips_to_app (a a' b b' : jsstring) :
  strips_to a a' -> strips_to b b' -> strips_to (a ++ b) (a' ++ b').
Proof.
  intros Ha Hb. induction Ha as [|t s s' _ IH|g s s' Hg Hn _ IH|g s s' Hg Hn _ IH].
  - exact Hb.
  - rewrite <- !app_assoc. now constructor.
  - replace ((str "**" ++ g ++ str "**" ++ s) ++ b)
      with (str "**" ++ g ++ str "**" ++ (s ++ b))
      by (now rewrite <- !app_assoc).
    rewrite <- app_assoc. now constructor.
  - replace ((str "[COMPLEX:" ++ g ++ str "]" ++ s) ++ b)
      with (str "[COMPLEX:" ++ g ++ str "]" ++ (s ++ b))
      by (now rewrite <- !app_assoc).
    rewrite <- app_assoc. now constructor.
Qed.


Lemma renderTextWithMarkdown_unparse (input : jsstring) :
  exists spans,
    renderTextWithMarkdown input = Some spans
    /\ unparse_spans spans = input
    /\ Forall well_formed_span spans.
Proof.
  destruct (scan_unparse boldRegex bold bold_markers input) as (parts & E & U).
  pose proof (scan_types boldRegex bold input parts E) as T.
  unfold renderTextWithMarkdown, parseMarkdownBold. rewrite E. simpl.
  eexists; split; [reflexivity|].
  rewrite <- U. clear E U.
  unfold unparse_spans, unparse.
  induction T as [|p parts [Hp|(Hp & Hne & Hin)] _ [IH1 IH2]];
    [split; [reflexivity|constructor]| |];
    simpl; rewrite IH1; unfold unparse_part; rewrite Hp;
    (split; [reflexivity|]); constructor; simpl; auto.
Qed.

Lemma renderSegments_unparse (input : jsstring) :
  exists spans,
    renderSegments input = Some spans
    /\ unparse_spans spans = input
    /\ Forall well_formed_span spans.
Proof.
  destruct (scan_unparse complexWordRegex complex complex_markers input)
    as (parts & E & U).
  pose proof (scan_types complexWordRegex complex input parts E) as T.
  unfold renderSegments, parseComplexWords. rewrite E.
  rewrite <- U. clear E U.
  induction T as [|p parts Hp _ (spans & IH1 & IH2 & IH3)]; cbn [traverse].
  - exists []. repeat split. constructor.
  - destruct (traverse _ parts) as [rest|] eqn:Er; [|discriminate].
    simpl in IH1. injection IH1 as <-.
    cbn [unparse flat_map]. fold (unparse parts). rewrite <- IH2.
    unfold unparse_part. destruct Hp as [Hp|(Hp & Hne & Hin)]; rewrite Hp.
    + destruct (renderTextWithMarkdown_unparse (content p))
        as (sp & -> & U & W).
      simpl. eexists; split; [reflexivity|]. split.
      * unfold unparse_spans in *. now rewrite flat_map_app, U.
      * apply Forall_app; split; assumption.
    + simpl. eexists; split; [reflexivity|]. split; [reflexivity|].
      constructor; [|exact IH3]. simpl. auto.
Qed.

(** The scanners on the sample inputs. *)
Example bold_balance :
  parseMarkdownBold (str "a **b** c")
  = Some [{| type := text; content := str "a " |};
          {| type := bold; content := str "b" |};
          {| type := text; content := str " c" |}].
Proof. reflexivity. Qed.

Example complex_term_extraction :
  renderSegments (str "The [COMPLEX:mitochondria] is vital.")
  = Some [Plain (str "The "); ComplexTerm (str "mitochondria");
          Plain (str " is vital.")].
Proof. reflexivity. Qed.

Example one_paragraph_three_spans :
  renderSummary (str "Plants use [COMPLEX:photosynthesis] to make food.")
  = Some [RParagraph
            [Plain (str "Plants use "); ComplexTerm (str "photosynthesis");
             Plain (str " to make food.")]].
Proof. reflexivity. Qed.

(** The empty input does not give an empty sequence: the bold scanner has
    no markup to find in the empty string and still returns one text part,
    with empty content, through its fallback
    [parts.length > 0 ? parts : [...]]. *)
Lemma parseMarkdownBold_empty_input :
  exec boldRegex (str "") 0 = None
  /\ parseMarkdownBold (str "")
     = Some [{| type := text; content := str "" |}]
  /\ parseMarkdownBold (str "") <> Some [].
Proof.
  repeat split; try reflexivity. discriminate.
Qed.

(** C2, amended: for every input in which the scanner finds no bold marker,
    the empty input included, [parseMarkdownBold] returns exactly one text
    part, and its content is the input.  Nothing is rendered for an empty
    summary only because [renderSummary] returns before it parses. *)
Theorem parseMarkdownBold_no_markup :
  (forall input : jsstring,
     exec boldRegex input 0 = None ->
     parseMarkdownBold input = Some [{| type := text; content := input |}])
  /\ renderSummary (str "") = Some [].
Proof.
  split; [|reflexivity].
  intros input H. unfold parseMarkdownBold.
  now apply scan_no_match.
Qed.

Lemma parseMarkdownBold_no_markup_witness :
  exec boldRegex (str "plain words") 0 = None
  /\ parseMarkdownBold (str "plain words")
     = Some [{| type := text; content := str "plain words" |}].
Proof.
  split; [reflexivity|].
  apply (proj1 parseMarkdownBold_no_markup (str "plain words")). reflexivity.
Defined.

End MarkupProps.

(* ------------------------------------------------------------------ *)
(** ** Properties of the block parser *)

Module BlocksProps.
Import JS JSFacts Blocks.

Lemma run_lines_snoc (pre : list jsstring) (line : jsstring) :
  run_lines (pre ++ [line]) = loop_body (run_lines pre) line.
Proof. unfold run_lines. now rewrite fold_left_app. Qed.

Lemma since_last_bullet_snoc (pre : list jsstring) (line : jsstring) :
  since_last_bullet (pre ++ [line])
  = if is_bullet line then [] else since_last_bullet pre ++ [line].
Proof.
  unfold since_last_bullet. rewrite rev_unit. cbn [take_while].
  destruct (is_bullet line); reflexivity.
Qed.

Lemma drop_while_snoc {A : Type} (p : A -> bool) (l : list A) (a : A) :
  drop_while p (l ++ [a])
  = match drop_while p l with
    | [] => if p a then [] else [a]
    | _ :: _ => drop_while p l ++ [a]
    end.
Proof.
  induction l as [|b l IH]; simpl; [reflexivity|].
  destruct (p b); [exact IH | reflexivity].
Qed.

Lemma drop_while_nil {A : Type} (p : A -> bool) (l : list A) :
  drop_while p l = [] <-> forallb p l = true.
Proof.
  induction l as [|b l IH]; simpl; [tauto|].
  destruct (p b); simpl; [exact IH|]. split; discriminate.
Qed.

Lemma length_pos {A : Type} (l : list A) :
  (0 <? length l) = match l with [] => false | _ :: _ => true end.
Proof. destruct l; reflexivity. Qed.

(** The open paragraph holds the raw lines since the last bullet line,
    without the blank ones they begin with. *)
Lemma currentParagraph_run (pre : list jsstring) :
  currentParagraph (run_lines pre) = drop_while is_blank (since_last_bullet pre).
Proof.
  induction pre as [|line pre IH] using rev_ind; [reflexivity|].
  rewrite run_lines_snoc, since_last_bullet_snoc.
  unfold loop_body, is_bullet.
  destruct (bulletMatch line) as [item|].
  - cbn [currentParagraph]. unfold flushParagraph. rewrite length_pos.
    destruct (currentParagraph (run_lines pre)) eqn:E; [now rewrite E|].
    reflexivity.
  - assert (Hp : currentParagraph (flushList (run_lines pre))
                 = currentParagraph (run_lines pre))
      by (unfold flushList; destruct (0 <? length _); reflexivity).
    rewrite drop_while_snoc, Hp, length_pos, <- IH.
    unfold is_blank.
    destruct (truthy (trim line)), (currentParagraph (run_lines pre));
      cbn; rewrite ?Hp; reflexivity.
Qed.

(** No paragraph is open exactly when every line since the last bullet
    line is blank. *)
Lemma no_paragraph_open (pre : list jsstring) :
  forallb is_blank (since_last_bullet pre)
  = match currentParagraph (run_lines pre) with [] => true | _ :: _ => false end.
Proof.
  pose proof (drop_while_nil is_blank (since_last_bullet pre)) as H.
  rewrite <- currentParagraph_run in H.
  destruct (currentParagraph (run_lines pre)).
  - now apply H.
  - destruct (forallb _ _); [|reflexivity].
    destruct H as [_ H]. now specialize (H eq_refl).
Qed.

Lemma flushList_fields (a : Acc) :
  currentList (flushList a) = []
  /\ currentParagraph (flushList a) = currentParagraph a
  /\ result (flushList a)
     = result a ++ match currentList a with
                   | [] => []
                   | _ :: _ => [list_block (currentList a)]
                   end.
Proof.
  unfold flushList. rewrite length_pos.
  destruct (currentList a) eqn:E; cbn; rewrite ?E, ?app_nil_r; auto.
Qed.

Lemma flushParagraph_fields (a : Acc) :
  currentParagraph (flushParagraph a) = []
  /\ currentList (flushParagraph a) = currentList a
  /\ result (flushParagraph a)
     = result a ++ match currentParagraph a with
                   | [] => []
                   | _ :: _ => [paragraph (join_lines (currentParagraph a))]
                   end.
Proof.
  unfold flushParagraph. rewrite length_pos.
  destruct (currentParagraph a) eqn:E; cbn; rewrite ?E, ?app_nil_r; auto.
Qed.

(** Blank lines are dropped elsewhere than at the very start: the second
    line of ["- a\n\nfoo"] is no bullet line, content has been accumulated
    before it, and still it is not added to a paragraph. *)
Lemma blank_line_after_list_dropped :
  ~ (forall pre line post,
       split_lines list_then_blank = pre ++ line :: post ->
       bulletMatch line = None ->
       currentParagraph (run_lines (pre ++ [line]))
       = currentParagraph (run_lines pre) ++ [line]
       \/ (is_blank line = true /\ run_lines pre = start)).
Proof.
  intros H.
  destruct (H [str "- a"] (str "") [str "foo"] eq_refl eq_refl)
    as [C | [_ C]]; vm_compute in C; discriminate.
Qed.

(** C5, amended: the open paragraph holds the raw lines, blank ones
    included, that follow the last bullet line, without the blank lines
    they begin with.  A line that is no bullet line closes the open list;
    it is dropped when it is blank and no paragraph is open, that is, when
    every line since the last bullet line (or since the start) is blank,
    and it is added to the paragraph otherwise.  A bullet line closes the
    open paragraph, and so does the end of the input. *)
Theorem line_handling :
  (forall (pre : list jsstring) (line : jsstring),
     currentParagraph (run_lines pre)
     = drop_while is_blank (since_last_bullet pre)
     /\ match bulletMatch line with
        | None =>
            currentList (run_lines (pre ++ [line])) = []
            /\ result (run_lines (pre ++ [line]))
               = result (run_lines pre)
                 ++ match currentList (run_lines pre) with
                    | [] => []
                    | _ :: _ => [list_block (currentList (run_lines pre))]
                    end
            /\ currentParagraph (run_lines (pre ++ [line]))
               = if is_blank line && forallb is_blank (since_last_bullet pre)
                 then []
                 else currentParagraph (run_lines pre) ++ [line]
        | Some item =>
            currentParagraph (run_lines (pre ++ [line])) = []
            /\ result (run_lines (pre ++ [line]))
               = result (run_lines pre)
                 ++ match currentParagraph (run_lines pre) with
                    | [] => []
                    | _ :: _ =>
                        [paragraph (join_lines (currentParagraph (run_lines pre)))]
                    end
            /\ currentList (run_lines (pre ++ [line]))
               = currentList (run_lines pre) ++ [trim item]
        end)
  /\ (forall text_ : jsstring,
        parseMarkdownLists text_
        = match
            result (run_lines (split_lines text_))
            ++ match currentParagraph (run_lines (split_lines text_)) with
               | [] => []
               | _ :: _ =>
                   [paragraph
                      (join_lines
                         (drop_while is_blank
                            (since_last_bullet (split_lines text_))))]
               end
            ++ match currentList (run_lines (split_lines text_)) with
               | [] => []
               | _ :: _ => [list_block (currentList (run_lines (split_lines text_)))]
               end
          with
          | [] => [paragraph text_]
          | b :: bs => b :: bs
          end).
Proof.
  split.
  - intros pre line. split; [apply currentParagraph_run|].
    rewrite run_lines_snoc. unfold loop_body.
    destruct (bulletMatch line) as [item|].
    + cbn [result currentList currentParagraph].
      destruct (flushParagraph_fields (run_lines pre)) as (P1 & P2 & P3).
      now rewrite P1, P2, P3.
    + destruct (flushList_fields (run_lines pre)) as (L1 & L2 & L3).
      rewrite no_paragraph_open, L2, length_pos. unfold is_blank.
      destruct (truthy (trim line)), (currentParagraph (run_lines pre)) eqn:E;
        cbn; rewrite ?L1, ?L2, ?L3, ?E; auto.
  - intros text_. unfold parseMarkdownLists.
    set (a := run_lines (split_lines text_)).
    rewrite <- currentParagraph_run. fold a.
    destruct (flushParagraph_fields a) as (P1 & P2 & P3).
    destruct (flushList_fields (flushParagraph a)) as (L1 & L2 & L3).
    rewrite length_pos, L3, P3, P2, <- app_assoc.
    destruct (result a ++ _ ++ _); reflexivity.
Qed.

Lemma bullets_fold (bullets : list jsstring) :
  forallb is_bullet bullets = true ->
  forall a : Acc,
    currentParagraph a = [] ->
    fold_left loop_body bullets a
    = {| result := result a;
         currentList := currentList a ++ map bullet_item bullets;
         currentParagraph := [] |}.
Proof.
  induction bullets as [|b bullets IH]; intros Hall a Hp.
  - simpl. rewrite app_nil_r. destruct a; simpl in *. now subst.
  - simpl in Hall. apply andb_true_iff in Hall as [Hb Hall].
    cbn [fold_left map]. rewrite IH; [|exact Hall|].
    + unfold loop_body, bullet_item, is_bullet in *.
      destruct (bulletMatch b) as [item|]; [|discriminate].
      cbn [result currentList]. unfold flushParagraph.
      rewrite Hp. cbn. now rewrite <- app_assoc.
    + unfold loop_body, is_bullet in *.
      destruct (bulletMatch b) as [item|]; [|discriminate].
      cbn [currentParagraph]. apply flushParagraph_fields.
Qed.

Lemma split_acc_not_nil (cur s : jsstring) : split_acc cur s <> [].
Proof.
  revert cur; induction s as [|c s IH]; intros cur; simpl; [discriminate|].
  destruct (char_eqb c LF); [discriminate | apply IH].
Qed.

Lemma dropWhile_spaces (ws rest : jsstring) :
  forallb isSpace ws = true -> dropWhile isSpace (ws ++ rest) = dropWhile isSpace rest.
Proof.
  induction ws as [|c ws IH]; simpl; [reflexivity|].
  intros H. apply andb_true_iff in H as [Hc H]. rewrite Hc. now apply IH.
Qed.

Lemma marker_not_space (m : char) : isBulletMarker m = true -> isSpace m = false.
Proof.
  unfold isBulletMarker. intros H.
  apply orb_true_iff in H as [H|H]; apply N.eqb_eq in H; subst; reflexivity.
Qed.

End BlocksProps.

(* ------------------------------------------------------------------ *)
(** ** Properties of the session *)

Module SessionProps.
Import JS JSFacts Session.

Lemma same_word_refl (w : jsstring) : same_word (Some w) w = true.
Proof. simpl. now apply eqb_eq. Qed.

Lemma same_word_other (a b : jsstring) : a <> b -> same_word (Some a) b = false.
Proof.
  intros H. simpl. destruct (eqb a b) eqn:E; [|reflexivity].
  apply eqb_eq in E. contradiction.
Qed.

Lemma nth_error_snoc {A : Type} (l : list A) (x : A) :
  nth_error (l ++ [x]) (length l) = Some x.
Proof.
  rewrite nth_error_app2 by lia. now rewrite Nat.sub_diag.
Qed.

Lemma remove_nth_snoc {A : Type} (l : list A) (x : A) :
  remove_nth (length l) (l ++ [x]) = l.
Proof.
  induction l as [|a l IH]; simpl; [reflexivity | now rewrite IH].
Qed.

Lemma remove_nth_Forall {A : Type} (P : A -> Prop) (i : nat) (l : list A) :
  Forall P l -> Forall P (remove_nth i l).
Proof.
  intros H; revert i; induction H as [|a l Ha Hl IH]; intros [|i]; simpl;
    try constructor; auto.
Qed.

Lemma run_consistent (now : Z) (a : Async) :
  tidy a -> forall w, consistent (pending w) -> consistent (pending (run now a w)).
Proof.
  induction 1 as [|f k _ IH|k _ IH|c]; intros w Hw; cbn [run].
  - exact Hw.
  - now apply IH.
  - now apply IH.
  - cbn [pending]. apply Forall_app; split; [exact Hw|].
    constructor; [reflexivity | constructor].
Qed.

Lemma expected_tidy (c : Call) (o : Outcome) : tidy (expected c o).
Proof.
  destruct c, o; cbn; repeat (constructor; intros).
Qed.

Section Props.
Variable toLowerCase : jsstring -> jsstring.

Lemma handler_tidy (e : Event) (s : State) : tidy (handler toLowerCase e s).
Proof.
  destruct e; cbn [handler];
    unfold handleGenerateSummary, handleAskQuestion, handleFileSelect,
      handleClearFile, handleWordClick, closeDefinition, handleClickOutside;
    repeat first
      [ exact tidy_done
      | exact (tidy_await _)
      | apply tidy_set
      | apply tidy_now; intros ?
      | match goal with
        | |- tidy (if ?b then _ else _) => destruct b
        | |- tidy (match ?x with _ => _ end) => destruct x
        | |- tidy (await (if ?b then _ else _) _) => destruct b
        end ].
Qed.

(** In every reachable world each outstanding call resumes in the handler
    that made it. *)
Lemma reachable_consistent (w : World) :
  reachable toLowerCase w -> consistent (pending w).
Proof.
  induction 1 as [|now e w _ IH]; [constructor|].
  assert (Hdefault : consistent (pending (run now (handler toLowerCase e (state w)) w)))
    by (apply run_consistent; [apply handler_tidy | exact IH]).
  destruct e; try exact Hdefault.
  cbn [step]. destruct (nth_error (pending w) i) as [[c k]|] eqn:E; [|exact IH].
  apply run_consistent.
  - unfold consistent in IH. rewrite Forall_forall in IH.
    apply nth_error_In in E. specialize (IH _ E). simpl in IH. subst k.
    apply expected_tidy.
  - cbn [pending]. now apply remove_nth_Forall.
Qed.

Lemma pending_continuation (w : World) (i : nat) (c : Call)
    (k : Outcome -> Async) :
  reachable toLowerCase w ->
  nth_error (pending w) i = Some (c, k) -> k = expected c.
Proof.
  intros R E. apply reachable_consistent in R.
  unfold consistent in R. rewrite Forall_forall in R.
  apply nth_error_In in E. exact (R _ E).
Qed.

(** *** The steps of the scenarios, computed *)

Lemma word_click_opens (now : Z) (w : World) (word : jsstring) (r : Rect) :
  same_word (clickedWord (state w)) word && truthy (wordDefinition (state w))
  = false ->
  step toLowerCase now (WordClick word r) w
  = {| state := setIsLoadingDefinition true
                  (setWordDefinition []
                     (setClickedWord (Some word)
                        (setDefinitionPosition (anchor r) (state w))));
       pending := pending w ++ [(getWordDefinition word, afterDefinition)];
       calls := calls w
                ++ [(getWordDefinition word,
                     setIsLoadingDefinition true
                       (setWordDefinition []
                          (setClickedWord (Some word)
                             (setDefinitionPosition (anchor r) (state w)))))] |}.
Proof.
  intros H. cbn [step handler]. unfold handleWordClick. rewrite H. reflexivity.
Qed.

Lemma word_click_closes (now : Z) (w : World) (word : jsstring) (r : Rect) :
  same_word (clickedWord (state w)) word && truthy (wordDefinition (state w))
  = true ->
  step toLowerCase now (WordClick word r) w
  = {| state := setWordDefinition []
                  (setClickedWord None
                     (setDefinitionPosition (anchor r) (state w)));
       pending := pending w;
       calls := calls w |}.
Proof.
  intros H. cbn [step handler]. unfold handleWordClick. rewrite H. reflexivity.
Qed.

Lemma settle_at (now : Z) (w : World) (i : nat) (c : Call)
    (k : Outcome -> Async) (o : Outcome) :
  nth_error (pending w) i = Some (c, k) ->
  step toLowerCase now (Settle i o) w
  = run now (k o)
      {| state := state w; pending := remove_nth i (pending w); calls := calls w |}.
Proof.
  intros H. cbn [step]. now rewrite H.
Qed.

(** C7: a term is clicked and its definition arrives; a second click on
    the same term closes the popup ([clickedWord] is [null] and the text is
    cleared) without a call; a third click opens it again for that term,
    with empty text, the loading flag set and a new lookup made. *)
Theorem definition_toggle (w0 : World) (word d : jsstring) (r1 r2 r3 : Rect)
    (t1 t2 t3 t4 : Z) :
  same_word (clickedWord (state w0)) word && truthy (wordDefinition (state w0))
  = false ->
  truthy d = true ->
  let w1 := step toLowerCase t1 (WordClick word r1) w0 in
  let w2 := step toLowerCase t2 (Settle (length (pending w0)) (resolved d)) w1 in
  let w3 := step toLowerCase t3 (WordClick word r2) w2 in
  let w4 := step toLowerCase t4 (WordClick word r3) w3 in
  (clickedWord (state w2) = Some word
   /\ wordDefinition (state w2) = d
   /\ isLoadingDefinition (state w2) = false)
  /\ (clickedWord (state w3) = None
      /\ wordDefinition (state w3) = []
      /\ pending w3 = pending w2
      /\ calls w3 = calls w2)
  /\ (clickedWord (state w4) = Some word
      /\ wordDefinition (state w4) = []
      /\ isLoadingDefinition (state w4) = true
      /\ pending w4 = pending w3 ++ [(getWordDefinition word, afterDefinition)]
      /\ calls w4 = calls w3 ++ [(getWordDefinition word, state w4)]).
Proof.
  intros H Hd w1 w2 w3 w4.
  assert (E1 := word_click_opens t1 w0 word r1 H). fold w1 in E1.
  assert (E2 : w2 = run t2 (afterDefinition (resolved d))
                      {| state := state w1; pending := pending w0;
                         calls := calls w1 |}).
  { unfold w2. rewrite (settle_at t2 w1 (length (pending w0))
                          (getWordDefinition word) afterDefinition).
    - rewrite E1. cbn [pending]. now rewrite remove_nth_snoc.
    - rewrite E1. cbn [pending]. apply nth_error_snoc. }
  cbn [afterDefinition run state pending calls] in E2.
  assert (S2 : clickedWord (state w2) = Some word
               /\ wordDefinition (state w2) = d
               /\ isLoadingDefinition (state w2) = false).
  { rewrite E2, E1. cbn. auto. }
  destruct S2 as (C2 & D2 & L2).
  assert (T2 : same_word (clickedWord (state w2)) word
               && truthy (wordDefinition (state w2)) = true)
    by (rewrite C2, D2, same_word_refl, Hd; reflexivity).
  assert (E3 := word_click_closes t3 w2 word r2 T2). fold w3 in E3.
  assert (T3 : same_word (clickedWord (state w3)) word
               && truthy (wordDefinition (state w3)) = false)
    by (rewrite E3; reflexivity).
  assert (E4 := word_click_opens t4 w3 word r3 T3). fold w4 in E4.
  split; [auto|]. split.
  - rewrite E3. cbn. auto.
  - rewrite E4. cbn. auto.
Qed.

(** C1, amended: term A is clicked, then another term B while the lookup
    for A is outstanding; when the result for A arrives nothing compares
    terms: the popup is still the one of B, and the text that arrived for A
    is stored as its definition and the loading flag is cleared, while the
    lookup for B is still outstanding. *)
Theorem stale_definition_stored (w0 : World) (termA termB dA : jsstring)
    (rA rB : Rect) (t1 t2 t3 : Z) :
  termA <> termB ->
  same_word (clickedWord (state w0)) termA && truthy (wordDefinition (state w0))
  = false ->
  let w1 := step toLowerCase t1 (WordClick termA rA) w0 in
  let w2 := step toLowerCase t2 (WordClick termB rB) w1 in
  let w3 := step toLowerCase t3 (Settle (length (pending w0)) (resolved dA)) w2 in
  (clickedWord (state w2) = Some termB
   /\ wordDefinition (state w2) = []
   /\ isLoadingDefinition (state w2) = true)
  /\ clickedWord (state w3) = Some termB
  /\ wordDefinition (state w3) = dA
  /\ isLoadingDefinition (state w3) = false
  /\ pending w3 = pending w0 ++ [(getWordDefinition termB, afterDefinition)].
Proof.
  intros Hne H w1 w2 w3.
  assert (E1 := word_click_opens t1 w0 termA rA H). fold w1 in E1.
  assert (T1 : same_word (clickedWord (state w1)) termB
               && truthy (wordDefinition (state w1)) = false)
    by (rewrite E1; cbn [state clickedWord setIsLoadingDefinition
          setWordDefinition setClickedWord]; now rewrite same_word_other).
  assert (E2 := word_click_opens t2 w1 termB rB T1). fold w2 in E2.
  assert (N : nth_error (pending w2) (length (pending w0))
              = Some (getWordDefinition termA, afterDefinition)).
  { rewrite E2, E1. cbn [pending].
    rewrite nth_error_app1 by (rewrite length_app; simpl; lia).
    apply nth_error_snoc. }
  assert (E3 := settle_at t3 w2 _ _ _ (resolved dA) N). fold w3 in E3.
  assert (R : remove_nth (length (pending w0)) (pending w2)
              = pending w0 ++ [(getWordDefinition termB, afterDefinition)]).
  { rewrite E2, E1. cbn [pending]. clear.
    induction (pending w0) as [|p l IH]; simpl; [reflexivity | now rewrite IH]. }
  rewrite R in E3. cbn [afterDefinition run state pending calls] in E3.
  split; [rewrite E2; cbn; auto|].
  rewrite E3, E2. cbn. auto.
Qed.

(** C10: when a lookup of a definition fails, in whatever reachable world,
    the text of the popup becomes the fixed message and the loading flag is
    cleared; every other cell of the state, the session error, the summary,
    the chat and the input among them, is as before, and no call is made. *)
Theorem failed_definition_frame (w : World) (i : nat) (word message : jsstring)
    (k : Outcome -> Async) (now : Z) :
  reachable toLowerCase w ->
  nth_error (pending w) i = Some (getWordDefinition word, k) ->
  state (step toLowerCase now (Settle i (rejected message)) w)
  = setIsLoadingDefinition false (setWordDefinition definitionFailed (state w))
  /\ wordDefinition (state (step toLowerCase now (Settle i (rejected message)) w))
     = str "Failed to load definition. Please try again."
  /\ isLoadingDefinition (state (step toLowerCase now (Settle i (rejected message)) w))
     = false
  /\ error (state (step toLowerCase now (Settle i (rejected message)) w))
     = error (state w)
  /\ summary (state (step toLowerCase now (Settle i (rejected message)) w))
     = summary (state w)
  /\ chatMessages (state (step toLowerCase now (Settle i (rejected message)) w))
     = chatMessages (state w)
  /\ inputText (state (step toLowerCase now (Settle i (rejected message)) w))
     = inputText (state w)
  /\ selectedFile (state (step toLowerCase now (Settle i (rejected message)) w))
     = selectedFile (state w)
  /\ clickedWord (state (step toLowerCase now (Settle i (rejected message)) w))
     = clickedWord (state w)
  /\ calls (step toLowerCase now (Settle i (rejected message)) w) = calls w.
Proof.
  intros R E.
  pose proof (pending_continuation w i _ k R E) as ->.
  rewrite (settle_at now w i _ _ (rejected message) E).
  cbn. repeat split; reflexivity.
Qed.

(** C4, amended: [handleGenerateSummary] starts when the text is not blank
    or a PDF is selected, both together included (the PDF is then what is
    sent).  It then sets the busy flag and clears the error, the summary
    and the chat, whatever the chat held, before the one call it makes.
    Otherwise it sets the error at once, changes nothing else and makes no
    call. *)
Theorem begin_summarize (w : World) (now : Z) :
  if truthy (trim (inputText (state w))) || isPDF toLowerCase (state w)
  then
    state (step toLowerCase now GenerateSummaryClick w)
    = setChatMessages (fun _ => [])
        (setSummary [] (setError [] (setIsGeneratingSummary true (state w))))
    /\ isGeneratingSummary (state (step toLowerCase now GenerateSummaryClick w))
       = true
    /\ summary (state (step toLowerCase now GenerateSummaryClick w)) = []
    /\ chatMessages (state (step toLowerCase now GenerateSummaryClick w)) = []
    /\ error (state (step toLowerCase now GenerateSummaryClick w)) = []
    /\ calls (step toLowerCase now GenerateSummaryClick w)
       = calls w
         ++ [(if isPDF toLowerCase (state w)
              then generateSummary None (selectedFile (state w))
                     (Some (str "application/pdf"))
              else generateSummary (Some (inputText (state w))) None None,
              state (step toLowerCase now GenerateSummaryClick w))]
    /\ length (pending (step toLowerCase now GenerateSummaryClick w))
       = S (length (pending w))
  else
    state (step toLowerCase now GenerateSummaryClick w)
    = setError (str "Please enter some text or upload a file to summarize.")
        (state w)
    /\ calls (step toLowerCase now GenerateSummaryClick w) = calls w
    /\ pending (step toLowerCase now GenerateSummaryClick w) = pending w.
Proof.
  cbn [step handler]. unfold handleGenerateSummary.
  destruct (truthy (trim (inputText (state w)))),
           (isPDF toLowerCase (state w));
    cbn; rewrite ?length_app; cbn; repeat split; try reflexivity; lia.
Qed.

(** C3, amended: selecting an accepted file makes it the selected file and
    empties the input text at once; a change of the textarea replaces the
    input text and leaves the selected file as it is. *)
Theorem input_sources (w : World) (now : Z) :
  (forall f : File.t,
     accepted toLowerCase f = true ->
     inputText (state (step toLowerCase now (FileSelect (Some f)) w)) = []
     /\ selectedFile (state (step toLowerCase now (FileSelect (Some f)) w))
        = Some f)
  /\ (forall value : jsstring,
        state (step toLowerCase now (TextareaChange value) w)
        = setInputText value (state w)
        /\ inputText (state (step toLowerCase now (TextareaChange value) w))
           = value
        /\ selectedFile (state (step toLowerCase now (TextareaChange value) w))
           = selectedFile (state w)).
Proof.
  split.
  - intros f Hf. cbn [step handler]. unfold handleFileSelect. rewrite Hf.
    cbn [negb]. destruct (isPDFFile toLowerCase f); cbn; auto.
  - intros value. cbn. auto.
Qed.

(** The content of a text file, once read, becomes the input text while the
    file stays selected. *)
Lemma text_file_loaded (w : World) (i : nat) (f : File.t) (content_ : jsstring)
    (k : Outcome -> Async) (now : Z) :
  reachable toLowerCase w ->
  nth_error (pending w) i = Some (readAsText f, k) ->
  inputText (state (step toLowerCase now (Settle i (resolved content_)) w))
  = content_
  /\ selectedFile (state (step toLowerCase now (Settle i (resolved content_)) w))
     = selectedFile (state w).
Proof.
  intros R E.
  pose proof (pending_continuation w i _ k R E) as ->.
  rewrite (settle_at now w i _ _ (resolved content_) E).
  cbn. auto.
Qed.

End Props.

(** *** The scenarios on concrete worlds *)

Lemma definition_toggle_witness :
  same_word (clickedWord (state boot)) (str "alpha")
  && truthy (wordDefinition (state boot)) = false
  /\ truthy (str "first letter") = true
  /\ clickedWord
       (state
          (steps asciiLower
             [(1%Z, WordClick (str "alpha") span_rect);
              (2%Z, Settle 0 (resolved (str "first letter")));
              (3%Z, WordClick (str "alpha") span_rect)]
             boot))
     = None.
Proof.
  split; [reflexivity|]. split; [reflexivity|].
  exact (proj1 (proj1 (proj2
    (definition_toggle asciiLower boot (str "alpha") (str "first letter")
       span_rect span_rect span_rect 1 2 3 4 eq_refl eq_refl)))).
Defined.

(** A stale result is not dropped: with the lookup for [alpha] outstanding
    and [beta] clicked after it, the arrival of the text for [alpha]
    changes the definition text of the popup. *)
Lemma stale_definition_not_discarded :
  ~ (wordDefinition
       (state (step asciiLower 3 (Settle 0 (resolved (str "first letter")))
                 two_lookups))
     = wordDefinition (state two_lookups)).
Proof.
  vm_compute. discriminate.
Qed.

Lemma stale_definition_stored_witness :
  str "alpha" <> str "beta"
  /\ same_word (clickedWord (state boot)) (str "alpha")
     && truthy (wordDefinition (state boot)) = false
  /\ clickedWord
       (state (step asciiLower 3 (Settle 0 (resolved (str "first letter")))
                 two_lookups))
     = Some (str "beta")
  /\ wordDefinition
       (state (step asciiLower 3 (Settle 0 (resolved (str "first letter")))
                 two_lookups))
     = str "first letter".
Proof.
  assert (N : str "alpha" <> str "beta") by discriminate.
  split; [exact N|]. split; [reflexivity|].
  pose proof (stale_definition_stored asciiLower boot (str "alpha") (str "beta")
                (str "first letter") span_rect span_rect 1 2 3 N eq_refl)
    as (_ & C & D & _).
  split; [exact C | exact D].
Defined.

Lemma failed_definition_frame_witness :
  reachable asciiLower two_lookups
  /\ nth_error (pending two_lookups) 1
     = Some (getWordDefinition (str "beta"), afterDefinition)
  /\ wordDefinition
       (state (step asciiLower 3 (Settle 1 (rejected (str "HTTP 500")))
                 two_lookups))
     = str "Failed to load definition. Please try again."
  /\ error
       (state (step asciiLower 3 (Settle 1 (rejected (str "HTTP 500")))
                 two_lookups))
     = error (state two_lookups).
Proof.
  assert (R : reachable asciiLower two_lookups)
    by (repeat apply reachable_step; apply reachable_boot).
  split; [exact R|]. split; [reflexivity|].
  pose proof (failed_definition_frame asciiLower two_lookups 1 (str "beta")
                (str "HTTP 500") afterDefinition 3 R eq_refl)
    as (_ & D & _ & E & _).
  split; [exact D | exact E].
Defined.

(** Typing does not clear the attachment: after a PDF is selected and text
    is typed, the file is still selected. *)
Lemma typing_keeps_attachment :
  ~ (selectedFile
       (state (step asciiLower 2 (TextareaChange (str "abc"))
                 (step asciiLower 1 (FileSelect (Some paper_pdf)) boot)))
     = None).
Proof.
  vm_compute. discriminate.
Qed.

Lemma input_sources_witness :
  accepted asciiLower paper_pdf = true
  /\ inputText
       (state (step asciiLower 2 (FileSelect (Some paper_pdf))
                 (step asciiLower 1 (TextareaChange (str "abc")) boot)))
     = []
  /\ selectedFile
       (state (step asciiLower 2 (FileSelect (Some paper_pdf))
                 (step asciiLower 1 (TextareaChange (str "abc")) boot)))
     = Some paper_pdf.
Proof.
  split; [reflexivity|].
  exact (proj1 (input_sources asciiLower
                  (step asciiLower 1 (TextareaChange (str "abc")) boot) 2)
           paper_pdf eq_refl).
Defined.

(** The precondition is not an exclusive disjunction: with text typed and
    a PDF selected, neither alone, the handler sets no error and makes its
    call. *)
Lemma summarize_with_text_and_pdf :
  ~ (xorb (truthy (trim (inputText (state text_and_pdf))))
          (match selectedFile (state text_and_pdf) with
           | Some _ => true
           | None => false
           end) = false ->
     calls (step asciiLower 3 GenerateSummaryClick text_and_pdf)
     = calls text_and_pdf
     /\ error (state (step asciiLower 3 GenerateSummaryClick text_and_pdf))
        <> []).
Proof.
  intros H. destruct (H eq_refl) as [C _].
  vm_compute in C. discriminate.
Qed.

End SessionProps.

(* ------------------------------------------------------------------ *)
(** ** More on the scanners: parsing what was written back *)

Module MarkupMore.
Import JS JSFacts Markup MarkupFacts Blocks Shapes.

Section Inverse.
Variable re : Regex.
Variable special : PartType.
Hypothesis special_markers : forall g,
  unparse_part {| type := special; content := g |}
  = re_open re ++ g ++ re_close re.
Hypothesis open_first : exists rest, re_open re = re_first re :: rest.
Hypothesis close_first : exists rest, re_close re = re_excluded re :: rest.

Lemma match_here_other (s : jsstring) :
  match s with [] => True | c :: _ => c <> re_first re end ->
  match_here re s = None.
Proof.
  destruct open_first as [orest Ho]. unfold match_here. rewrite Ho.
  destruct s as [|c s]; simpl; [reflexivity|].
  intros Hc. destruct (char_eqb (re_first re) c) eqn:E; [|reflexivity].
  apply char_eqb_eq in E. congruence.
Qed.

Lemma search_skip (t rest : jsstring) (i : nat) :
  ~ In (re_first re) t ->
  search re (t ++ rest) i = search re rest (i + length t).
Proof.
  revert i; induction t as [|c t IH]; intros i Hin; simpl app.
  - simpl. f_equal. lia.
  - cbn [search]. rewrite match_here_other.
    + rewrite IH by (intros H; apply Hin; now right).
      simpl. f_equal. lia.
    + intros ->. apply Hin. now left.
Qed.

Lemma search_end (i : nat) : search re [] i = None.
Proof. cbn [search]. now rewrite match_here_other. Qed.

Lemma takeWhile_stop (p : char -> bool) (g rest : jsstring) (c : char) :
  Forall (fun x => p x = true) g -> p c = false ->
  takeWhile p (g ++ c :: rest) = g.
Proof.
  induction 1 as [|x g Hx _ IH]; intros Hc; simpl.
  - now rewrite Hc.
  - rewrite Hx. f_equal. now apply IH.
Qed.

Lemma skipn_app_exact {A : Type} (a b : list A) : skipn (length a) (a ++ b) = b.
Proof. induction a; simpl; auto. Qed.

Lemma firstn_app_exact {A : Type} (a b : list A) : firstn (length a) (a ++ b) = a.
Proof. induction a; simpl; f_equal; auto. Qed.

Lemma match_here_marker (g tail : jsstring) :
  g <> [] -> ~ In (re_excluded re) g ->
  match_here re (re_open re ++ g ++ re_close re ++ tail)
  = Some (g, length (re_open re) + length g + length (re_close re)).
Proof.
  intros Hg Hin. destruct close_first as [crest Hc].
  unfold match_here. rewrite startsWith_app, skipn_app_exact.
  assert (Hrun : takeWhile (fun c => negb (char_eqb c (re_excluded re)))
                   (g ++ re_close re ++ tail) = g).
  { rewrite Hc. simpl app. apply takeWhile_stop.
    - rewrite Forall_forall. intros x Hx.
      destruct (char_eqb x (re_excluded re)) eqn:E; [|reflexivity].
      apply char_eqb_eq in E. subst x. contradiction.
    - now rewrite char_eqb_refl. }
  rewrite Hrun.
  destruct g as [|c g]; [congruence|].
  cbn [length backtrack].
  change (S (length g)) with (length (c :: g)).
  rewrite skipn_app_exact, startsWith_app, firstn_app_exact.
  reflexivity.
Qed.

Lemma search_here (s g : jsstring) (len i : nat) :
  match_here re s = Some (g, len) ->
  search re s i = Some {| m_index := i; m_group := g; m_length := len |}.
Proof.
  intros H. destruct s; cbn [search]; now rewrite H.
Qed.

(** [exec] from the end of [done_] over a text without opening character
    finds the marker that follows it. *)
Lemma exec_marker (done_ t g tail : jsstring) :
  ~ In (re_first re) t -> g <> [] -> ~ In (re_excluded re) g ->
  exec re (done_ ++ t ++ re_open re ++ g ++ re_close re ++ tail) (length done_)
  = Some {| m_index := length done_ + length t;
            m_group := g;
            m_length := length (re_open re) + length g + length (re_close re) |}.
Proof.
  intros Ht Hg Hin. unfold exec.
  replace (length _ <? length done_) with false
    by (symmetry; apply Nat.ltb_ge; rewrite length_app; lia).
  rewrite skipn_app_exact, search_skip by exact Ht.
  apply search_here. now apply match_here_marker.
Qed.

Lemma exec_no_marker (done_ t : jsstring) :
  ~ In (re_first re) t -> exec re (done_ ++ t) (length done_) = None.
Proof.
  intros Ht. unfold exec.
  replace (length _ <? length done_) with false
    by (symmetry; apply Nat.ltb_ge; rewrite length_app; lia).
  rewrite skipn_app_exact.
  rewrite <- (app_nil_r t), search_skip by exact Ht. apply search_end.
Qed.

Lemma exec_marker_here (done_ g tail : jsstring) :
  g <> [] -> ~ In (re_excluded re) g ->
  exec re (done_ ++ re_open re ++ g ++ re_close re ++ tail) (length done_)
  = Some {| m_index := length done_;
            m_group := g;
            m_length := length (re_open re) + length g + length (re_close re) |}.
Proof.
  intros Hg Hin.
  pose proof (exec_marker done_ [] g tail (fun H => H) Hg Hin) as E.
  simpl in E. now rewrite Nat.add_0_r in E.
Qed.

Lemma scan_loop_step (fuel : nat) (text_ : jsstring) (lastIndex : nat)
    (parts : list Part) (m : Match) :
  exec re text_ lastIndex = Some m ->
  scan_loop re special (S fuel) text_ lastIndex parts
  = scan_loop re special fuel text_ (m_index m + m_length m)
      ((if lastIndex <? m_index m
        then parts ++ [{| type := text;
                          content := substring text_ lastIndex (m_index m) |}]
        else parts)
       ++ [{| type := special; content := m_group m |}]).
Proof. intros H. cbn [scan_loop]. now rewrite H. Qed.

Lemma scan_loop_stop (fuel : nat) (text_ : jsstring) (lastIndex : nat)
    (parts : list Part) :
  exec re text_ lastIndex = None ->
  scan_loop re special fuel text_ lastIndex parts = Some (parts, lastIndex).
Proof. intros H. destruct fuel; cbn [scan_loop]; now rewrite H. Qed.

Lemma scan_finish (text_ : jsstring) :
  scan re special text_
  = option_map (finish text_)
      (scan_loop re special (length text_) text_ 0 []).
Proof.
  unfold scan, finish.
  destruct (scan_loop re special (length text_) text_ 0 []) as [[ps li]|];
    reflexivity.
Qed.

Lemma unparse_cons (p : Part) (rest : list Part) :
  unparse (p :: rest) = unparse_part p ++ unparse rest.
Proof. reflexivity. Qed.

Hypothesis special_not_text : special <> text.

Lemma scan_loop_canonical (rest : list Part) :
  forall (done_ : jsstring) (acc : list Part) (fuel : nat),
    canonical re special rest ->
    acc <> [] \/ rest <> [] ->
    length (unparse rest) <= fuel ->
    option_map (finish (done_ ++ unparse rest))
      (scan_loop re special fuel (done_ ++ unparse rest) (length done_) acc)
    = Some (acc ++ rest).
Proof.
  induction rest as [|p rest IH]; intros done_ acc fuel Hc Hne Hfuel.
  - cbn [unparse flat_map]. rewrite app_nil_r.
    rewrite scan_loop_stop
      by (rewrite <- (app_nil_r done_) at 1; now apply exec_no_marker).
    cbn [option_map]. unfold finish. cbn [fst snd].
    rewrite Nat.ltb_irrefl.
    destruct acc; [destruct Hne; congruence | cbn; now rewrite app_nil_r].
  - destruct Hc as [Hp Hrest]. rewrite unparse_cons in *.
    destruct p as [ty c]. cbn [type content] in Hp.
    destruct Hp as [(-> & Hcne & Hcin & Hnext) | (-> & Hcne & Hcin)].
    + (* a text part *)
      change (unparse_part {| type := text; content := c |}) with c in *.
      destruct rest as [|q rest'].
      * cbn [unparse flat_map]. rewrite app_nil_r.
        rewrite scan_loop_stop by now apply exec_no_marker.
        cbn [option_map]. unfold finish. cbn [fst snd].
        replace (length done_ <? length (done_ ++ c)) with true.
        2:{ symmetry. apply Nat.ltb_lt. rewrite length_app.
            destruct c; [congruence | simpl; lia]. }
        unfold substring_from. rewrite skipn_app_exact.
        destruct (acc ++ _) eqn:E; [|reflexivity].
        apply app_eq_nil in E as [_ E]. discriminate.
      * destruct q as [qt g]. cbn [type] in Hnext. subst qt.
        pose proof Hrest as Hrest0.
        destruct Hrest as [[(Hq & _)|(_ & Hg & Hgin)] _];
          [cbn in Hq; congruence|]. cbn [content] in Hg, Hgin.
        specialize (IH (done_ ++ c) (acc ++ [{| type := text; content := c |}])
                      fuel Hrest0).
        rewrite unparse_cons, special_markers in *.
        destruct fuel as [|fuel];
          [rewrite !length_app in Hfuel; destruct c; [congruence|simpl in Hfuel; lia]|].
        rewrite <- !app_assoc in *.
        rewrite (scan_loop_step _ _ _ _ _ (exec_marker done_ c g _ Hcin Hg Hgin)).
        pose proof (exec_marker_here (done_ ++ c) g (unparse rest') Hg Hgin) as E.
        rewrite <- (app_assoc done_ c) in E.
        rewrite (scan_loop_step _ _ _ _ _ E) in IH.
        cbn [m_index m_length m_group] in *.
        rewrite Nat.ltb_irrefl in IH.
        replace (length done_ <? length done_ + length c) with true.
        2:{ symmetry. apply Nat.ltb_lt. destruct c; [congruence | simpl; lia]. }
        assert (Hsub : substring
                         (done_ ++ c ++ re_open re ++ g ++ re_close re
                            ++ unparse rest')
                         (length done_) (length done_ + length c) = c).
        { rewrite substring_le by lia.
          replace (length done_ + length c - length done_) with (length c) by lia.
          now rewrite skipn_app_exact, firstn_app_exact. }
        rewrite Hsub.
        replace (length (done_ ++ c)) with (length done_ + length c) in IH
          by (now rewrite length_app).
        rewrite IH.
        -- first [reflexivity | now rewrite <- app_assoc].
        -- left. intros E'. apply app_eq_nil in E' as [_ E']. discriminate.
        -- rewrite !length_app in *. lia.
    + (* a match *)
      rewrite special_markers in *. rewrite <- !app_assoc in *.
      destruct fuel as [|fuel];
        [rewrite !length_app in Hfuel; destruct c; [congruence|simpl in Hfuel; lia]|].
      rewrite (scan_loop_step _ _ _ _ _
                 (exec_marker_here done_ c (unparse rest) Hcne Hcin)).
      cbn [m_index m_length m_group]. rewrite Nat.ltb_irrefl.
      specialize (IH (done_ ++ re_open re ++ c ++ re_close re)
                    (acc ++ [{| type := special; content := c |}]) fuel Hrest).
      rewrite <- !app_assoc in IH. rewrite !length_app in IH.
      replace (length done_
               + (length (re_open re) + length c + length (re_close re)))
        with (length done_
              + (length (re_open re) + (length c + length (re_close re))))
        by lia.
      rewrite IH.
      * first [reflexivity | now rewrite <- app_assoc].
      * left. intros E'. apply app_eq_nil in E' as [_ E']. discriminate.
      * rewrite !length_app in Hfuel. destruct c; [congruence|].
        simpl in Hfuel. lia.
Qed.

(** Parsing what a canonical list of parts was written to gives the list
    back. *)
Lemma scan_unparse_canonical (parts : list Part) :
  parts <> [] ->
  canonical re special parts ->
  scan re special (unparse parts) = Some parts.
Proof.
  intros Hne Hc. rewrite scan_finish.
  exact (scan_loop_canonical parts [] [] _ Hc (or_intror Hne) (Nat.le_refl _)).
Qed.

End Inverse.

Section Contents.
Variable re : Regex.
Variable special : PartType.
Variable text_ : jsstring.

Lemma scan_loop_contents (fuel : nat) :
  forall lastIndex parts parts' lastIndex',
    Forall (fun p => content p <> []) parts ->
    scan_loop re special fuel text_ lastIndex parts = Some (parts', lastIndex') ->
    Forall (fun p => content p <> []) parts'.
Proof.
  induction fuel as [|fuel IH]; intros li parts parts' li' Hall; simpl;
    destruct (exec re text_ li) as [m|] eqn:E; try discriminate;
    try (intros [= <- <-]; exact Hall).
  apply exec_spec in E as (E1 & E2 & E3 & E4 & _).
  apply IH. apply Forall_app; split.
  - destruct (li <? m_index m) eqn:L; [|exact Hall].
    apply Nat.ltb_lt in L.
    apply Forall_app; split; [exact Hall|].
    constructor; [|constructor]. cbn [content].
    rewrite substring_le by lia. intros H.
    apply (f_equal (@length _)) in H.
    rewrite length_firstn, length_skipn in H. simpl in H. lia.
  - constructor; [|constructor]. cbn [content].
    destruct (m_group m); [simpl in E3; lia | discriminate].
Qed.

Lemma scan_contents (parts : list Part) :
  scan re special text_ = Some parts ->
  parts <> []
  /\ (text_ <> [] -> Forall (fun p => content p <> []) parts).
Proof.
  unfold scan.
  destruct (scan_loop re special (length text_) text_ 0 []) as [[ps li]|] eqn:E;
    [|discriminate].
  apply scan_loop_contents in E; [|constructor].
  intros [= <-]. split.
  - destruct (0 <? length _) eqn:L; [|discriminate].
    intros H. rewrite H in L. discriminate.
  - intros Hne. destruct (0 <? length _).
    + destruct (li <? length text_) eqn:L; [|exact E].
      apply Nat.ltb_lt in L.
      apply Forall_app; split; [exact E|].
      constructor; [|constructor]. cbn [content]. unfold substring_from.
      intros H. apply (f_equal (@length _)) in H.
      rewrite length_skipn in H. simpl in H. lia.
    + constructor; [exact Hne | constructor].
Qed.

End Contents.

Lemma traverse_Forall2 {A B : Type} (R : A -> B -> Prop) (f : A -> option B)
    (l : list A) :
  (forall a, In a l -> exists b, f a = Some b /\ R a b) ->
  exists bs, traverse f l = Some bs /\ Forall2 R l bs.
Proof.
  induction l as [|a l IH]; intros H; cbn [traverse].
  - exists []. split; [reflexivity | constructor].
  - destruct (H a (or_introl eq_refl)) as (b & -> & Hb).
    destruct IH as (bs & -> & Hbs); [intros; apply H; now right|].
    exists (b :: bs). split; [reflexivity | now constructor].
Qed.

Lemma bold_open_first : exists rest, re_open boldRegex = re_first boldRegex :: rest.
Proof. now eexists. Qed.

Lemma bold_close_first :
  exists rest, re_close boldRegex = re_excluded boldRegex :: rest.
Proof. now eexists. Qed.

Lemma complex_open_first :
  exists rest, re_open complexWordRegex = re_first complexWordRegex :: rest.
Proof. now eexists. Qed.

Lemma complex_close_first :
  exists rest, re_close complexWordRegex = re_excluded complexWordRegex :: rest.
Proof. now eexists. Qed.

Ltac not_in :=
  let H := fresh in
  intros H; cbn in H; repeat (destruct H as [H|H]; [discriminate|]); exact H.

Ltac part_ok :=
  solve [ left; repeat split; first [reflexivity | discriminate | not_in | exact I]
        | right; repeat split; first [reflexivity | discriminate | not_in] ].

Ltac canonical_list :=
  cbn [canonical];
  repeat match goal with
         | |- _ /\ _ => split
         | |- True => exact I
         | |- _ \/ _ => part_ok
         end.

(** X1: parsing undoes writing back, for bold.  A non-empty list of parts
    whose text parts are non-empty, without [*] and never adjacent, and
    whose bold parts are non-empty and without [*], is what
    [parseMarkdownBold] returns for the string it is written to. *)
Theorem parseMarkdownBold_unparse (parts : list Part) :
  parts <> [] ->
  canonical boldRegex bold parts ->
  parseMarkdownBold (unparse parts) = Some parts.
Proof.
  intros Hne Hc. unfold parseMarkdownBold.
  apply scan_unparse_canonical; try assumption.
  - exact MarkupProps.bold_markers.
  - exact bold_open_first.
  - exact bold_close_first.
  - discriminate.
Qed.

Lemma parseMarkdownBold_unparse_witness :
  [{| type := bold; content := str "x" |};
   {| type := bold; content := str "y" |};
   {| type := text; content := str " and " |};
   {| type := bold; content := str "z" |}] <> []
  /\ canonical boldRegex bold
       [{| type := bold; content := str "x" |};
        {| type := bold; content := str "y" |};
        {| type := text; content := str " and " |};
        {| type := bold; content := str "z" |}]
  /\ parseMarkdownBold (str "**x****y** and **z**")
     = Some [{| type := bold; content := str "x" |};
             {| type := bold; content := str "y" |};
             {| type := text; content := str " and " |};
             {| type := bold; content := str "z" |}].
Proof.
  assert (Hc : canonical boldRegex bold
                 [{| type := bold; content := str "x" |};
                  {| type := bold; content := str "y" |};
                  {| type := text; content := str " and " |};
                  {| type := bold; content := str "z" |}]).
  { canonical_list. }
  split; [discriminate|]. split; [exact Hc|].
  refine (parseMarkdownBold_unparse _ _ Hc). discriminate.
Defined.

(** X2: parsing undoes writing back, for complex words.  A non-empty list
    of parts whose text parts are non-empty, without [[] and never
    adjacent, and whose complex parts are non-empty and without []], is
    what the complex-word scan of [renderSummary] returns for the string
    it is written to. *)
Theorem parseComplexWords_unparse (parts : list Part) :
  parts <> [] ->
  canonical complexWordRegex complex parts ->
  parseComplexWords (unparse parts) = Some parts.
Proof.
  intros Hne Hc. unfold parseComplexWords.
  apply scan_unparse_canonical; try assumption.
  - exact MarkupProps.complex_markers.
  - exact complex_open_first.
  - exact complex_close_first.
  - discriminate.
Qed.

Lemma parseComplexWords_unparse_witness :
  [{| type := text; content := str "The " |};
   {| type := complex; content := str "cell wall" |}] <> []
  /\ canonical complexWordRegex complex
       [{| type := text; content := str "The " |};
        {| type := complex; content := str "cell wall" |}]
  /\ parseComplexWords (str "The [COMPLEX:cell wall]")
     = Some [{| type := text; content := str "The " |};
             {| type := complex; content := str "cell wall" |}].
Proof.
  assert (Hc : canonical complexWordRegex complex
                 [{| type := text; content := str "The " |};
                  {| type := complex; content := str "cell wall" |}]).
  { canonical_list. }
  split; [discriminate|]. split; [exact Hc|].
  refine (parseComplexWords_unparse _ _ Hc). discriminate.
Defined.

(** X3: both scanners always return at least one part, and for a non-empty
    input no part has empty content: the fallback to a single text part is
    taken for the empty input only, and no empty span is pushed between or
    after matches. *)
Theorem parts_never_empty (input : jsstring) :
  (exists parts,
     parseMarkdownBold input = Some parts
     /\ parts <> []
     /\ (if truthy input
         then Forall (fun p => content p <> []) parts
         else parts = [{| type := text; content := [] |}]))
  /\ (exists parts,
        parseComplexWords input = Some parts
        /\ parts <> []
        /\ (if truthy input
            then Forall (fun p => content p <> []) parts
            else parts = [{| type := text; content := [] |}])).
Proof.
  split.
  - destruct (scan_unparse boldRegex bold MarkupProps.bold_markers input)
      as (parts & E & _).
    exists parts. unfold parseMarkdownBold. split; [exact E|].
    destruct (scan_contents _ _ _ _ E) as [H1 H2]. split; [exact H1|].
    destruct input; cbn [truthy]; [|apply H2; discriminate].
    cbv in E. now injection E as <-.
  - destruct (scan_unparse complexWordRegex complex
                MarkupProps.complex_markers input) as (parts & E & _).
    exists parts. unfold parseComplexWords. split; [exact E|].
    destruct (scan_contents _ _ _ _ E) as [H1 H2]. split; [exact H1|].
    destruct input; cbn [truthy]; [|apply H2; discriminate].
    cbv in E. now injection E as <-.
Qed.

(** X4: [renderSummary] returns for every summary.  For the empty summary
    it renders nothing; otherwise it renders the blocks of
    [parseMarkdownLists] one for one and in order, a paragraph as spans
    which, written back with their markers, are the content of the
    paragraph, and a list as one such sequence of spans per item. *)
Theorem renderSummary_shows_blocks (text_ : jsstring) :
  exists rendered,
    renderSummary text_ = Some rendered
    /\ (if truthy text_
        then Forall2 rendered_as (parseMarkdownLists text_) rendered
        else rendered = []).
Proof.
  unfold renderSummary. destruct (truthy text_); cbn [negb].
  2:{ now exists []. }
  apply traverse_Forall2. intros b _.
  destruct b as [c|items].
  - destruct (MarkupProps.renderSegments_unparse c) as (spans & -> & U & _).
    exists (RParagraph spans). split; [reflexivity | exact U].
  - destruct (traverse_Forall2
                (fun item spans => unparse_spans spans = item)
                renderSegments items) as (rs & -> & F).
    + intros item _.
      destruct (MarkupProps.renderSegments_unparse item) as (spans & -> & U & _).
      now exists spans.
    + exists (RList rs). split; [reflexivity | exact F].
Qed.

End MarkupMore.

(* ------------------------------------------------------------------ *)
(** ** More on the block parser *)

Module BlocksMore.
Import JS JSFacts Markup Blocks Shapes BlocksProps.

Lemma bullet_backtrack_spec (k : nat) (s item : jsstring) :
  bullet_backtrack k s = Some item ->
  exists j, 1 <= j <= k /\ item = skipn j s /\ item <> []
            /\ forallb isDot item = true.
Proof.
  induction k as [|k IH]; [discriminate|]. cbn [bullet_backtrack].
  remember (skipn (S k) s) as rest eqn:Hrest.
  destruct (truthy rest && forallb isDot rest) eqn:E.
  - intros [= <-]. apply andb_true_iff in E as [E1 E2].
    exists (S k). repeat split; try lia; try assumption.
    intros H. rewrite H in E1. discriminate.
  - intros H. destruct (IH H) as (j & Hj & R). exists j. split; [lia | exact R].
Qed.

Lemma takeWhile_all (p : char -> bool) (s : jsstring) :
  forallb p (takeWhile p s) = true.
Proof.
  induction s as [|c s IH]; simpl; [reflexivity|].
  destruct (p c) eqn:E; simpl; [now rewrite E | reflexivity].
Qed.

(** X5: every line taken for a bullet line has the shape of the pattern:
    white space, one marker [-] or [*], at least one white-space character,
    and a non-empty rest, free of line terminators, which is the captured
    item. *)
Theorem bulletMatch_shape (line item : jsstring) :
  bulletMatch line = Some item ->
  exists (ws : jsstring) (m : char) (sp : jsstring),
    line = ws ++ m :: sp ++ item
    /\ forallb isSpace ws = true
    /\ isBulletMarker m = true
    /\ sp <> []
    /\ forallb isSpace sp = true
    /\ item <> []
    /\ forallb isDot item = true.
Proof.
  unfold bulletMatch. intros H.
  pose proof (takeWhile_dropWhile isSpace line) as Hline.
  destruct (dropWhile isSpace line) as [|m after]; [discriminate|].
  destruct (isBulletMarker m) eqn:Hm; [|discriminate].
  apply bullet_backtrack_spec in H as (j & Hj & -> & Hne & Hdot).
  exists (takeWhile isSpace line), m, (firstn j after).
  split; [now rewrite firstn_skipn|].
  split; [apply takeWhile_all|]. split; [exact Hm|].
  assert (Hlen : j <= length after).
  { pose proof (takeWhile_length isSpace after). lia. }
  split.
  { intros E. apply (f_equal (@length _)) in E.
    rewrite length_firstn in E. simpl in E. lia. }
  split; [|split; assumption].
  apply forallb_forall. intros c Hc.
  pose proof (MarkupFacts.takeWhile_firstn isSpace after j (proj2 Hj)) as F.
  rewrite Forall_forall in F. now apply F.
Qed.

Lemma bulletMatch_shape_witness :
  bulletMatch (str "  * item one") = Some (str "item one")
  /\ exists (ws : jsstring) (m : char) (sp : jsstring),
       str "  * item one" = ws ++ m :: sp ++ str "item one"
       /\ forallb isSpace ws = true
       /\ isBulletMarker m = true
       /\ sp <> []
       /\ forallb isSpace sp = true
       /\ str "item one" <> []
       /\ forallb isDot (str "item one") = true.
Proof.
  split; [reflexivity|].
  exact (bulletMatch_shape (str "  * item one") (str "item one") eq_refl).
Defined.

Lemma join_split_acc (s cur : jsstring) :
  join_lines (split_acc cur s) = rev cur ++ s.
Proof.
  revert cur; induction s as [|c s IH]; intros cur; cbn [split_acc].
  - simpl. now rewrite app_nil_r.
  - destruct (char_eqb c LF) eqn:E.
    + apply char_eqb_eq in E. subst c.
      pose proof (split_acc_not_nil [] s) as Hne.
      specialize (IH []). simpl in IH.
      cbn [join_lines]. destruct (split_acc [] s); [congruence|].
      now rewrite IH.
    + rewrite IH. simpl. now rewrite <- app_assoc.
Qed.

(** Joining the lines of a string gives the string. *)
Lemma join_split (s : jsstring) : join_lines (split_lines s) = s.
Proof. unfold split_lines. now rewrite join_split_acc. Qed.

Lemma take_while_all {A : Type} (p : A -> bool) (l : list A) :
  forallb p l = true -> take_while p l = l.
Proof.
  induction l as [|a l IH]; simpl; [reflexivity|].
  intros H. apply andb_true_iff in H as [Ha Hl]. rewrite Ha. f_equal. auto.
Qed.

Lemma since_last_bullet_none (lines : list jsstring) :
  forallb (fun l => negb (is_bullet l)) lines = true ->
  since_last_bullet lines = lines.
Proof.
  intros H. unfold since_last_bullet.
  rewrite take_while_all; [apply rev_involutive|].
  apply forallb_forall. intros l Hl. apply in_rev in Hl.
  rewrite forallb_forall in H. now apply H.
Qed.

Lemma no_bullets_fold (lines : list jsstring) :
  forallb (fun l => negb (is_bullet l)) lines = true ->
  forall a : Acc,
    currentList a = [] ->
    result (fold_left loop_body lines a) = result a
    /\ currentList (fold_left loop_body lines a) = [].
Proof.
  induction lines as [|l lines IH]; intros Hall a Ha; [now split|].
  simpl in Hall. apply andb_true_iff in Hall as [Hl Hall].
  cbn [fold_left].
  assert (E : result (loop_body a l) = result a /\ currentList (loop_body a l) = []).
  { unfold loop_body, is_bullet in *.
    destruct (bulletMatch l); [discriminate|].
    unfold flushList. rewrite Ha. cbn.
    destruct (_ || _); cbn; auto. }
  destruct E as [E1 E2].
  destruct (IH Hall (loop_body a l) E2) as [R1 R2].
  split; [congruence | exact R2].
Qed.

(** X6: a text without bullet lines is one paragraph: the text from its
    first non-blank line on, with all its line breaks, or, when every line
    is blank, the whole text.  When the first line is not blank, the
    paragraph is the text itself. *)
Theorem plain_text_one_paragraph (text_ : jsstring) :
  forallb (fun l => negb (is_bullet l)) (split_lines text_) = true ->
  parseMarkdownLists text_
  = [paragraph
       match drop_while is_blank (split_lines text_) with
       | [] => text_
       | l :: ls => join_lines (l :: ls)
       end]
  /\ (is_blank (hd [] (split_lines text_)) = false ->
      parseMarkdownLists text_ = [paragraph text_]).
Proof.
  intros H.
  assert (E : parseMarkdownLists text_
              = [paragraph
                   match drop_while is_blank (split_lines text_) with
                   | [] => text_
                   | l :: ls => join_lines (l :: ls)
                   end]).
  { unfold parseMarkdownLists.
    destruct (no_bullets_fold _ H start eq_refl) as [R1 R2].
    fold (run_lines (split_lines text_)) in R1, R2.
    pose proof (currentParagraph_run (split_lines text_)) as P.
    rewrite since_last_bullet_none in P by exact H.
    destruct (flushParagraph_fields (run_lines (split_lines text_)))
      as (P1 & P2 & P3).
    destruct (flushList_fields (flushParagraph (run_lines (split_lines text_))))
      as (L1 & L2 & L3).
    rewrite length_pos, L3, P3, P2, R1, R2, P. cbn [start result app].
    destruct (drop_while is_blank (split_lines text_)); reflexivity. }
  split; [exact E|].
  intros Hb. rewrite E.
  pose proof (join_split text_) as J.
  destruct (split_lines text_) as [|l ls]; [now rewrite <- J|].
  cbn [hd] in Hb. cbn [drop_while]. rewrite Hb. now rewrite J.
Qed.

Lemma plain_text_one_paragraph_witness :
  forallb (fun l => negb (is_bullet l))
    (split_lines (str "one" ++ [LF] ++ [LF] ++ str "- " ++ [LF] ++ str "two"))
  = true
  /\ is_blank
       (hd [] (split_lines
                 (str "one" ++ [LF] ++ [LF] ++ str "- " ++ [LF] ++ str "two")))
     = false
  /\ parseMarkdownLists
       (str "one" ++ [LF] ++ [LF] ++ str "- " ++ [LF] ++ str "two")
     = [paragraph (str "one" ++ [LF] ++ [LF] ++ str "- " ++ [LF] ++ str "two")].
Proof.
  split; [reflexivity|]. split; [reflexivity|].
  exact (proj2 (plain_text_one_paragraph
                  (str "one" ++ [LF] ++ [LF] ++ str "- " ++ [LF] ++ str "two")
                  eq_refl) eq_refl).
Defined.

Lemma dropWhile_nil (p : char -> bool) (s : jsstring) :
  dropWhile p s = [] <-> forallb p s = true.
Proof.
  induction s as [|c s IH]; simpl; [tauto|].
  destruct (p c); simpl; [exact IH|]. split; discriminate.
Qed.

Lemma dropWhile_head (p : char -> bool) (s r : jsstring) (c : char) :
  dropWhile p s = c :: r -> p c = false.
Proof.
  induction s as [|x s IH]; simpl; [discriminate|].
  destruct (p x) eqn:E; [exact IH|]. now intros [= <- _].
Qed.

Lemma dropWhile_keeps (p : char -> bool) (a : jsstring) (c : char) :
  p c = false -> dropWhile p (a ++ [c]) <> [].
Proof.
  intros Hc. induction a as [|x a IH]; simpl.
  - now rewrite Hc.
  - destruct (p x); [exact IH | discriminate].
Qed.

(** A line is blank exactly when all its characters are white space. *)
Lemma is_blank_forallb (s : jsstring) : is_blank s = forallb isSpace s.
Proof.
  unfold is_blank, trim.
  destruct (forallb isSpace s) eqn:E.
  - apply dropWhile_nil in E. now rewrite E.
  - destruct (dropWhile isSpace s) as [|c r] eqn:D.
    + apply dropWhile_nil in D. congruence.
    + apply dropWhile_head in D. cbn [rev].
      pose proof (dropWhile_keeps isSpace (rev r) c D) as K.
      destruct (dropWhile isSpace (rev r ++ [c])) as [|y ys] eqn:Y; [congruence|].
      cbn [rev]. destruct (rev ys ++ [y]) eqn:Z; [|reflexivity].
      apply app_eq_nil in Z as [_ Z]. discriminate.
Qed.

Lemma join_lines_not_blank (l : jsstring) (ls : list jsstring) :
  is_blank l = false -> is_blank (join_lines (l :: ls)) = false.
Proof.
  rewrite !is_blank_forallb. intros H.
  destruct ls; cbn [join_lines]; [exact H|].
  now rewrite forallb_app, H.
Qed.

Lemma drop_while_head {A : Type} (p : A -> bool) (l r : list A) (a : A) :
  drop_while p l = a :: r -> p a = false.
Proof.
  induction l as [|x l IH]; simpl; [discriminate|].
  destruct (p x) eqn:E; [exact IH|]. now intros [= <- _].
Qed.

(** What the loop keeps true: no empty list and no blank paragraph has been
    pushed, and nothing at all has been accumulated only if every line so
    far was blank. *)
Lemma run_lines_invariant (pre : list jsstring) :
  Forall well_formed_block (result (run_lines pre))
  /\ (result (run_lines pre) = [] -> currentList (run_lines pre) = [] ->
      currentParagraph (run_lines pre) = [] ->
      forallb is_blank pre = true).
Proof.
  induction pre as [|line pre [IH1 IH2]] using rev_ind.
  - split; [constructor | reflexivity].
  - rewrite run_lines_snoc. unfold loop_body.
    pose proof (currentParagraph_run pre) as P.
    destruct (flushParagraph_fields (run_lines pre)) as (P1 & P2 & P3).
    destruct (flushList_fields (run_lines pre)) as (L1 & L2 & L3).
    destruct (bulletMatch line) as [item|].
    + cbn [result currentList currentParagraph]. split.
      * rewrite P3. apply Forall_app; split; [exact IH1|].
        destruct (currentParagraph (run_lines pre)) as [|l ls] eqn:E;
          [constructor|].
        constructor; [|constructor]. cbn [well_formed_block].
        apply join_lines_not_blank. symmetry in P.
        now apply drop_while_head in P.
      * intros _ H. rewrite P2 in H. apply app_eq_nil in H as [_ H].
        discriminate.
    + assert (W : Forall well_formed_block (result (flushList (run_lines pre)))).
      { rewrite L3. apply Forall_app; split; [exact IH1|].
        destruct (currentList (run_lines pre)) eqn:E; [constructor|].
        constructor; [|constructor]. cbn. discriminate. }
      rewrite L2, length_pos.
      destruct (truthy (trim line)) eqn:T;
        [|destruct (currentParagraph (run_lines pre)) eqn:E];
        cbn [orb result currentList currentParagraph]; (split; [exact W|]).
      * intros _ _ H. apply app_eq_nil in H as [_ H]. discriminate.
      * rewrite L3. intros R _ _.
        apply app_eq_nil in R as [R1 R2].
        rewrite forallb_app. cbn [forallb]. unfold is_blank at 2. rewrite T.
        cbn. rewrite andb_true_r. apply IH2; try assumption; try reflexivity.
        destruct (currentList (run_lines pre)); [reflexivity | discriminate].
      * intros _ _ H. apply app_eq_nil in H as [_ H]. discriminate.
Qed.

(** X7: [parseMarkdownLists] never returns an empty sequence of blocks, no
    list block is empty and no paragraph is blank; the one exception is a
    text of blank lines only, which becomes a single paragraph holding the
    text as it is. *)
Theorem blocks_well_formed (text_ : jsstring) :
  parseMarkdownLists text_ <> []
  /\ (Forall well_formed_block (parseMarkdownLists text_)
      \/ (parseMarkdownLists text_ = [paragraph text_]
          /\ forallb is_blank (split_lines text_) = true)).
Proof.
  unfold parseMarkdownLists.
  destruct (run_lines_invariant (split_lines text_)) as [I1 I2].
  pose proof (currentParagraph_run (split_lines text_)) as P.
  set (a := run_lines (split_lines text_)) in *.
  destruct (flushParagraph_fields a) as (_ & P2 & P3).
  destruct (flushList_fields (flushParagraph a)) as (_ & _ & L3).
  rewrite P3, P2 in L3. rewrite length_pos, L3. clear L3 P3 P2.
  assert (W : Forall well_formed_block
                ((result a
                  ++ match currentParagraph a with
                     | [] => []
                     | _ :: _ => [paragraph (join_lines (currentParagraph a))]
                     end)
                 ++ match currentList a with
                    | [] => []
                    | _ :: _ => [list_block (currentList a)]
                    end)).
  { repeat (apply Forall_app; split); try exact I1.
    - destruct (currentParagraph a) as [|l ls] eqn:E; [constructor|].
      constructor; [|constructor]. cbn [well_formed_block].
      apply join_lines_not_blank. symmetry in P.
      now apply drop_while_head in P.
    - destruct (currentList a) eqn:E; [constructor|].
      constructor; [|constructor]. cbn. discriminate. }
  destruct ((result a ++ _) ++ _) as [|b bs] eqn:R.
  - split; [discriminate|]. right. split; [reflexivity|].
    apply app_eq_nil in R as [R R3]. apply app_eq_nil in R as [R1 R2].
    apply I2; try assumption.
    + destruct (currentList a); [reflexivity | discriminate].
    + destruct (currentParagraph a); [reflexivity | discriminate].
  - split; [discriminate|]. left. exact W.
Qed.

End BlocksMore.

(* ------------------------------------------------------------------ *)
(** ** More on the session: the page, the calls, the chat *)

Module SessionMore.
Import JS JSFacts Session SessionProps Gating.

Lemma filter_has {A : Type} (p : A -> bool) (l : list A) (i : nat) (x : A) :
  nth_error l i = Some x -> p x = true -> 1 <= length (filter p l).
Proof.
  revert i; induction l as [|a l IH]; intros [|i]; simpl; try discriminate.
  - intros [= ->] ->. simpl. lia.
  - intros H Hx. specialize (IH _ H Hx). destruct (p a); simpl; lia.
Qed.

Lemma filter_remove_nth {A : Type} (p : A -> bool) (l : list A) (i : nat) (x : A) :
  nth_error l i = Some x ->
  length (filter p (remove_nth i l))
  = length (filter p l) - (if p x then 1 else 0).
Proof.
  revert i; induction l as [|a l IH]; intros [|i]; simpl; try discriminate.
  - intros [= ->]. destruct (p x); simpl; lia.
  - intros H. specialize (IH _ H).
    destruct (p x) eqn:Ex.
    + pose proof (filter_has p l i x H Ex).
      destruct (p a); simpl; lia.
    + destruct (p a); simpl; lia.
Qed.

Section More.
Variable toLowerCase : jsstring -> jsstring.

Lemma ui_reachable_reachable (w : World) :
  ui_reachable toLowerCase w -> reachable toLowerCase w.
Proof. induction 1; now constructor. Qed.

(** X8: a click the page offers starts its operation.  When the "Generate
    Summary" button is enabled, [handleGenerateSummary] passes its own
    guard, clears the error and makes one call; when the chat is shown and
    the ask button is enabled, [handleAskQuestion] passes both its guards,
    adds the trimmed question to the chat and makes one call with the
    summary and that question. *)
Theorem offered_clicks_call (w : World) (now : Z) :
  (offered toLowerCase GenerateSummaryClick (state w) = true ->
   error (state (step toLowerCase now GenerateSummaryClick w)) = []
   /\ isGeneratingSummary (state (step toLowerCase now GenerateSummaryClick w))
      = true
   /\ exists c,
        is_summarize (c, afterSummary) = true
        /\ pending (step toLowerCase now GenerateSummaryClick w)
           = pending w ++ [(c, afterSummary)])
  /\ (offered toLowerCase AskClick (state w) = true ->
      error (state (step toLowerCase now AskClick w)) = []
      /\ isAnswering (state (step toLowerCase now AskClick w)) = true
      /\ chatMessages (state (step toLowerCase now AskClick w))
         = chatMessages (state w)
           ++ [{| ChatMessage.type := ChatMessage.user;
                  ChatMessage.content := trim (question (state w));
                  ChatMessage.id := now |}]
      /\ pending (step toLowerCase now AskClick w)
         = pending w
           ++ [(answerQuestion (summary (state w)) (trim (question (state w))),
                afterAnswer)]).
Proof.
  split; intros H; cbn [offered] in H.
  - unfold generateDisabled in H. apply negb_true_iff in H.
    apply orb_false_iff in H as [_ H].
    cbn [step handler]. unfold handleGenerateSummary. rewrite H.
    cbn. repeat split.
    destruct (isPDF toLowerCase (state w)); eexists; (split; [|reflexivity]);
      reflexivity.
  - unfold summaryVisible, askDisabled in H.
    apply andb_true_iff in H as [Hs H]. apply negb_true_iff in H.
    apply orb_false_iff in H as [_ H]. apply negb_false_iff in H.
    cbn [step handler]. unfold handleAskQuestion. rewrite H, Hs.
    cbn. repeat split.
Qed.

Ltac count_outstanding :=
  unfold outstanding in *; cbn;
  rewrite ?filter_app, ?length_app; cbn; rewrite ?Nat.add_0_r; auto.

(** X9: through the page, at most one summarize call and at most one ask
    call are outstanding at any time, and the busy flags say so exactly:
    [isGeneratingSummary] is set if and only if one [generateSummary] call
    is outstanding, and [isAnswering] if and only if one [answerQuestion]
    call is. *)
Theorem busy_flags_count (w : World) :
  ui_reachable toLowerCase w ->
  outstanding is_summarize w = (if isGeneratingSummary (state w) then 1 else 0)
  /\ outstanding is_ask w = (if isAnswering (state w) then 1 else 0).
Proof.
  induction 1 as [|now e w U [IH1 IH2] Hoff]; [split; reflexivity|].
  pose proof (ui_reachable_reachable w U) as R.
  destruct e; cbn [offered] in Hoff; cbn [step handler].
  - (* Generate Summary *)
    unfold generateDisabled in Hoff. apply negb_true_iff in Hoff.
    apply orb_false_iff in Hoff as [Hflag Hg].
    unfold handleGenerateSummary. rewrite Hg. rewrite Hflag in IH1.
    destruct (isPDF toLowerCase (state w)); count_outstanding;
      rewrite IH1; auto.
  - (* Ask *)
    unfold summaryVisible, askDisabled in Hoff.
    apply andb_true_iff in Hoff as [Hs Hoff]. apply negb_true_iff in Hoff.
    apply orb_false_iff in Hoff as [Hflag Hq]. apply negb_false_iff in Hq.
    unfold handleAskQuestion. rewrite Hq, Hs. rewrite Hflag in IH2.
    count_outstanding. rewrite IH2; auto.
  - count_outstanding.
  - count_outstanding.
  - unfold handleFileSelect. destruct file as [f|]; [|count_outstanding].
    destruct (accepted toLowerCase f); [|count_outstanding].
    destruct (isPDFFile toLowerCase f); count_outstanding.
  - count_outstanding.
  - unfold handleWordClick.
    destruct (_ && _); count_outstanding.
  - count_outstanding.
  - unfold handleClickOutside.
    destruct (clickedWord (state w)) as [cw|];
      [destruct (truthy cw)|]; count_outstanding.
  - count_outstanding.
  - count_outstanding.
  - (* a call settles *)
    destruct (nth_error (pending w) i) as [[c k]|] eqn:E; [|now split].
    pose proof (pending_continuation toLowerCase w i c k R E) as ->.
    pose proof (filter_remove_nth is_summarize _ _ _ E) as F1.
    pose proof (filter_remove_nth is_ask _ _ _ E) as F2.
    pose proof (filter_has is_summarize _ _ _ E) as G1.
    pose proof (filter_has is_ask _ _ _ E) as G2.
    unfold outstanding in *.
    destruct c, o; cbn in *; rewrite ?F1, ?F2, ?IH1, ?IH2;
      try specialize (G1 eq_refl); try specialize (G2 eq_refl);
      split; try reflexivity;
      try (destruct (isGeneratingSummary (state w)); simpl in *; lia);
      try (destruct (isAnswering (state w)); simpl in *; lia).
Qed.

Lemma remove_nth_length {A : Type} (l : list A) (i : nat) :
  length (remove_nth i l) = length l - (if i <? length l then 1 else 0).
Proof.
  revert i; induction l as [|a l IH]; intros [|i]; simpl; try lia.
  rewrite IH. destruct (i <? length l) eqn:E.
  - apply Nat.ltb_lt in E.
    replace (S i <? S (length l)) with true
      by (symmetry; apply Nat.ltb_lt; lia). lia.
  - apply Nat.ltb_ge in E.
    replace (S i <? S (length l)) with false
      by (symmetry; apply Nat.ltb_ge; lia). lia.
Qed.

(** X10: the chat only grows, by at most one message at its end per event,
    and no message in it is ever changed or removed; the one exception is a
    click on "Generate Summary", which leaves the chat as it is (guard not
    passed) or empties it. *)
Theorem chat_only_grows (w : World) (e : Event) (now : Z) :
  reachable toLowerCase w ->
  match e with
  | GenerateSummaryClick =>
      chatMessages (state (step toLowerCase now e w)) = chatMessages (state w)
      \/ chatMessages (state (step toLowerCase now e w)) = []
  | _ =>
      grows_by_one (chatMessages (state w))
        (chatMessages (state (step toLowerCase now e w)))
  end.
Proof.
  intros R. unfold grows_by_one.
  destruct e; cbn [step handler];
    unfold handleGenerateSummary, handleAskQuestion, handleFileSelect,
      handleClearFile, handleWordClick, closeDefinition, handleClickOutside;
    try solve
      [ repeat match goal with
               | |- context [if ?b then _ else _] => destruct b
               | |- context [match ?x with _ => _ end] => destruct x
               end;
        cbn; first [now left | right; eexists; reflexivity | now right] ].
  destruct (nth_error (pending w) i) as [[c k]|] eqn:E; [|now left].
  pose proof (pending_continuation toLowerCase w i c k R E) as ->.
  destruct c, o; cbn; first [now left | right; eexists; reflexivity].
Qed.

(** X11: calls are made one at a time and are never started by a call that
    settles.  A settling call leaves the log of calls as it is and takes
    one call off the outstanding ones; the four handlers that can call out
    either make no call or make exactly one, logged with the state as the
    handler leaves it; no other event touches the calls. *)
Theorem calls_discipline (w : World) (e : Event) (now : Z) :
  reachable toLowerCase w ->
  match e with
  | Settle i _ =>
      calls (step toLowerCase now e w) = calls w
      /\ length (pending (step toLowerCase now e w))
         = length (pending w) - (if i <? length (pending w) then 1 else 0)
  | GenerateSummaryClick | AskClick | FileSelect _ | WordClick _ _ =>
      (calls (step toLowerCase now e w) = calls w
       /\ pending (step toLowerCase now e w) = pending w)
      \/ exists c k,
           calls (step toLowerCase now e w)
           = calls w ++ [(c, state (step toLowerCase now e w))]
           /\ pending (step toLowerCase now e w) = pending w ++ [(c, k)]
  | _ =>
      calls (step toLowerCase now e w) = calls w
      /\ pending (step toLowerCase now e w) = pending w
  end.
Proof.
  intros R.
  destruct e; cbn [step handler];
    unfold handleGenerateSummary, handleAskQuestion, handleFileSelect,
      handleClearFile, handleWordClick, closeDefinition, handleClickOutside;
    try solve
      [ repeat match goal with
               | |- context [if ?b then _ else _] => destruct b
               | |- context [match ?x with _ => _ end] => destruct x
               end;
        cbn;
        first [ now split
              | left; now split
              | right; do 2 eexists; split; reflexivity ] ].
  destruct (nth_error (pending w) i) as [[c k]|] eqn:E.
  - pose proof (pending_continuation toLowerCase w i c k R E) as ->.
    assert (L : length (pending (run now (expected c o)
                  {| state := state w; pending := remove_nth i (pending w);
                     calls := calls w |}))
                = length (remove_nth i (pending w)))
      by (destruct c, o; reflexivity).
    rewrite L, remove_nth_length. split; [|reflexivity].
    destruct c, o; reflexivity.
  - split; [reflexivity|].
    apply nth_error_None in E.
    replace (i <? length (pending w)) with false
      by (symmetry; apply Nat.ltb_ge; lia). lia.
Qed.

(** X12: how a summarize call settles.  In whatever reachable world, a
    result becomes the summary and an error its message (or the fixed text
    for an empty message), the busy flag is cleared, and nothing else
    changes.  From the click on: the chat and the previous summary are
    cleared when the call is made and are not restored when it fails. *)
Theorem summarize_settles :
  (forall (w : World) (i : nat) (t : option jsstring) (f : option File.t)
          (m : option jsstring) (k : Outcome -> Async) (o : Outcome) (now : Z),
     reachable toLowerCase w ->
     nth_error (pending w) i = Some (generateSummary t f m, k) ->
     state (step toLowerCase now (Settle i o) w)
     = match o with
       | resolved result =>
           setIsGeneratingSummary false (setSummary result (state w))
       | rejected message =>
           setIsGeneratingSummary false
             (setError
                (or_else message
                   (str "Failed to generate summary. Please check your API key."))
                (state w))
       end
     /\ calls (step toLowerCase now (Settle i o) w) = calls w)
  /\ (forall (w : World) (message : jsstring) (t1 t2 : Z),
        truthy (trim (inputText (state w))) || isPDF toLowerCase (state w)
        = true ->
        summary
          (state (step toLowerCase t2
                    (Settle (length (pending w)) (rejected message))
                    (step toLowerCase t1 GenerateSummaryClick w))) = []
        /\ chatMessages
             (state (step toLowerCase t2
                       (Settle (length (pending w)) (rejected message))
                       (step toLowerCase t1 GenerateSummaryClick w))) = []
        /\ error
             (state (step toLowerCase t2
                       (Settle (length (pending w)) (rejected message))
                       (step toLowerCase t1 GenerateSummaryClick w)))
           = or_else message
               (str "Failed to generate summary. Please check your API key.")
        /\ isGeneratingSummary
             (state (step toLowerCase t2
                       (Settle (length (pending w)) (rejected message))
                       (step toLowerCase t1 GenerateSummaryClick w))) = false).
Proof.
  split.
  - intros w i t f m k o now R E.
    pose proof (pending_continuation toLowerCase w i _ k R E) as ->.
    rewrite (settle_at toLowerCase now w i _ _ o E).
    destruct o; cbn; split; reflexivity.
  - intros w message t1 t2 H.
    assert (G : negb (truthy (trim (inputText (state w))))
                && negb (isPDF toLowerCase (state w)) = false)
      by (destruct (truthy _), (isPDF _ _); simpl in *; congruence).
    assert (E1 : step toLowerCase t1 GenerateSummaryClick w
                 = run t1 (handleGenerateSummary toLowerCase (state w)) w)
      by reflexivity.
    unfold handleGenerateSummary in E1. rewrite G in E1.
    cbn [run state pending calls] in E1.
    rewrite (settle_at toLowerCase t2 _ (length (pending w)) _ afterSummary)
      by (rewrite E1; cbn [pending]; apply nth_error_snoc).
    rewrite E1. cbn. repeat split.
Qed.

(** X14: file intake.  Every file that counts as a PDF passes the check of
    types and extensions.  A file that does not pass it changes nothing but
    the error.  An accepted PDF starts no reading and is not being
    processed; any other accepted file starts one reading and is being
    processed.  When a reading fails, in whatever reachable world, the
    error is set and the processing flag cleared, and the file stays
    selected. *)
Theorem file_intake :
  (forall f : File.t, isPDFFile toLowerCase f = true ->
                      accepted toLowerCase f = true)
  /\ (forall (w : World) (f : File.t) (now : Z),
        if accepted toLowerCase f then
          if isPDFFile toLowerCase f then
            isProcessingFile (state (step toLowerCase now (FileSelect (Some f)) w))
            = false
            /\ calls (step toLowerCase now (FileSelect (Some f)) w) = calls w
          else
            isProcessingFile (state (step toLowerCase now (FileSelect (Some f)) w))
            = true
            /\ pending (step toLowerCase now (FileSelect (Some f)) w)
               = pending w ++ [(readAsText f, afterRead)]
        else
          state (step toLowerCase now (FileSelect (Some f)) w)
          = setError
              (str "Please select a text file (.txt, .md, .json, .csv, .html) or PDF file (.pdf) or paste your text directly.")
              (state w)
          /\ calls (step toLowerCase now (FileSelect (Some f)) w) = calls w)
  /\ (forall (w : World) (i : nat) (f : File.t) (k : Outcome -> Async)
             (message : jsstring) (now : Z),
        reachable toLowerCase w ->
        nth_error (pending w) i = Some (readAsText f, k) ->
        state (step toLowerCase now (Settle i (rejected message)) w)
        = setIsProcessingFile false
            (setError (str "Failed to read file. Please try again.") (state w))
        /\ selectedFile (state (step toLowerCase now (Settle i (rejected message)) w))
           = selectedFile (state w)).
Proof.
  split; [|split].
  - intros f H. unfold isPDFFile in H. unfold accepted.
    apply orb_true_iff in H as [H|H].
    + apply eqb_eq in H. rewrite H. reflexivity.
    + apply orb_true_iff. right. cbn [validExtensions existsb].
      rewrite H. now rewrite !orb_true_r.
  - intros w f now. cbn [step handler]. unfold handleFileSelect.
    destruct (accepted toLowerCase f); cbn [negb];
      [destruct (isPDFFile toLowerCase f)|]; cbn; split; reflexivity.
  - intros w i f k message now R E.
    pose proof (pending_continuation toLowerCase w i _ k R E) as ->.
    rewrite (settle_at toLowerCase now w i _ _ (rejected message) E).
    cbn. split; reflexivity.
Qed.

(** X15: after "Remove", nothing can be summarized: whatever the world, a
    click on "Generate Summary" right after [handleClearFile] sets the
    error and makes no call. *)
Theorem clear_then_summarize (w : World) (t1 t2 : Z) :
  error
    (state (step toLowerCase t2 GenerateSummaryClick
              (step toLowerCase t1 ClearFileClick w)))
  = str "Please enter some text or upload a file to summarize."
  /\ calls (step toLowerCase t2 GenerateSummaryClick
              (step toLowerCase t1 ClearFileClick w)) = calls w
  /\ pending (step toLowerCase t2 GenerateSummaryClick
                (step toLowerCase t1 ClearFileClick w)) = pending w
  /\ summary
       (state (step toLowerCase t2 GenerateSummaryClick
                 (step toLowerCase t1 ClearFileClick w)))
     = summary (state w)
  /\ chatMessages
       (state (step toLowerCase t2 GenerateSummaryClick
                 (step toLowerCase t1 ClearFileClick w)))
     = chatMessages (state w).
Proof.
  cbn. repeat split.
Qed.

(** X16: closing resets the toggle.  After the popup is closed by its
    button, a click on any word, the one just shown included, opens the
    popup for that word with a new lookup.  The same holds after a click
    outside the popup for every word that is not the empty string (a
    rendered complex word never is); the click outside closes nothing while
    the clicked word is the empty string. *)
Theorem close_then_click (w : World) (word : jsstring) (r : Rect) (t1 t2 : Z) :
  (clickedWord
     (state (step toLowerCase t2 (WordClick word r)
               (step toLowerCase t1 CloseDefinitionClick w))) = Some word
   /\ isLoadingDefinition
        (state (step toLowerCase t2 (WordClick word r)
                  (step toLowerCase t1 CloseDefinitionClick w))) = true
   /\ pending (step toLowerCase t2 (WordClick word r)
                 (step toLowerCase t1 CloseDefinitionClick w))
      = pending w ++ [(getWordDefinition word, afterDefinition)])
  /\ (truthy word = true ->
      clickedWord
        (state (step toLowerCase t2 (WordClick word r)
                  (step toLowerCase t1 OutsideClick w))) = Some word
      /\ isLoadingDefinition
           (state (step toLowerCase t2 (WordClick word r)
                     (step toLowerCase t1 OutsideClick w))) = true
      /\ pending (step toLowerCase t2 (WordClick word r)
                    (step toLowerCase t1 OutsideClick w))
         = pending w ++ [(getWordDefinition word, afterDefinition)])
  /\ (clickedWord (state w) = Some [] ->
      step toLowerCase t1 OutsideClick w = w).
Proof.
  split; [|split].
  - cbn. repeat split.
  - intros T. cbn [step handler]. unfold handleClickOutside.
    destruct (clickedWord (state w)) as [cw|] eqn:E.
    + destruct cw as [|c cw]; cbn [truthy negb]; cbn [run].
      * unfold handleWordClick. rewrite E.
        destruct word as [|x word]; [discriminate|].
        cbn. repeat split.
      * cbn. repeat split.
    + cbn [run]. unfold handleWordClick. rewrite E. cbn. repeat split.
  - intros E. cbn [step handler]. unfold handleClickOutside. rewrite E.
    reflexivity.
Qed.

Lemma or_else_not_nil (a b : jsstring) : b <> [] -> or_else a b <> [].
Proof. intros H. unfold or_else. destruct a; simpl; [exact H | discriminate]. Qed.

Lemma or_else_self (a b : jsstring) : a <> [] -> or_else a b = a.
Proof. intros H. destruct a; [congruence | reflexivity]. Qed.

Lemma callGeminiAPI_returned (p : jsstring) (f : option File.t)
    (m : option jsstring) (r : Gemini.Reply) (v : jsstring) :
  Gemini.callGeminiAPI p f m r = Gemini.returned v -> v <> [].
Proof.
  unfold Gemini.callGeminiAPI.
  destruct (Gemini.with_file f m), (Gemini.encoded r), (Gemini.fetched r)
    as [?|? ?|?|?|?|[t|]]; try discriminate;
    try (destruct (negb (truthy (or_else t []))) eqn:E; try discriminate;
         intros [= <-]; apply negb_false_iff in E;
         intros H; rewrite H in E; discriminate);
    cbn; discriminate.
Qed.

Lemma rethrow_not_empty (c : Gemini.Completion) (fallback : jsstring) :
  fallback <> [] ->
  (forall v, c = Gemini.returned v -> v <> []) ->
  match Gemini.rethrow c fallback with
  | resolved v => v <> []
  | rejected m => m <> []
  end.
Proof.
  intros Hf Hc. destruct c as [v|[m|]]; cbn.
  - now apply Hc.
  - now apply or_else_not_nil.
  - exact Hf.
Qed.

Lemma client_outcomes_text (word : jsstring) (reply : Gemini.Reply) :
  match Gemini.getWordDefinition word reply with
  | resolved v => v <> []
  | rejected m => m <> []
  end.
Proof.
  apply rethrow_not_empty; [discriminate | apply callGeminiAPI_returned].
Qed.

(** X17: each of the three exported functions of the client settles with
    a non-empty string, whatever comes of the request: the encoding of the
    file or [fetch] fails, the status is not ok (with any body, [null]
    included), the body of an ok reply is unreadable or [null], or the
    generated text is absent, empty or a non-empty string.  A resolved
    value is never empty, since an empty generated text is turned into an
    error, and a rejection always carries a message, its own or the fixed
    one of the function. *)
Theorem client_outcomes_not_empty (c : Call) (r : Gemini.Reply) (o : Outcome) :
  Gemini.outcome c r = Some o ->
  match o with
  | resolved v => v <> []
  | rejected m => m <> []
  end.
Proof.
  destruct c as [t f m|s q|word|f]; cbn [Gemini.outcome]; intros [= <-].
  - unfold Gemini.generateSummary. apply rethrow_not_empty; [discriminate|].
    destruct (Gemini.summaryPrompt t f m); [|discriminate].
    apply callGeminiAPI_returned.
  - apply rethrow_not_empty; [discriminate | apply callGeminiAPI_returned].
  - apply rethrow_not_empty; [discriminate | apply callGeminiAPI_returned].
Qed.

(** X18: a word lookup always ends with text.  Whatever comes of the
    request of an outstanding lookup of a reachable world (the cases of
    [Gemini.Fetched], a [null] body included), the definition held for the
    popup is then a non-empty text and the popup is not loading; so the
    next click on the word of the popup closes it instead of looking the
    word up again. *)
Theorem lookup_ends_with_text (w : World) (i : nat) (word shown : jsstring)
    (k : Outcome -> Async) (reply : Gemini.Reply) (rect : Rect) (t1 t2 : Z) :
  reachable toLowerCase w ->
  nth_error (pending w) i = Some (getWordDefinition word, k) ->
  clickedWord (state w) = Some shown ->
  truthy
    (wordDefinition
       (state (step toLowerCase t1
                 (Settle i (Gemini.getWordDefinition word reply)) w))) = true
  /\ isLoadingDefinition
       (state (step toLowerCase t1
                 (Settle i (Gemini.getWordDefinition word reply)) w)) = false
  /\ clickedWord
       (state (step toLowerCase t2 (WordClick shown rect)
                 (step toLowerCase t1
                    (Settle i (Gemini.getWordDefinition word reply)) w)))
     = None
  /\ calls (step toLowerCase t2 (WordClick shown rect)
              (step toLowerCase t1
                 (Settle i (Gemini.getWordDefinition word reply)) w))
     = calls w.
Proof.
  intros R E Hshown.
  pose proof (client_outcomes_text word reply) as T.
  pose proof (pending_continuation toLowerCase w i _ k R E) as ->.
  rewrite (settle_at toLowerCase t1 w i _ _ _ E).
  destruct (Gemini.getWordDefinition word reply) as [v|m];
    cbn [expected afterDefinition run state pending calls].
  - assert (Hv : truthy v = true) by (destruct v; [congruence | reflexivity]).
    split; [exact Hv|]. split; [reflexivity|].
    rewrite word_click_closes
      by (cbn; rewrite Hshown, same_word_refl, Hv; reflexivity).
    cbn. split; reflexivity.
  - split; [reflexivity|]. split; [reflexivity|].
    rewrite word_click_closes
      by (cbn; rewrite Hshown, same_word_refl; reflexivity).
    cbn. split; reflexivity.
Qed.

(** X19: what the user reads when a summary fails.  For an outstanding
    summarize call of a reachable world whose request is sent (the file, if
    any, encoded), the session error after the reply is: for a status that
    is not ok, the message of the service's error body as [new Error]
    converts it, or the fixed text of [generateSummary] when that
    conversion is empty, or "API request failed with status N" when the
    body has no truthy message; the fixed text for a reply without
    generated text; the message of a network or JSON failure, or of the
    [TypeError] thrown on a [null] body, or the fixed text of
    [generateSummary] when that message is empty.  The fallback text of
    [handleGenerateSummary] itself is never shown.  A reply with text puts
    the text into the summary and leaves the error alone. *)
Theorem summary_reply_shown (w : World) (i : nat) (t : option jsstring)
    (f : option File.t) (m : option jsstring) (k : Outcome -> Async)
    (reply : Gemini.Reply) (now : Z) :
  reachable toLowerCase w ->
  nth_error (pending w) i = Some (generateSummary t f m, k) ->
  Gemini.summaryPrompt t f m <> None ->
  Gemini.with_file f m = None \/ Gemini.encoded reply = true ->
  match Gemini.fetched reply with
  | Gemini.not_ok status (Gemini.truthy_value as_string) =>
      error (state (step toLowerCase now
                      (Settle i (Gemini.generateSummary t f m reply)) w))
      = or_else as_string
          (str "Failed to generate summary. Please check your API key and try again.")
  | Gemini.not_ok status Gemini.falsy =>
      error (state (step toLowerCase now
                      (Settle i (Gemini.generateSummary t f m reply)) w))
      = str "API request failed with status " ++ Gemini.decimal status
  | Gemini.network_error message | Gemini.ok_unreadable message
  | Gemini.not_ok_null message | Gemini.ok_null message =>
      error (state (step toLowerCase now
                      (Settle i (Gemini.generateSummary t f m reply)) w))
      = or_else message
          (str "Failed to generate summary. Please check your API key and try again.")
  | Gemini.ok_json (Some (c :: generated)) =>
      summary (state (step toLowerCase now
                        (Settle i (Gemini.generateSummary t f m reply)) w))
      = c :: generated
      /\ error (state (step toLowerCase now
                         (Settle i (Gemini.generateSummary t f m reply)) w))
         = error (state w)
  | Gemini.ok_json _ =>
      error (state (step toLowerCase now
                      (Settle i (Gemini.generateSummary t f m reply)) w))
      = str "No text generated in the API response"
  end.
Proof.
  intros R E Hp Henc.
  pose proof (pending_continuation toLowerCase w i _ k R E) as ->.
  rewrite (settle_at toLowerCase now w i _ _ _ E).
  unfold Gemini.generateSummary.
  destruct (Gemini.summaryPrompt t f m) as [p|]; [|congruence].
  unfold Gemini.callGeminiAPI.
  assert (Hsent : match Gemini.with_file f m, Gemini.encoded reply with
                  | Some _, false => False
                  | _, _ => True
                  end).
  { destruct Henc as [-> | ->]; [exact I|].
    destruct (Gemini.with_file f m); exact I. }
  destruct (Gemini.with_file f m), (Gemini.encoded reply);
    try contradiction;
    destruct (Gemini.fetched reply)
      as [msg|status [|em]|msg|msg|msg|[[|c g]|]];
    cbn; try reflexivity; try (split; reflexivity);
    try (destruct em; reflexivity);
    try (destruct msg; reflexivity).
Qed.

Lemma trim_truthy (s : jsstring) : truthy (trim s) = true -> truthy s = true.
Proof. destruct s; [discriminate | reflexivity]. Qed.

Lemma dropWhile_fixed (p : char -> bool) (l : jsstring) :
  match l with [] => True | c :: _ => p c = false end -> dropWhile p l = l.
Proof. destruct l as [|c l]; simpl; [reflexivity|]. now intros ->. Qed.

Lemma dropWhile_suffix (p : char -> bool) (l : jsstring) :
  exists pre, l = pre ++ dropWhile p l.
Proof.
  induction l as [|c l [pre IH]]; simpl; [now exists []|].
  destruct (p c); [|now exists []].
  exists (c :: pre). simpl. now f_equal.
Qed.

Lemma dropWhile_first (p : char -> bool) (l : jsstring) :
  match dropWhile p l with [] => True | c :: _ => p c = false end.
Proof.
  induction l as [|c l IH]; simpl; [exact I|].
  destruct (p c) eqn:E; [exact IH | exact E].
Qed.

(** [trim] leaves nothing to trim. *)
Lemma trim_trim (s : jsstring) : trim (trim s) = trim s.
Proof.
  unfold trim.
  set (d := dropWhile isSpace s).
  set (e := dropWhile isSpace (rev d)).
  assert (He : match e with [] => True | c :: _ => isSpace c = false end)
    by apply dropWhile_first.
  assert (Hr : match rev e with [] => True | c :: _ => isSpace c = false end).
  { destruct (dropWhile_suffix isSpace (rev d)) as [pre Hpre]. fold e in Hpre.
    pose proof (dropWhile_first isSpace s) as Hd. fold d in Hd.
    destruct e as [|x e'] eqn:Ee; [exact I|].
    (* the last character of [e] is the first of [d] *)
    apply (f_equal (@rev _)) in Hpre.
    rewrite rev_involutive, rev_app_distr in Hpre.
    destruct (rev (x :: e')) as [|y ys] eqn:Ey.
    - apply (f_equal (@length _)) in Ey. rewrite length_rev in Ey.
      simpl in Ey. lia.
    - rewrite Hpre in Hd. simpl in Hd. exact Hd. }
  rewrite (dropWhile_fixed isSpace (rev e) Hr), rev_involutive.
  now rewrite (dropWhile_fixed isSpace e He).
Qed.

Lemma handler_awaits (e : Event) (s : State) :
  awaits (call_shape toLowerCase) (handler toLowerCase e s).
Proof.
  destruct e; cbn [handler];
    unfold handleFileSelect,
      handleClearFile, handleWordClick, closeDefinition, handleClickOutside;
    try solve
      [ repeat first
          [ apply awaits_done
          | apply awaits_set
          | apply awaits_now; intros ?
          | apply awaits_await; exact I
          | match goal with
            | |- awaits _ (if ?b then _ else _) => destruct b
            | |- awaits _ (match ?x with _ => _ end) => destruct x
            end ] ].
  - unfold handleGenerateSummary.
    destruct (truthy (trim (inputText s))) eqn:T;
      destruct (isPDF toLowerCase s) eqn:P; cbn [negb andb];
      repeat first [apply awaits_done | apply awaits_set | apply awaits_await];
      cbn [call_shape].
    + unfold isPDF in P. destruct (selectedFile s) as [file|]; [|discriminate].
      left. exists file. auto.
    + right. exists (inputText s). auto.
    + unfold isPDF in P. destruct (selectedFile s) as [file|]; [|discriminate].
      left. exists file. auto.
  - unfold handleAskQuestion.
    destruct (truthy (trim (question s))) eqn:Q; cbn [negb];
      [|repeat constructor].
    destruct (truthy (summary s)) eqn:S; cbn [negb]; [|repeat constructor].
    apply awaits_now; intros t.
    repeat apply awaits_set. apply awaits_await. cbn [call_shape].
    repeat split; try assumption. apply trim_trim.
Qed.

Lemma expected_awaits (P : Call -> Prop) (c : Call) (o : Outcome) :
  awaits P (expected c o).
Proof. destruct c, o; cbn; repeat (constructor; intros). Qed.

Lemma run_calls (P : Call -> Prop) (now : Z) (a : Async) :
  awaits P a ->
  forall w, Forall (fun p => P (fst p)) (calls w) ->
            Forall (fun p => P (fst p)) (calls (run now a w)).
Proof.
  induction 1 as [|f k _ IH|k _ IH|c k Hc]; intros w Hw; cbn [run].
  - exact Hw.
  - now apply IH.
  - now apply IH.
  - cbn [calls]. apply Forall_app; split; [exact Hw|].
    constructor; [exact Hc | constructor].
Qed.

(** X20: what the component sends.  In every reachable world, each logged
    summarize call carries either a PDF (by type or by extension) and no
    text, or a non-blank text and no file, and each logged ask call a
    non-empty summary and a non-empty, trimmed question.  So
    [generateSummary] never throws "Either text or file must be provided";
    a logged call of the client comes to [fetch] in every case but one, a
    summarize call for a PDF whose encoding fails, which sends nothing;
    and the only files attached are PDFs, always declared as
    [application/pdf]. *)
Theorem calls_shape (w : World) :
  reachable toLowerCase w ->
  forall (c : Call) (s : State),
    In (c, s) (calls w) ->
    call_shape toLowerCase c
    /\ match c with
       | generateSummary t f m => Gemini.summaryPrompt t f m <> None
       | _ => True
       end
    /\ (forall reply : Gemini.Reply,
          match c with
          | readAsText _ => True
          | _ =>
              Gemini.sent c reply = None
              <-> (exists file,
                     c = generateSummary None (Some file)
                           (Some (str "application/pdf")))
                  /\ Gemini.encoded reply = false
          end)
    /\ (forall (reply : Gemini.Reply) (r : Gemini.Request) (mime : jsstring)
               (file : File.t),
          Gemini.sent c reply = Some r ->
          Gemini.inline_data r = Some (mime, file) ->
          mime = str "application/pdf"
          /\ isPDFFile toLowerCase file = true).
Proof.
  intros R.
  assert (A : Forall (fun p => call_shape toLowerCase (fst p)) (calls w)).
  { induction R as [|now e w R IH]; [constructor|].
    assert (D : Forall (fun p => call_shape toLowerCase (fst p))
                  (calls (run now (handler toLowerCase e (state w)) w)))
      by (apply run_calls; [apply handler_awaits | exact IH]).
    destruct e; try exact D.
    cbn [step]. destruct (nth_error (pending w) i) as [[c k]|] eqn:E;
      [|exact IH].
    pose proof (pending_continuation toLowerCase w i c k R E) as ->.
    apply run_calls; [apply expected_awaits | exact IH]. }
  intros c s Hin. rewrite Forall_forall in A.
  specialize (A _ Hin). cbn [fst] in A. split; [exact A|].
  destruct c as [t f m|sm q|word|file0]; cbn [Gemini.sent].
  - cbn [call_shape] in A.
    destruct A as [(file & -> & -> & Hpdf & ->) | (text_ & -> & T & -> & ->)].
    + split; [discriminate|]. split.
      * intros reply. cbn. destruct (Gemini.encoded reply); split.
        -- discriminate.
        -- intros [_ H]; discriminate.
        -- intros _. split; [now exists file | reflexivity].
        -- reflexivity.
      * intros reply r mime file'. cbn.
        destruct (Gemini.encoded reply); [|discriminate].
        intros [= <-]. cbn. intros [= <- <-]. now split.
    + apply trim_truthy in T. unfold Gemini.summaryPrompt. cbn. rewrite T.
      split; [discriminate|]. split.
      * intros reply. split; [discriminate|].
        intros [[file H] _]; discriminate.
      * intros reply r mime file [= <-]. cbn. discriminate.
  - split; [exact I|]. split.
    + intros reply. cbn. split; [discriminate|].
      intros [[file H] _]; discriminate.
    + intros reply r mime file [= <-]. cbn. discriminate.
  - split; [exact I|]. split.
    + intros reply. cbn. split; [discriminate|].
      intros [[file H] _]; discriminate.
    + intros reply r mime file [= <-]. cbn. discriminate.
  - split; [exact I|]. split; [intros; exact I|].
    intros reply r mime file. discriminate.
Qed.

End More.

Lemma offered_clicks_call_witness :
  offered asciiLower GenerateSummaryClick (state text_and_pdf) = true
  /\ offered asciiLower AskClick (state ready_to_ask) = true
  /\ isGeneratingSummary
       (state (step asciiLower 3 GenerateSummaryClick text_and_pdf)) = true
  /\ pending (step asciiLower 5 AskClick ready_to_ask)
     = pending ready_to_ask
       ++ [(answerQuestion
              (str "Plants use [COMPLEX:photosynthesis] to make food.")
              (str "What is it?"), afterAnswer)].
Proof.
  split; [reflexivity|]. split; [reflexivity|]. split.
  - exact (proj1 (proj2 (proj1 (offered_clicks_call asciiLower text_and_pdf 3)
                           eq_refl))).
  - exact (proj2 (proj2 (proj2
             (proj2 (offered_clicks_call asciiLower ready_to_ask 5) eq_refl)))).
Defined.

Ltac by_steps :=
  unfold summarizing, answering, reading, looking_up, summarizing_pdf,
    ready_to_ask, text_and_pdf, two_lookups, steps;
  cbn [fold_left fst snd];
  repeat apply reachable_step; apply reachable_boot.

Ltac by_page :=
  unfold summarizing, answering, reading, looking_up, summarizing_pdf,
    ready_to_ask, text_and_pdf, two_lookups, steps;
  cbn [fold_left fst snd];
  repeat (apply ui_step; [|reflexivity]); apply ui_boot.

Lemma busy_flags_count_witness :
  ui_reachable asciiLower answering
  /\ outstanding is_summarize answering = 0
  /\ outstanding is_ask answering = 1.
Proof.
  assert (U : ui_reachable asciiLower answering) by by_page.
  split; [exact U|]. exact (busy_flags_count asciiLower answering U).
Defined.

Lemma chat_only_grows_witness :
  reachable asciiLower answering
  /\ grows_by_one (chatMessages (state answering))
       (chatMessages
          (state (step asciiLower 6
                    (Settle 0 (resolved (str "It's how plants make energy.")))
                    answering))).
Proof.
  assert (R : reachable asciiLower answering) by by_steps.
  split; [exact R|].
  exact (chat_only_grows asciiLower answering
           (Settle 0 (resolved (str "It's how plants make energy."))) 6 R).
Defined.

Lemma calls_discipline_witness :
  reachable asciiLower summarizing
  /\ calls (step asciiLower 3 (Settle 0 (rejected (str "HTTP 500"))) summarizing)
     = calls summarizing
  /\ length (pending (step asciiLower 3 (Settle 0 (rejected (str "HTTP 500")))
                        summarizing)) = 0.
Proof.
  assert (R : reachable asciiLower summarizing) by by_steps.
  split; [exact R|].
  exact (calls_discipline asciiLower summarizing
           (Settle 0 (rejected (str "HTTP 500"))) 3 R).
Defined.

Lemma summarize_settles_witness :
  (reachable asciiLower summarizing
   /\ nth_error (pending summarizing) 0
      = Some (generateSummary (Some (str "Photosynthesis is complex.")) None None,
              afterSummary)
   /\ summary
        (state (step asciiLower 3
                  (Settle 0 (resolved (str "Plants make food."))) summarizing))
      = str "Plants make food.")
  /\ (truthy (trim (inputText (state ready_to_ask)))
      || isPDF asciiLower (state ready_to_ask) = true
      /\ summary
           (state (step asciiLower 6 (Settle 0 (rejected (str "HTTP 500")))
                     (step asciiLower 5 GenerateSummaryClick ready_to_ask)))
         = []).
Proof.
  destruct (summarize_settles asciiLower) as [G S].
  assert (R : reachable asciiLower summarizing) by by_steps.
  split.
  - split; [exact R|]. split; [reflexivity|].
    pose proof (proj1 (G summarizing 0 _ _ _ afterSummary
                         (resolved (str "Plants make food.")) 3%Z R eq_refl))
      as E.
    exact (f_equal summary E).
  - split; [reflexivity|].
    exact (proj1 (S ready_to_ask (str "HTTP 500") 5%Z 6%Z eq_refl)).
Defined.

Lemma file_intake_witness :
  (isPDFFile asciiLower paper_pdf = true /\ accepted asciiLower paper_pdf = true)
  /\ (reachable asciiLower reading
      /\ nth_error (pending reading) 0 = Some (readAsText notes_txt, afterRead)
      /\ selectedFile
           (state (step asciiLower 2 (Settle 0 (rejected (str "NotReadableError")))
                     reading))
         = selectedFile (state reading)).
Proof.
  destruct (file_intake asciiLower) as (P & _ & F).
  assert (R : reachable asciiLower reading) by by_steps.
  split.
  - split; [reflexivity | exact (P paper_pdf eq_refl)].
  - split; [exact R|]. split; [reflexivity|].
    exact (proj2 (F reading 0 notes_txt afterRead (str "NotReadableError") 2%Z
                    R eq_refl)).
Defined.

Lemma close_then_click_witness :
  truthy (str "alpha") = true
  /\ clickedWord (state definition_shown) = Some (str "alpha")
  /\ truthy (wordDefinition (state definition_shown)) = true
  /\ pending (step asciiLower 4 (WordClick (str "alpha") span_rect)
                (step asciiLower 3 OutsideClick definition_shown))
     = [(getWordDefinition (str "alpha"), afterDefinition)].
Proof.
  split; [reflexivity|]. split; [reflexivity|]. split; [reflexivity|].
  exact (proj2 (proj2
           (proj1 (proj2 (close_then_click asciiLower definition_shown
                            (str "alpha") span_rect 3 4))
              eq_refl))).
Defined.

Lemma client_outcomes_not_empty_witness :
  Gemini.outcome (getWordDefinition (str "alpha")) null_reply
  = Some (rejected
            (str "Cannot read properties of null (reading 'candidates')"))
  /\ str "Cannot read properties of null (reading 'candidates')" <> [].
Proof.
  split; [reflexivity|].
  exact (client_outcomes_not_empty (getWordDefinition (str "alpha")) null_reply
           (rejected
              (str "Cannot read properties of null (reading 'candidates')"))
           eq_refl).
Defined.

Lemma lookup_ends_with_text_witness :
  reachable asciiLower looking_up
  /\ nth_error (pending looking_up) 0
     = Some (getWordDefinition (str "alpha"), afterDefinition)
  /\ clickedWord (state looking_up) = Some (str "alpha")
  /\ clickedWord
       (state (step asciiLower 3 (WordClick (str "alpha") span_rect)
                 (step asciiLower 2
                    (Settle 0 (Gemini.getWordDefinition (str "alpha") quota_reply))
                    looking_up)))
     = None.
Proof.
  assert (R : reachable asciiLower looking_up) by by_steps.
  split; [exact R|]. split; [reflexivity|]. split; [reflexivity|].
  exact (proj1 (proj2 (proj2
           (lookup_ends_with_text asciiLower looking_up 0 (str "alpha")
              (str "alpha") afterDefinition quota_reply span_rect 2 3
              R eq_refl eq_refl)))).
Defined.

Lemma summary_reply_shown_witness :
  reachable asciiLower summarizing
  /\ nth_error (pending summarizing) 0
     = Some (generateSummary (Some (str "Photosynthesis is complex.")) None None,
             afterSummary)
  /\ Gemini.summaryPrompt (Some (str "Photosynthesis is complex.")) None None
     <> None
  /\ (Gemini.with_file None None = None \/ Gemini.encoded null_reply = true)
  /\ error
       (state (step asciiLower 3
                 (Settle 0
                    (Gemini.generateSummary
                       (Some (str "Photosynthesis is complex.")) None None
                       null_reply))
                 summarizing))
     = str "Cannot read properties of null (reading 'candidates')".
Proof.
  assert (R : reachable asciiLower summarizing) by by_steps.
  assert (P : Gemini.summaryPrompt (Some (str "Photosynthesis is complex."))
                None None <> None) by discriminate.
  split; [exact R|]. split; [reflexivity|]. split; [exact P|].
  split; [left; reflexivity|].
  exact (summary_reply_shown asciiLower summarizing 0
           (Some (str "Photosynthesis is complex.")) None None afterSummary
           null_reply 3 R eq_refl P (or_introl eq_refl)).
Defined.

Lemma calls_shape_witness :
  reachable asciiLower summarizing_pdf
  /\ In (generateSummary None (Some paper_pdf) (Some (str "application/pdf")),
         state summarizing_pdf)
        (calls summarizing_pdf)
  /\ Gemini.summaryPrompt None (Some paper_pdf) (Some (str "application/pdf"))
     <> None
  /\ Gemini.sent
       (generateSummary None (Some paper_pdf) (Some (str "application/pdf")))
       unencoded_reply
     = None.
Proof.
  assert (R : reachable asciiLower summarizing_pdf) by by_steps.
  assert (I : In (generateSummary None (Some paper_pdf)
                    (Some (str "application/pdf")), state summarizing_pdf)
                (calls summarizing_pdf)) by (left; reflexivity).
  split; [exact R|]. split; [exact I|].
  split; [exact (proj1 (proj2 (calls_shape asciiLower summarizing_pdf R _ _ I)))|].
  reflexivity.
Defined.

End SessionMore.

(* ------------------------------------------------------------------ *)
(** ** More on rendering and on the lines the block parser keeps *)

Module ParsersMore.
Import JS JSFacts Markup Blocks Shapes BlocksProps BlocksMore.

Lemma traverse_Forall {A B : Type} (Q : B -> Prop) (f : A -> option B)
    (l : list A) (bs : list B) :
  (forall a b, f a = Some b -> Q b) ->
  traverse f l = Some bs -> Forall Q bs.
Proof.
  intros H. revert bs; induction l as [|a l IH]; intros bs; cbn [traverse].
  - intros [= <-]. constructor.
  - destruct (f a) as [b|] eqn:E; [|discriminate].
    destruct (traverse f l) as [bs'|]; [|discriminate].
    intros [= <-]. constructor; [eapply H; eauto | now apply IH].
Qed.

Lemma renderSegments_well_formed (input : jsstring) (spans : list InlineSpan) :
  renderSegments input = Some spans -> Forall well_formed_span spans.
Proof.
  intros E.
  destruct (MarkupProps.renderSegments_unparse input) as (spans' & E' & _ & W).
  congruence.
Qed.

(** X21: what [renderSummary] makes clickable or bold is never empty: every
    complex-word span of every paragraph and list item holds a non-empty
    term without []], so a click always looks up a non-empty word, and
    every bold span holds a non-empty text without [*]. *)
Theorem rendered_spans_well_formed (text_ : jsstring)
    (rendered : list RenderedBlock) :
  renderSummary text_ = Some rendered ->
  Forall well_formed_span (flat_map spans_of rendered).
Proof.
  unfold renderSummary. destruct (negb (truthy text_)).
  - intros [= <-]. constructor.
  - intros E. apply Forall_flat_map.
    refine (traverse_Forall _ _ _ _ _ E).
    intros b r H. destruct b as [c|items].
    + destruct (renderSegments c) as [spans|] eqn:S; [|discriminate].
      injection H as <-. cbn [spans_of]. now apply renderSegments_well_formed in S.
    + destruct (traverse renderSegments items) as [rs|] eqn:T; [|discriminate].
      injection H as <-. cbn [spans_of]. apply Forall_concat.
      apply (traverse_Forall _ _ _ _ renderSegments_well_formed T).
Qed.

Lemma rendered_spans_well_formed_witness :
  renderSummary (str "Plants use [COMPLEX:photosynthesis] to **make** food.")
  = Some [RParagraph
            [Plain (str "Plants use "); ComplexTerm (str "photosynthesis");
             Plain (str " to "); Bold (str "make"); Plain (str " food.")]]
  /\ Forall well_formed_span
       [Plain (str "Plants use "); ComplexTerm (str "photosynthesis");
        Plain (str " to "); Bold (str "make"); Plain (str " food.")].
Proof.
  split; [reflexivity|].
  exact (rendered_spans_well_formed
           (str "Plants use [COMPLEX:photosynthesis] to **make** food.")
           _ eq_refl).
Defined.

Lemma char_eqb_neq (a b : char) : a <> b -> char_eqb a b = false.
Proof.
  intros H. destruct (char_eqb a b) eqn:E; [|reflexivity].
  apply char_eqb_eq in E. contradiction.
Qed.

Lemma split_acc_line (l s cur : jsstring) :
  no_LF l ->
  split_acc cur (l ++ LF :: s) = (rev cur ++ l) :: split_acc [] s.
Proof.
  revert cur; induction l as [|c l IH]; intros cur H; simpl app.
  - cbn [split_acc]. rewrite char_eqb_refl. now rewrite app_nil_r.
  - cbn [split_acc]. rewrite char_eqb_neq by (intros ->; apply H; now left).
    rewrite IH by (intros Hin; apply H; now right).
    simpl. now rewrite <- app_assoc.
Qed.

Lemma split_acc_last (l cur : jsstring) :
  no_LF l -> split_acc cur l = [rev cur ++ l].
Proof.
  revert cur; induction l as [|c l IH]; intros cur H; cbn [split_acc].
  - now rewrite app_nil_r.
  - rewrite char_eqb_neq by (intros ->; apply H; now left).
    rewrite IH by (intros Hin; apply H; now right).
    simpl. now rewrite <- app_assoc.
Qed.

(** Splitting what lines without line feed were joined to gives the lines. *)
Lemma split_join (ls : list jsstring) :
  ls <> [] -> Forall no_LF ls -> split_lines (join_lines ls) = ls.
Proof.
  intros Hne H. unfold split_lines.
  induction H as [|l ls Hl Hls IH]; [congruence|].
  destruct ls as [|l' ls'].
  - cbn [join_lines]. now rewrite split_acc_last.
  - cbn [join_lines]. rewrite split_acc_line by exact Hl.
    cbn [rev app]. f_equal. apply IH. discriminate.
Qed.

Lemma split_acc_no_LF (s cur : jsstring) :
  no_LF cur -> Forall no_LF (split_acc cur s).
Proof.
  revert cur; induction s as [|c s IH]; intros cur H; cbn [split_acc].
  - constructor; [|constructor]. intros Hin. apply in_rev in Hin. contradiction.
  - destruct (char_eqb c LF) eqn:E.
    + constructor.
      * intros Hin. apply in_rev in Hin. contradiction.
      * apply IH. intros [].
    + apply IH. intros [->|Hin]; [|contradiction].
      now rewrite char_eqb_refl in E.
Qed.

(** No line of [split("\n")] holds a line feed. *)
Lemma split_lines_no_LF (s : jsstring) : Forall no_LF (split_lines s).
Proof. apply split_acc_no_LF. intros []. Qed.

Lemma lines_of_paragraph (result_ : list Block) (para : list jsstring) :
  para <> [] -> Forall no_LF para ->
  flat_map lines_of (result_ ++ [paragraph (join_lines para)])
  = flat_map lines_of result_ ++ para.
Proof.
  intros Hne H. rewrite flat_map_app. cbn [flat_map lines_of].
  now rewrite split_join, app_nil_r.
Qed.

Lemma lines_of_list (result_ : list Block) (items : list jsstring) :
  flat_map lines_of (result_ ++ [list_block items])
  = flat_map lines_of result_ ++ items.
Proof. rewrite flat_map_app. cbn. now rewrite app_nil_r. Qed.

(** One turn of the loop adds to what is held exactly what [kept] keeps of
    the line. *)
Lemma held_step (a : Acc) (l : jsstring) :
  no_LF l ->
  Forall no_LF (currentParagraph a) ->
  currentList a = [] \/ currentParagraph a = [] ->
  forall rest,
    held (loop_body a l)
    ++ kept (0 <? length (currentParagraph (loop_body a l))) rest
    = held a ++ kept (0 <? length (currentParagraph a)) (l :: rest)
    /\ Forall no_LF (currentParagraph (loop_body a l))
    /\ (currentList (loop_body a l) = []
        \/ currentParagraph (loop_body a l) = []).
Proof.
  intros Hl Hp Hx rest. cbn [kept].
  destruct a as [res cl cp].
  cbn [currentParagraph currentList result] in Hp, Hx.
  unfold loop_body, is_bullet, bullet_item, is_blank, held,
    flushParagraph, flushList.
  cbn [currentParagraph currentList result].
  destruct (bulletMatch l) as [item|];
    destruct cp as [|p ps]; destruct cl as [|i is_];
    try (destruct Hx; discriminate);
    destruct (truthy (trim l)) eqn:T;
    cbn [length Nat.ltb Nat.leb orb negb andb
           currentParagraph currentList result app];
    rewrite ?lines_of_list;
    rewrite ?lines_of_paragraph by (assumption || discriminate);
    rewrite ?length_pos;
    repeat match goal with
           | |- context [match ?x ++ [?y] with _ => _ end] =>
               let Z := fresh in
               destruct (x ++ [y]) eqn:Z;
               [apply app_eq_nil in Z as [_ Z]; discriminate | rewrite <- Z]
           end;
    rewrite ?app_nil_r;
    repeat (progress (cbn [app]; rewrite <- ?app_assoc));
    (split; [reflexivity|]); (split; [|auto]);
    repeat first [ assumption
                 | apply Forall_nil
                 | apply Forall_cons
                 | apply Forall_app; split
                 | match goal with
                   | H : Forall _ (_ :: _) |- _ => inversion H; subst; clear H
                   end ].
Qed.

Lemma held_fold (lines : list jsstring) :
  forall a : Acc,
    Forall no_LF lines ->
    Forall no_LF (currentParagraph a) ->
    currentList a = [] \/ currentParagraph a = [] ->
    held (fold_left loop_body lines a)
    = held a ++ kept (0 <? length (currentParagraph a)) lines
    /\ Forall no_LF (currentParagraph (fold_left loop_body lines a))
    /\ (currentList (fold_left loop_body lines a) = []
        \/ currentParagraph (fold_left loop_body lines a) = []).
Proof.
  induction lines as [|l lines IH]; intros a Hl Hp Hx.
  - cbn. rewrite app_nil_r. auto.
  - inversion Hl as [|? ? Hl1 Hl2]; subst.
    destruct (held_step a l Hl1 Hp Hx lines) as (E & P' & X').
    cbn [fold_left].
    destruct (IH (loop_body a l) Hl2 P' X') as (E2 & P2 & X2).
    rewrite E2, E. auto.
Qed.

(** X22: the blocks hold the kept lines, all of them, once and in order.
    Reading the lines back from the blocks of [parseMarkdownLists] (a
    paragraph split at its line feeds, a list as its items) gives, in the
    order of the text: for every bullet line its trimmed item, and every
    other line as it is, except the blank ones met while no paragraph is
    open.  When nothing is kept, the result is the one paragraph holding
    the text. *)
Theorem blocks_keep_lines (text_ : jsstring) :
  (kept false (split_lines text_) <> [] ->
   flat_map lines_of (parseMarkdownLists text_) = kept false (split_lines text_))
  /\ (kept false (split_lines text_) = [] ->
      parseMarkdownLists text_ = [paragraph text_]).
Proof.
  destruct (held_fold (split_lines text_) start (split_lines_no_LF text_)
              (Forall_nil _) (or_introl eq_refl)) as (E & P & X).
  fold (run_lines (split_lines text_)) in E, P, X.
  cbn [start currentParagraph length Nat.ltb Nat.leb] in E.
  change (held start) with (@nil jsstring) in E. cbn [app] in E.
  unfold parseMarkdownLists.
  set (a := run_lines (split_lines text_)) in *.
  destruct (flushParagraph_fields a) as (_ & P2 & P3).
  destruct (flushList_fields (flushParagraph a)) as (_ & _ & L3).
  rewrite P3, P2 in L3. rewrite length_pos, L3. clear L3 P3 P2.
  assert (F : flat_map lines_of
                ((result a
                  ++ match currentParagraph a with
                     | [] => []
                     | _ :: _ => [paragraph (join_lines (currentParagraph a))]
                     end)
                 ++ match currentList a with
                    | [] => []
                    | _ :: _ => [list_block (currentList a)]
                    end)
              = kept false (split_lines text_)).
  { rewrite <- E. unfold held.
    destruct (currentParagraph a) as [|p ps] eqn:Ep;
      destruct (currentList a) as [|i is_] eqn:El.
    - now rewrite !app_nil_r.
    - rewrite app_nil_r, lines_of_list. now rewrite app_nil_r.
    - rewrite app_nil_r, lines_of_paragraph by (assumption || discriminate).
      reflexivity.
    - destruct X; discriminate. }
  destruct ((result a ++ _) ++ _) as [|b bs] eqn:R.
  - split; [|reflexivity]. intros H. cbn in F. congruence.
  - split; [intros _; exact F|].
    intros H. rewrite H in F.
    (* a block holds at least one line *)
    exfalso.
    assert (Hb : lines_of b <> []).
    { pose proof (BlocksMore.run_lines_invariant (split_lines text_)) as [W _].
      fold a in W.
      assert (Wall : Forall well_formed_block (b :: bs)).
      { rewrite <- R. repeat (apply Forall_app; split); try exact W.
        - destruct (currentParagraph a) as [|l ls] eqn:Ep; [constructor|].
          constructor; [|constructor]. cbn [well_formed_block].
          apply join_lines_not_blank.
          pose proof (currentParagraph_run (split_lines text_)) as Q.
          fold a in Q. rewrite Ep in Q. symmetry in Q.
          now apply drop_while_head in Q.
        - destruct (currentList a) eqn:El; [constructor|].
          constructor; [|constructor]. cbn. discriminate. }
      inversion Wall as [|? ? Wb _]; subst.
      destruct b as [c|items]; cbn [lines_of well_formed_block] in *.
      - apply split_acc_not_nil.
      - exact Wb. }
    cbn [flat_map] in F. apply app_eq_nil in F as [F _]. contradiction.
Qed.

Lemma blocks_keep_lines_witness :
  (kept false (split_lines list_then_blank) <> []
   /\ flat_map lines_of (parseMarkdownLists list_then_blank)
      = [str "a"; str "foo"])
  /\ (kept false (split_lines (str "  " ++ [LF])) = []
      /\ parseMarkdownLists (str "  " ++ [LF]) = [paragraph (str "  " ++ [LF])]).
Proof.
  assert (K : kept false (split_lines list_then_blank) <> []) by discriminate.
  split.
  - split; [exact K|]. exact (proj1 (blocks_keep_lines list_then_blank) K).
  - split; [reflexivity|].
    exact (proj2 (blocks_keep_lines (str "  " ++ [LF])) eq_refl).
Defined.

Lemma run_lines_trimmed (pre : list jsstring) :
  Forall (fun item => trim item = item) (currentList (run_lines pre))
  /\ Forall items_trimmed (result (run_lines pre)).
Proof.
  induction pre as [|line pre [IH1 IH2]] using rev_ind.
  - split; constructor.
  - rewrite run_lines_snoc. unfold loop_body.
    destruct (flushParagraph_fields (run_lines pre)) as (P1 & P2 & P3).
    destruct (flushList_fields (run_lines pre)) as (L1 & L2 & L3).
    assert (W : Forall items_trimmed (result (flushList (run_lines pre)))).
    { rewrite L3. apply Forall_app; split; [exact IH2|].
      destruct (currentList (run_lines pre)) eqn:E; [constructor|].
      constructor; [exact IH1 | constructor]. }
    destruct (bulletMatch line) as [item|].
    + cbn [result currentList]. rewrite P2, P3. split.
      * apply Forall_app; split; [exact IH1|].
        constructor; [apply SessionMore.trim_trim | constructor].
      * apply Forall_app; split; [exact IH2|].
        destruct (currentParagraph (run_lines pre)); repeat constructor.
    + destruct (_ || _); cbn [result currentList]; rewrite ?L1;
        (split; [constructor | exact W]).
Qed.

(** X23: no item of any list block has white space at its ends: trimming
    an item of [parseMarkdownLists] changes nothing. *)
Theorem bullet_items_trimmed (text_ : jsstring) :
  Forall items_trimmed (parseMarkdownLists text_).
Proof.
  unfold parseMarkdownLists.
  destruct (run_lines_trimmed (split_lines text_)) as [T1 T2].
  set (a := run_lines (split_lines text_)) in *.
  destruct (flushParagraph_fields a) as (_ & P2 & P3).
  destruct (flushList_fields (flushParagraph a)) as (_ & _ & L3).
  rewrite P3, P2 in L3. rewrite length_pos, L3.
  destruct ((result a ++ _) ++ _) as [|b bs] eqn:R.
  - repeat constructor.
  - rewrite <- R. repeat (apply Forall_app; split); try exact T2.
    + destruct (currentParagraph a); repeat constructor.
    + destruct (currentList a) eqn:E; [constructor|].
      constructor; [exact T1 | constructor].
Qed.

End ParsersMore.

(* ------------------------------------------------------------------ *)
(** ** No recognisable marker is left in the text *)

Module MarkersLeft.
Import JS JSFacts Markup MarkupFacts Blocks Shapes.

Section Leftmost.
Variable re : Regex.
Variable special : PartType.
Hypothesis close_first : exists rest, re_close re = re_excluded re :: rest.
Hypothesis special_not_text : special <> text.

(** A match at the start of a string is a match at the start of every
    extension of it. *)
Lemma match_here_extend (u v g : jsstring) (len : nat) :
  match_here re u = Some (g, len) -> match_here re (u ++ v) = Some (g, len).
Proof.
  intros H.
  pose proof (match_here_group re u g len H) as Hin.
  apply match_here_spec in H as (Hu & Hlen & Hg).
  rewrite Hu, <- !app_assoc, Hlen.
  apply (MarkupMore.match_here_marker re close_first); [|exact Hin].
  destruct g; [simpl in Hg; lia | discriminate].
Qed.











End Leftmost.








End MarkersLeft.

(* ------------------------------------------------------------------ *)
(** ** Bullet lines and their content *)

Module BulletLines.
Import JS JSFacts Blocks Shapes.

Lemma dropWhile_twice (p : char -> bool) (s : jsstring) :
  dropWhile p (dropWhile p s) = dropWhile p s.
Proof.
  induction s as [|c s IH]; simpl; [reflexivity|].
  destruct (p c) eqn:E; [exact IH|]. simpl. now rewrite E.
Qed.

Lemma trim_dropWhile (s : jsstring) : trim (dropWhile isSpace s) = trim s.
Proof. unfold trim. now rewrite dropWhile_twice. Qed.

Lemma dropWhile_all (p : char -> bool) (s : jsstring) :
  forallb p s = true -> dropWhile p s = [].
Proof.
  induction s as [|c s IH]; simpl; [reflexivity|].
  intros H. apply andb_true_iff in H as [-> H]. now apply IH.
Qed.

Lemma trim_spaces (s : jsstring) : forallb isSpace s = true -> trim s = [].
Proof. intros H. unfold trim. now rewrite (dropWhile_all _ _ H). Qed.

Lemma takeWhile_app_all (p : char -> bool) (a b : jsstring) :
  forallb p a = true -> takeWhile p (a ++ b) = a ++ takeWhile p b.
Proof.
  induction a as [|c a IH]; simpl; [reflexivity|].
  intros H. apply andb_true_iff in H as [-> H]. f_equal. now apply IH.
Qed.

Lemma takeWhile_forallb (p : char -> bool) (s : jsstring) :
  forallb p (takeWhile p s) = true.
Proof.
  induction s as [|c s IH]; simpl; [reflexivity|].
  destruct (p c) eqn:E; simpl; [now rewrite E | reflexivity].
Qed.

(** The tail [\s+(.+)$] on white space followed by a content without line
    terminator: the group, trimmed, is the content, trimmed. *)
Lemma bullet_backtrack_content (sp content_ : jsstring) :
  sp <> [] -> forallb isSpace sp = true ->
  content_ <> [] -> forallb isDot content_ = true ->
  exists group,
    bullet_backtrack (length (takeWhile isSpace (sp ++ content_)))
      (sp ++ content_) = Some group
    /\ trim group = trim content_.
Proof.
  intros Hsp Hws Hc Hdot.
  rewrite (takeWhile_app_all _ _ _ Hws).
  pose proof (takeWhile_dropWhile isSpace content_) as Split.
  set (lead := takeWhile isSpace content_) in *.
  set (body := dropWhile isSpace content_) in *.
  assert (Hbody : forallb isDot body = true).
  { rewrite <- Split, forallb_app in Hdot.
    now apply andb_true_iff in Hdot as [_ H]. }
  assert (Hskip : skipn (length (sp ++ lead)) (sp ++ content_) = body).
  { rewrite <- Split at 1. rewrite app_assoc.
    apply MarkupMore.skipn_app_exact. }
  destruct (length (sp ++ lead)) as [|k] eqn:K.
  { destruct sp; [congruence | discriminate]. }
  cbn [bullet_backtrack]. rewrite Hskip.
  destruct body as [|b body'] eqn:B.
  - (* the content is white space only: the last character is the group *)
    cbn [truthy andb].
    assert (Hlead : content_ = lead) by (now rewrite <- Split, app_nil_r).
    assert (Hall : forallb isSpace content_ = true)
      by (rewrite Hlead; apply takeWhile_forallb).
    destruct (exists_last Hc) as (init & last & Hlast).
    assert (Hk : k = length (sp ++ init)).
    { rewrite <- Hlead, Hlast, app_assoc, length_app in K. simpl in K. lia. }
    destruct k as [|k'].
    { destruct sp; [congruence | discriminate]. }
    cbn [bullet_backtrack].
    assert (S1 : skipn (S k') (sp ++ content_) = [last]).
    { rewrite Hk, Hlast, app_assoc. apply MarkupMore.skipn_app_exact. }
    rewrite S1. cbn [truthy andb].
    assert (Dl : forallb isDot [last] = true).
    { rewrite Hlast, forallb_app in Hdot.
      now apply andb_true_iff in Hdot as [_ H]. }
    rewrite Dl. exists [last]. split; [reflexivity|].
    rewrite (trim_spaces content_ Hall). apply trim_spaces.
    rewrite Hlast, forallb_app in Hall.
    now apply andb_true_iff in Hall as [_ H].
  - cbn [truthy andb]. rewrite Hbody. exists (b :: body'). split; [reflexivity|].
    rewrite <- B. apply trim_dropWhile.
Qed.

(** C9, amended: the example parses to a paragraph, one list of the two
    items, and a paragraph.  In general a run of consecutive bullet lines
    closes the open paragraph and goes, item by item, into one and the same
    open list; a text of bullet lines only is a single list.  A line made
    of white space, a marker [-] or [*], one or more white-space characters
    and a non-empty content without line terminator is a bullet line, and
    its item is the content without the white space at its ends.  A
    content with a line terminator is not covered: a line that ends in a
    carriage return is no bullet line, and the example with lines ending
    in CR LF is one paragraph. *)
Theorem bullet_grouping :
  parseMarkdownLists bullet_example
  = [paragraph (str "para one");
     list_block [str "item A"; str "item B"];
     paragraph (str "paras two")]
  /\ (forall pre bullets : list jsstring,
        forallb is_bullet bullets = true ->
        bullets <> [] ->
        run_lines (pre ++ bullets)
        = {| result :=
               result (run_lines pre)
               ++ match currentParagraph (run_lines pre) with
                  | [] => []
                  | _ :: _ =>
                      [paragraph (join_lines (currentParagraph (run_lines pre)))]
                  end;
             currentList := currentList (run_lines pre) ++ map bullet_item bullets;
             currentParagraph := [] |})
  /\ (forall text_ : jsstring,
        forallb is_bullet (split_lines text_) = true ->
        parseMarkdownLists text_
        = [list_block (map bullet_item (split_lines text_))])
  /\ (forall (ws : jsstring) (m : char) (sp content_ : jsstring),
        forallb isSpace ws = true ->
        isBulletMarker m = true ->
        sp <> [] -> forallb isSpace sp = true ->
        content_ <> [] -> forallb isDot content_ = true ->
        is_bullet (ws ++ m :: sp ++ content_) = true
        /\ bullet_item (ws ++ m :: sp ++ content_) = trim content_)
  /\ (is_bullet (str "- item A" ++ [CR]) = false
      /\ parseMarkdownLists bullet_example_crlf
         = [paragraph bullet_example_crlf]).
Proof.
  split; [reflexivity|]. split; [|split; [|split]].
  - intros pre [|b bullets] Hall Hne; [congruence|].
    unfold run_lines. rewrite fold_left_app. fold (run_lines pre).
    simpl in Hall. apply andb_true_iff in Hall as [Hb Hall].
    cbn [fold_left].
    destruct (BlocksProps.flushParagraph_fields (run_lines pre)) as (P1 & P2 & P3).
    unfold is_bullet in Hb.
    rewrite BlocksProps.bullets_fold; [|exact Hall|];
      unfold loop_body; destruct (bulletMatch b) as [item|] eqn:E;
      try discriminate; cbn [result currentList currentParagraph map].
    + assert (Hi : bullet_item b = trim item)
        by (unfold bullet_item; now rewrite E).
      rewrite Hi, P2, P3, <- app_assoc. reflexivity.
    + exact P1.
  - intros text_ Hall. unfold parseMarkdownLists, run_lines.
    rewrite BlocksProps.bullets_fold by (exact Hall || reflexivity).
    cbn. pose proof (BlocksProps.split_acc_not_nil [] text_) as Hne.
    fold (split_lines text_) in Hne.
    destruct (split_lines text_); [congruence | reflexivity].
  - intros ws m sp content_ Hws Hm Hsp Hsps Hc Hdot.
    destruct (bullet_backtrack_content sp content_ Hsp Hsps Hc Hdot)
      as (group & G & T).
    unfold is_bullet, bullet_item, bulletMatch.
    rewrite BlocksProps.dropWhile_spaces by exact Hws.
    cbn [dropWhile]. rewrite (BlocksProps.marker_not_space m Hm), Hm, G.
    split; [reflexivity | exact T].
  - split; reflexivity.
Qed.

Lemma bullet_grouping_witness :
  (forallb is_bullet [str "- a"; str "  * b"] = true
   /\ [str "- a"; str "  * b"] <> []
   /\ currentList (run_lines ([str "intro"] ++ [str "- a"; str "  * b"]))
      = [str "a"; str "b"])
  /\ (forallb is_bullet (split_lines two_bullets) = true
      /\ parseMarkdownLists two_bullets = [list_block [str "a"; str "b"]])
  /\ (forallb isSpace (str "  ") = true
      /\ isBulletMarker 42%N = true
      /\ str "  " <> []
      /\ forallb isSpace (str "  ") = true
      /\ str " b c " <> []
      /\ forallb isDot (str " b c ") = true
      /\ bullet_item (str "  " ++ 42%N :: str "  " ++ str " b c ") = str "b c").
Proof.
  destruct bullet_grouping as (_ & G & T & P & _).
  split; [|split].
  - split; [reflexivity|]. split; [discriminate|].
    rewrite (G [str "intro"] [str "- a"; str "  * b"] eq_refl);
      [reflexivity | discriminate].
  - split; [reflexivity|]. exact (T two_bullets eq_refl).
  - assert (N1 : str "  " <> []) by discriminate.
    assert (N2 : str " b c " <> []) by discriminate.
    split; [reflexivity|]. split; [reflexivity|]. split; [exact N1|].
    split; [reflexivity|]. split; [exact N2|]. split; [reflexivity|].
    exact (proj2 (P (str "  ") 42%N (str "  ") (str " b c ")
                    eq_refl eq_refl N1 eq_refl N2 eq_refl)).
Defined.

(** With lines ending in CR LF the example has two lines of a marker, a
    space and a content, and no list comes of them. *)
Lemma bullet_line_ending_in_CR :
  ~ (exists items, In (list_block items) (parseMarkdownLists bullet_example_crlf)).
Proof.
  assert (E : parseMarkdownLists bullet_example_crlf
              = [paragraph bullet_example_crlf]) by reflexivity.
  rewrite E. intros (items & [H|[]]). discriminate.
Qed.

End BulletLines.

(* ------------------------------------------------------------------ *)
(** ** Questions and the events between a question and its answer *)

Module AskInterleaved.
Import JS JSFacts Session Gating SessionProps.

Section Interleaved.
Variable toLowerCase : jsstring -> jsstring.

(** Every event but a click on "Generate Summary" keeps the chat and may
    add to its end. *)
Lemma chat_kept_step (w : World) (e : Event) (now : Z) :
  reachable toLowerCase w -> e <> GenerateSummaryClick ->
  exists more,
    chatMessages (state (step toLowerCase now e w))
    = chatMessages (state w) ++ more.
Proof.
  intros R Hne.
  destruct e; try congruence; cbn [step handler];
    unfold handleAskQuestion, handleFileSelect,
      handleClearFile, handleWordClick, closeDefinition, handleClickOutside;
    try solve
      [ repeat match goal with
               | |- context [if ?b then _ else _] => destruct b
               | |- context [match ?x with _ => _ end] => destruct x
               end;
        cbn; first [ exists []; now rewrite app_nil_r
                   | eexists; reflexivity ] ].
  destruct (nth_error (pending w) i) as [[c k]|] eqn:E;
    [|exists []; now rewrite app_nil_r].
  pose proof (pending_continuation toLowerCase w i c k R E) as ->.
  destruct c, o; cbn;
    first [ exists []; now rewrite app_nil_r | eexists; reflexivity ].
Qed.

Lemma reachable_steps (es : list (Z * Event)) :
  forall w, reachable toLowerCase w -> reachable toLowerCase (steps toLowerCase es w).
Proof.
  induction es as [|[t e] es IH]; intros w R; [exact R|].
  cbn [steps fold_left fst snd]. apply IH. now apply reachable_step.
Qed.

Lemma chat_kept (es : list (Z * Event)) :
  forall w,
    reachable toLowerCase w ->
    Forall (fun te => snd te <> GenerateSummaryClick) es ->
    exists more,
      chatMessages (state (steps toLowerCase es w))
      = chatMessages (state w) ++ more.
Proof.
  induction es as [|[t e] es IH]; intros w R F.
  - exists []. now rewrite app_nil_r.
  - inversion F as [|? ? Fe F']; subst. cbn [snd] in Fe.
    cbn [steps fold_left fst snd].
    destruct (chat_kept_step w e t R Fe) as [m1 E1].
    destruct (IH (step toLowerCase t e w) (reachable_step _ _ _ _ R) F')
      as [m2 E2].
    exists (m1 ++ m2). unfold steps in E2. rewrite E2, E1.
    now rewrite app_assoc.
Qed.

Lemma ask_click_chat (w : World) (now : Z) :
  truthy (trim (question (state w))) = true ->
  truthy (summary (state w)) = true ->
  chatMessages (state (step toLowerCase now AskClick w))
  = chatMessages (state w)
    ++ [{| ChatMessage.type := ChatMessage.user;
           ChatMessage.content := trim (question (state w));
           ChatMessage.id := now |}].
Proof.
  intros Hq Hs. cbn [step handler]. unfold handleAskQuestion.
  rewrite Hq, Hs. reflexivity.
Qed.

Lemma ask_settles (w : World) (i : nat) (summary_ question_ : jsstring)
    (k : Outcome -> Async) (o : Outcome) (now : Z) :
  reachable toLowerCase w ->
  nth_error (pending w) i = Some (answerQuestion summary_ question_, k) ->
  isAnswering (state (step toLowerCase now (Settle i o) w)) = false
  /\ chatMessages (state (step toLowerCase now (Settle i o) w))
     = chatMessages (state w)
       ++ [{| ChatMessage.type := ChatMessage.assistant;
              ChatMessage.content :=
                match o with
                | resolved result => result
                | rejected _ =>
                    str "Sorry, I encountered an error. Please try again."
                end;
              ChatMessage.id := (now + 1)%Z |}]
  /\ error (state (step toLowerCase now (Settle i o) w))
     = match o with
       | resolved _ => error (state w)
       | rejected message =>
           or_else message
             (str "Failed to answer question. Please check your API key.")
       end.
Proof.
  intros R E.
  pose proof (pending_continuation toLowerCase w i _ k R E) as ->.
  rewrite (settle_at toLowerCase now w i _ _ o E).
  destruct o; cbn; repeat split; reflexivity.
Qed.


(** X13: a question asked and answered.  With a non-blank question and a
    summary, the click puts the trimmed question into the chat at once,
    empties the input, and sends the question trimmed, with the summary of
    the moment of the click.  When the answer arrives as the next event,
    the chat is the previous chat, the question and the answer as an
    assistant message, the answering flag is cleared and the error is
    empty.  When other events come in between, none of them a click on
    "Generate Summary", the question is still in the chat and the answer
    is added after it, at the end. *)
Theorem ask_answered (w : World) (result : jsstring) (t1 t2 : Z) :
  truthy (trim (question (state w))) = true ->
  truthy (summary (state w)) = true ->
  question (state (step toLowerCase t1 AskClick w)) = []
  /\ calls (step toLowerCase t1 AskClick w)
     = calls w
       ++ [(answerQuestion (summary (state w)) (trim (question (state w))),
            state (step toLowerCase t1 AskClick w))]
  /\ chatMessages
       (state (step toLowerCase t2 (Settle (length (pending w)) (resolved result))
                 (step toLowerCase t1 AskClick w)))
     = chatMessages (state w)
       ++ [{| ChatMessage.type := ChatMessage.user;
              ChatMessage.content := trim (question (state w));
              ChatMessage.id := t1 |};
           {| ChatMessage.type := ChatMessage.assistant;
              ChatMessage.content := result;
              ChatMessage.id := (t2 + 1)%Z |}]
  /\ isAnswering
       (state (step toLowerCase t2 (Settle (length (pending w)) (resolved result))
                 (step toLowerCase t1 AskClick w))) = false
  /\ error
       (state (step toLowerCase t2 (Settle (length (pending w)) (resolved result))
                 (step toLowerCase t1 AskClick w))) = []
  /\ (forall (es : list (Z * Event)) (i : nat) (k : Outcome -> Async),
        reachable toLowerCase w ->
        Forall (fun te => snd te <> GenerateSummaryClick) es ->
        nth_error
          (pending (steps toLowerCase es (step toLowerCase t1 AskClick w))) i
        = Some (answerQuestion (summary (state w)) (trim (question (state w))),
                k) ->
        exists between,
          chatMessages
            (state (step toLowerCase t2 (Settle i (resolved result))
                      (steps toLowerCase es (step toLowerCase t1 AskClick w))))
          = chatMessages (state w)
            ++ {| ChatMessage.type := ChatMessage.user;
                  ChatMessage.content := trim (question (state w));
                  ChatMessage.id := t1 |}
               :: between
            ++ [{| ChatMessage.type := ChatMessage.assistant;
                   ChatMessage.content := result;
                   ChatMessage.id := (t2 + 1)%Z |}]).
Proof.
  intros Hq Hs.
  assert (E1 : step toLowerCase t1 AskClick w
               = run t1 (handleAskQuestion (state w)) w) by reflexivity.
  unfold handleAskQuestion in E1. rewrite Hq, Hs in E1.
  cbn [negb run state pending calls] in E1.
  rewrite (settle_at toLowerCase t2 _ (length (pending w)) _ afterAnswer)
    by (rewrite E1; cbn [pending]; apply nth_error_snoc).
  do 5 (split; [rewrite E1; cbn; rewrite <- ?app_assoc; reflexivity|]).
  intros es i k R F E.
  assert (R1 : reachable toLowerCase (step toLowerCase t1 AskClick w))
    by now apply reachable_step.
  destruct (chat_kept es _ R1 F) as [between B].
  destruct (ask_settles _ i _ _ k (resolved result) t2
              (reachable_steps es _ R1) E) as (_ & C & _).
  exists between. rewrite C, B, (ask_click_chat w t1 Hq Hs).
  now rewrite <- !app_assoc.
Qed.

End Interleaved.



(** The page offers each of these events. *)
Lemma question_lost_offered : ui_reachable asciiLower question_lost.
Proof.
  unfold question_lost, ready_to_ask, steps. cbn [fold_left fst snd].
  repeat (apply ui_step; [|reflexivity]); apply ui_boot.
Qed.

Lemma ask_answered_witness :
  truthy (trim (question (state ready_to_ask))) = true
  /\ truthy (summary (state ready_to_ask)) = true
  /\ chatMessages
       (state (step asciiLower 6
                 (Settle 0 (resolved (str "It's how plants make energy.")))
                 (step asciiLower 5 AskClick ready_to_ask)))
     = [{| ChatMessage.type := ChatMessage.user;
           ChatMessage.content := str "What is it?";
           ChatMessage.id := 5%Z |};
        {| ChatMessage.type := ChatMessage.assistant;
           ChatMessage.content := str "It's how plants make energy.";
           ChatMessage.id := 7%Z |}].
Proof.
  split; [reflexivity|]. split; [reflexivity|].
  exact (proj1 (proj2 (proj2
           (ask_answered asciiLower ready_to_ask
              (str "It's how plants make energy.") 5 6 eq_refl eq_refl)))).
Defined.

End AskInterleaved.
